(** * AloeDB core: matching, search, update, storage parsing and write coalescing

    A shallow embedding of [lib/core.ts] and of the parts of [lib/database.ts]
    that call into it, together with the properties the specification states
    about them.

    Layout of the development:
    - [Values]: JavaScript data as trees, the helpers of [utils.ts] on them,
      [matchValues], [searchDocuments], [parseDatabaseStorage], and what
      [updateDocument] returns;
    - [Store]: objects and arrays as cells of a mutable store, the in-place
      helpers of [utils.ts] and [updateDocument] with its effects on the
      objects it is given;
    - [Coalescer]: the write coalescer of [writer.ts] as a state machine;
    - [Collection]: the methods of [Database] ([insertOne], [insertMany],
      [findOne], [findMany], [updateOne], [updateMany], [deleteOne],
      [deleteMany], [count], [drop], [load], [save]) by explicit state
      passing.

    Modelling conventions, common to all parts:
    - a JavaScript number is an integer ([Z]); fractional values, NaN and the
      signed zero are left out;
    - an object is the list of its own enumerable fields in the order
      [for ... in] visits them; the functions it inherits from
      [Object.prototype] are not fields, but a read of a name the object
      has no field of finds them;
    - a string is the list of the bytes of its UTF-8 encoding (a string
      with an unpaired surrogate has none and is left out);
    - a function received from the caller (query predicate, transform,
      validator) is a Rocq function; a regular expression is the test it
      performs on a string, taken without the [g] and [y] flags, so that
      testing does not depend on earlier tests. *)

From Stdlib Require Import ZArith Lia Permutation Sorted Ascii String.
From stdpp Require Import base option list strings gmap.

Local Open Scope string_scope.
Local Open Scope list_scope.

(** Exceptions a call can raise. [RangeError] is the engine's "maximum call
    stack size exceeded"; [SyntaxError] is raised by [JSON.parse]. *)
Inductive error : Type :=
  | TypeError (message : string)
  | SyntaxError
  | RangeError
  | UserError (message : string).

(** The result of a call that may throw. *)
Inductive outcome (A : Type) : Type :=
  | Return (a : A)
  | Throw (e : error).
Arguments Return {A} a.
Arguments Throw {A} e.

Definition throws {A} (o : outcome A) : Prop :=
  match o with Throw _ => True | Return _ => False end.

(* ================================================================== *)
(** * Values as trees *)
(* ================================================================== *)

Module Values.

(** [DocumentValue] of [types.ts], extended with [undefined], which a
    JavaScript object can hold in a field before it is normalised, and with
    the functions every object inherits from [Object.prototype], which a
    read of [object[key]] returns when the object has no field of that
    name; [VInherited name] is the function inherited under [name]. *)
#[warnings="-register-all"]
Inductive value : Type :=
  | VUndefined
  | VNull
  | VBool (b : bool)
  | VNum (n : Z)
  | VStr (s : string)
  | VArr (items : list value)
  | VObj (fields : list (string * value))
  | VInherited (name : string).

(** A document is an object: the list of its fields. *)
Abbreviation Document := (list (string * value)).

(** ** Type tests of [utils.ts] *)

(** Modelled from the spec: [isUndefined], [isNull], [isString], [isNumber],
    [isBoolean], [isArray] and [isObject] of [utils.ts], which is not among
    the sources; each is the dynamic type test its name and the data model
    of the specification give (an array is not an object, [null] is not an
    object). *)
Definition isUndefined (target : value) : bool :=
  match target with VUndefined => true | _ => false end.
Definition isNull (target : value) : bool :=
  match target with VNull => true | _ => false end.
Definition isString (target : value) : bool :=
  match target with VStr _ => true | _ => false end.
Definition isNumber (target : value) : bool :=
  match target with VNum _ => true | _ => false end.
Definition isBoolean (target : value) : bool :=
  match target with VBool _ => true | _ => false end.
Definition isArray (target : value) : bool :=
  match target with VArr _ => true | _ => false end.
Definition isObject (target : value) : bool :=
  match target with VObj _ => true | _ => false end.

(** Modelled from the spec: [isObjectEmpty] of [utils.ts]; an object is
    empty when it has no fields ("zero fields at the top level"). *)
Definition isObjectEmpty (target : Document) : bool :=
  match target with [] => true | _ :: _ => false end.

(** JavaScript's boolean coercion, as [if (x)], [!x] and [x ? a : b] apply
    it: [undefined], [null], [false], [0] and the empty string are falsy. *)
Definition truthy (v : value) : bool :=
  match v with
  | VUndefined | VNull => false
  | VBool b => b
  | VNum n => negb (n =? 0)%Z
  | VStr s => negb (String.eqb s "")
  | VArr _ | VObj _ | VInherited _ => true
  end.

(** The names under which an object created by an object literal, by
    [JSON.parse] or by a copy finds a member of [Object.prototype]; each
    of these members is a function. ([__proto__] is not among them: Deno
    removes it from [Object.prototype].) *)
Definition inheritedNames : list string :=
  ["constructor"; "hasOwnProperty"; "isPrototypeOf"; "propertyIsEnumerable";
   "toLocaleString"; "toString"; "valueOf"; "__defineGetter__";
   "__defineSetter__"; "__lookupGetter__"; "__lookupSetter__"].

Definition isInherited (key : string) : bool :=
  existsb (String.eqb key) inheritedNames.

(** What a read finds under a name the object has no field of: the
    inherited function, or [undefined]. *)
Definition missing (key : string) : value :=
  if isInherited key then VInherited key else VUndefined.

(** [document[key]]: the value of the object's own field of that name;
    when it has none, the member inherited under that name, [undefined]
    when there is none either. *)
Fixpoint getField (fields : list (string * value)) (key : string) : value :=
  match fields with
  | [] => missing key
  | (k, v) :: rest => if String.eqb k key then v else getField rest key
  end.

(** The object has a field of its own under that name. *)
Fixpoint hasField (fields : list (string * value)) (key : string) : bool :=
  match fields with
  | [] => false
  | (k, _) :: rest => String.eqb k key || hasField rest key
  end.

(** [a === b] where one side is a string, a number, a boolean or [null]:
    same type and same value, no coercion. *)
Definition strictEquals (a b : value) : bool :=
  match a, b with
  | VUndefined, VUndefined => true
  | VNull, VNull => true
  | VBool x, VBool y => Bool.eqb x y
  | VNum x, VNum y => (x =? y)%Z
  | VStr x, VStr y => String.eqb x y
  | _, _ => false
  end.

(** Modelled from the spec: [deepCompare] of [utils.ts]. "Deep-equality
    ..., recursively, with arrays compared by length and positional equality
    and objects compared by field-set and per-field equality; mismatched
    types are never equal." *)
Fixpoint deepCompare (a b : value) {struct a} : bool :=
  match a, b with
  | VArr xs, VArr ys =>
      (fix positional (xs ys : list value) {struct xs} : bool :=
         match xs, ys with
         | [], [] => true
         | x :: xs', y :: ys' => deepCompare x y && positional xs' ys'
         | _, _ => false
         end) xs ys
  | VObj fa, VObj fb =>
      (length fa =? length fb)%nat &&
      (fix perField (fa : list (string * value)) : bool :=
         match fa with
         | [] => true
         | (k, x) :: fa' =>
             hasField fb k && deepCompare x (getField fb k) && perField fa'
         end) fa
  | VArr _, _ | VObj _, _ => false
  | _, _ => strictEquals a b
  end.

(** Modelled from the spec: [numbersList] of [utils.ts], called as
    [numbersList(documents.length - 1)]: "all positions,
    0..documents.length-1, in order", that is the integers from [0] to
    [last] inclusive, none when [last] is negative. *)
Definition numbersList (last : Z) : list nat :=
  seq 0 (Z.to_nat (last + 1)).

(** Modelled from the spec: [cleanArray] of [utils.ts]. An array left with
    holes by [delete array[i]] is "compacted" into one without gaps, the
    order of the remaining elements kept. A hole is [None]. *)
Fixpoint cleanArray {A} (target : list (option A)) : list A :=
  match target with
  | [] => []
  | None :: rest => cleanArray rest
  | Some x :: rest => x :: cleanArray rest
  end.

(** ** Queries *)

(** [QueryValue] of [types.ts]: a plain value (literal, array, object or
    [undefined]; a query value that is a function is a predicate, not a
    plain value), a predicate on the document's value, or a regular
    expression. *)
Inductive QueryValue : Type :=
  | QValue (v : value)
  | QFunction (f : value → value)
  | QRegExp (test : string → bool).

(** The first argument of [searchDocuments]:
    [Query | QueryFunction | undefined]. *)
Inductive Query : Type :=
  | QueryUndefined
  | QueryFields (fields : list (string * QueryValue))
  | QueryFunction (f : Document → value).

(** [matchValues] of [core.ts]. The tests come in the order of the source:
    literal, function, regular expression, array or object, [undefined];
    [isFunction] and [isRegExp] are the cases of [QueryValue]. *)
Definition matchValues (queryValue : QueryValue) (documentValue : value) : bool :=
  match queryValue with
  | QValue q =>
      if isString q || isNumber q || isBoolean q || isNull q
      then strictEquals q documentValue
      else if isArray q || isObject q
      then deepCompare q documentValue
      else if isUndefined q
      then isUndefined documentValue
      else false
  | QFunction f =>
      if truthy (f documentValue) then true else false
  | QRegExp test =>
      match documentValue with
      | VStr s => test s
      | _ => false
      end
  end.

(** ** Search *)

(** The comparisons a search performs: one entry, field name and position,
    for every call of [matchValues], in the order of the calls. *)
Abbreviation Comparisons := (list (string * nat)).

(** The loop of the first query field: every document is compared, from
    position [i] on; the positions that match are pushed to [found]. *)
Fixpoint firstSearch (key : string) (queryValue : QueryValue)
    (documents : list Document) (i : nat) : list nat * Comparisons :=
  match documents with
  | [] => ([], [])
  | document :: rest =>
      let documentValue := getField document key in
      let isMatched := matchValues queryValue documentValue in
      let '(found, calls) := firstSearch key queryValue rest (S i) in
      (if isMatched then i :: found else found, (key, i) :: calls)
  end.

(** The loop of a later query field over [found]: a hole is skipped, a
    position whose document matches stays, any other is deleted, which
    leaves a hole. The positions in [found] come from [firstSearch], so
    [documents[position]] exists (see [firstSearch_bound]); the branch for
    a position outside the array is never taken. *)
Fixpoint nextSearch (key : string) (queryValue : QueryValue)
    (documents : list Document) (found : list (option nat))
    : list (option nat) * Comparisons :=
  match found with
  | [] => ([], [])
  | None :: rest =>
      let '(found', calls) := nextSearch key queryValue documents rest in
      (None :: found', calls)
  | Some position :: rest =>
      let isMatched :=
        match documents !! position with
        | Some document => matchValues queryValue (getField document key)
        | None => false
        end in
      let '(found', calls) := nextSearch key queryValue documents rest in
      ((if isMatched then Some position else None) :: found',
       (key, position) :: calls)
  end.

(** The iterations of [for (const key in query)] after the first one. *)
Fixpoint laterFields (fields : list (string * QueryValue))
    (documents : list Document) (found : list (option nat))
    : list (option nat) * Comparisons :=
  match fields with
  | [] => (found, [])
  | (key, queryValue) :: rest =>
      let '(found1, calls1) := nextSearch key queryValue documents found in
      let '(found2, calls2) := laterFields rest documents found1 in
      (found2, calls1 ++ calls2)
  end.

(** The loop of a predicate query. *)
Fixpoint predicateSearch (query : Document → value)
    (documents : list Document) (i : nat) : list nat :=
  match documents with
  | [] => []
  | document :: rest =>
      if truthy (query document)
      then i :: predicateSearch query rest (S i)
      else predicateSearch query rest (S i)
  end.

(** [searchDocuments] of [core.ts], with the comparisons it makes. *)
Definition searchDocumentsLog (query : Query) (documents : list Document)
    : list nat * Comparisons :=
  match query with
  | QueryFunction f => (predicateSearch f documents 0, [])
  | QueryUndefined => (numbersList (Z.of_nat (length documents) - 1), [])
  | QueryFields [] => (numbersList (Z.of_nat (length documents) - 1), [])
  | QueryFields ((key, queryValue) :: rest) =>
      let '(found, calls) := firstSearch key queryValue documents 0 in
      if (length found =? 0)%nat then ([], calls)
      else
        let '(found', calls') := laterFields rest documents (Some <$> found) in
        (cleanArray found', calls ++ calls')
  end.

Definition searchDocuments (query : Query) (documents : list Document) : list nat :=
  (searchDocumentsLog query documents).1.

(** Whether the document at [position] satisfies one query field. *)
Definition matchesAt (documents : list Document) (position : nat)
    (field : string * QueryValue) : bool :=
  match documents !! position with
  | Some document => matchValues field.2 (getField document field.1)
  | None => false
  end.

(** ** Normalisation and copies of tree values *)

(** Modelled from the spec: [prepareObject] of [utils.ts], "recursively
    strip any field (at any depth) whose value is absent-marker". On tree
    values the function returns the object as the call leaves it. *)
Fixpoint prepareValue (target : value) : value :=
  match target with
  | VObj fields =>
      VObj ((fix strip (fields : list (string * value)) :=
               match fields with
               | [] => []
               | (key, v) :: rest =>
                   if isUndefined v then strip rest
                   else (key, prepareValue v) :: strip rest
               end) fields)
  | VArr items => VArr (List.map prepareValue items)
  | _ => target
  end.

(** Modelled from the spec: [prepareObject] on the fields of a document:
    the fields left in it by the call, in their order. *)
Fixpoint prepareObject (target : Document) : Document :=
  match target with
  | [] => []
  | (key, v) :: rest =>
      if isUndefined v then prepareObject rest
      else (key, prepareValue v) :: prepareObject rest
  end.

(** Modelled from the spec: [deepClone] of [utils.ts], "a deep copy". *)
Fixpoint deepClone (target : value) : value :=
  match target with
  | VObj fields =>
      VObj ((fix each (fields : list (string * value)) :=
               match fields with
               | [] => []
               | (key, v) :: rest => (key, deepClone v) :: each rest
               end) fields)
  | VArr items => VArr (List.map deepClone items)
  | _ => target
  end.

(** Modelled from the spec: [deepClone] applied to a document. *)
Definition deepCloneDocument (target : Document) : Document :=
  match deepClone (VObj target) with
  | VObj fields => fields
  | _ => target
  end.

(** ** The storage file *)

(** [String.prototype.trim]: the white space and line terminators of
    ECMAScript are removed from both ends. A string is the list of the
    bytes of its UTF-8 encoding, so a white space character is one, two or
    three bytes: U+0009 to U+000D and U+0020 are one byte; U+00A0 is
    [C2 A0]; U+1680 is [E1 9A 80]; U+2000 to U+200A, U+2028, U+2029 and
    U+202F are [E2 80 80] to [E2 80 8A], [E2 80 A8], [E2 80 A9] and
    [E2 80 AF]; U+205F is [E2 81 9F]; U+3000 is [E3 80 80]; U+FEFF, the
    byte order mark, is [EF BB BF]. *)
Definition isWhiteSpace (c : ascii) : bool :=
  let n := nat_of_ascii c in
  (n =? 32)%nat || ((9 <=? n)%nat && (n <=? 13)%nat).

Definition isWhiteSpace2 (a b : ascii) : bool :=
  (nat_of_ascii a =? 194)%nat && (nat_of_ascii b =? 160)%nat.

Definition isWhiteSpace3 (a b c : ascii) : bool :=
  let x := nat_of_ascii a in
  let y := nat_of_ascii b in
  let z := nat_of_ascii c in
  ((x =? 225)%nat && (y =? 154)%nat && (z =? 128)%nat)
  || ((x =? 226)%nat && (y =? 128)%nat &&
      (((128 <=? z)%nat && (z <=? 138)%nat)
       || (z =? 168)%nat || (z =? 169)%nat || (z =? 175)%nat))
  || ((x =? 226)%nat && (y =? 129)%nat && (z =? 159)%nat)
  || ((x =? 227)%nat && (y =? 128)%nat && (z =? 128)%nat)
  || ((x =? 239)%nat && (y =? 187)%nat && (z =? 191)%nat).

Fixpoint trimStart (s : string) : string :=
  match s with
  | EmptyString => EmptyString
  | String a rest =>
      if isWhiteSpace a then trimStart rest
      else
        match rest with
        | String b rest2 =>
            if isWhiteSpace2 a b then trimStart rest2
            else
              match rest2 with
              | String c rest3 =>
                  if isWhiteSpace3 a b c then trimStart rest3 else s
              | EmptyString => s
              end
        | EmptyString => s
        end
  end.

(** The string consists of white space characters only. *)
Fixpoint whiteSpaceOnly (s : string) : bool :=
  match s with
  | EmptyString => true
  | String a rest =>
      if isWhiteSpace a then whiteSpaceOnly rest
      else
        match rest with
        | String b rest2 =>
            if isWhiteSpace2 a b then whiteSpaceOnly rest2
            else
              match rest2 with
              | String c rest3 => isWhiteSpace3 a b c && whiteSpaceOnly rest3
              | EmptyString => false
              end
        | EmptyString => false
        end
  end.

(** The string is cut where what is left of it is white space only. *)
Fixpoint trimEnd (s : string) : string :=
  match s with
  | EmptyString => EmptyString
  | String c rest =>
      if whiteSpaceOnly s then EmptyString else String c (trimEnd rest)
  end.

Definition trim (s : string) : string := trimEnd (trimStart s).

(** U+00A0, the no-break space, and U+FEFF, the byte order mark. *)
Definition noBreakSpace : string :=
  String (ascii_of_nat 194) (String (ascii_of_nat 160) EmptyString).
Definition byteOrderMark : string :=
  String (ascii_of_nat 239)
    (String (ascii_of_nat 187) (String (ascii_of_nat 191) EmptyString)).

(** The loop of [parseDatabaseStorage] over the parsed array: an element
    that is not an object is an error, an object is normalised and, when
    that leaves it empty, deleted from the array, which leaves a hole. *)
Fixpoint parseElements (documents : list value) : outcome (list (option Document)) :=
  match documents with
  | [] => Return []
  | document :: rest =>
      match document with
      | VObj fields =>
          let prepared := prepareObject fields in
          match parseElements rest with
          | Return slots =>
              Return ((if isObjectEmpty prepared then None else Some prepared)
                      :: slots)
          | Throw e => Throw e
          end
      | _ => Throw (TypeError "Database storage should contain only objects")
      end
  end.

Section storage.

(** [JSON.parse]: the value a text denotes, [None] when the text is not
    JSON, in which case [JSON.parse] throws a [SyntaxError]. *)
Variable JSON_parse : string → option value.

(** [parseDatabaseStorage] of [core.ts]. *)
Definition parseDatabaseStorage (content : string) : outcome (list Document) :=
  let trimmed := trim content in
  if String.eqb trimmed "" then Return []
  else
    match JSON_parse trimmed with
    | None => Throw SyntaxError
    | Some (VArr items) =>
        match parseElements items with
        | Return slots => Return (cleanArray slots)
        | Throw e => Throw e
        end
    | Some _ =>
        Throw (TypeError "Database storage should be an array of objects")
    end.

(** The content is the text of a JSON array all of whose elements are
    objects. *)
Definition arrayOfObjects (text : string) : Prop :=
  ∃ items, JSON_parse text = Some (VArr items) ∧
           Forall (λ item, isObject item = true) items.

End storage.

(** ** The verdict of a query on one document *)

(** Whether a document, taken alone, satisfies a query: every document for
    an absent query, every field for a field map, the predicate's verdict
    for a predicate. This is a specification, against which the loops of
    [searchDocuments] are compared. *)
Definition selects (query : Query) (document : Document) : bool :=
  match query with
  | QueryUndefined => true
  | QueryFields fields =>
      forallb (λ field : string * QueryValue,
                 matchValues field.2 (getField document field.1)) fields
  | QueryFunction f => truthy (f document)
  end.

Definition selected (query : Query) (documents : list Document) (position : nat)
    : bool :=
  match documents !! position with
  | Some document => selects query document
  | None => false
  end.

(** The query values that are compared by strict equality. *)
Definition isLiteral (q : value) : bool :=
  isString q || isNumber q || isBoolean q || isNull q.

(** A query value that can only match a value that is there: anything but
    [undefined] and a function. *)
Definition expectsValue (queryValue : QueryValue) : bool :=
  match queryValue with
  | QValue q => negb (isUndefined q)
  | QRegExp _ => true
  | QFunction _ => false
  end.

(** ** Induction over nested values *)

Section value_induction.
Variable P : value → Prop.
Hypothesis Pundef : P VUndefined.
Hypothesis Pnull : P VNull.
Hypothesis Pbool : ∀ b, P (VBool b).
Hypothesis Pnum : ∀ n, P (VNum n).
Hypothesis Pstr : ∀ s, P (VStr s).
Hypothesis Parr : ∀ items, Forall P items → P (VArr items).
Hypothesis Pobj : ∀ fields, Forall (λ kv, P kv.2) fields → P (VObj fields).
Hypothesis Pinherited : ∀ name, P (VInherited name).

Fixpoint value_nested_ind (v : value) : P v :=
  match v with
  | VUndefined => Pundef
  | VNull => Pnull
  | VBool b => Pbool b
  | VNum n => Pnum n
  | VStr s => Pstr s
  | VArr items =>
      Parr items
        ((fix go (l : list value) : Forall P l :=
            match l with
            | [] => Forall_nil_2 P
            | x :: l' => Forall_cons_2 P x l' (value_nested_ind x) (go l')
            end) items)
  | VObj fields =>
      Pobj fields
        ((fix go (l : list (string * value)) : Forall (λ kv, P kv.2) l :=
            match l with
            | [] => Forall_nil_2 _
            | kv :: l' =>
                Forall_cons_2 (λ kv, P kv.2) kv l' (value_nested_ind kv.2) (go l')
            end) fields)
  | VInherited name => Pinherited name
  end.
End value_induction.

(** ** Updates of tree values *)

(** [object[key] = v] and [delete object[key]] on the fields of an object:
    an existing field keeps its place, a new one comes last. *)
Fixpoint setField (fields : list (string * value)) (key : string) (v : value)
    : list (string * value) :=
  match fields with
  | [] => [(key, v)]
  | (k, x) :: rest =>
      if String.eqb k key then (k, v) :: rest
      else (k, x) :: setField rest key v
  end.

Definition deleteField (fields : list (string * value)) (key : string)
    : list (string * value) :=
  List.filter (λ kv, negb (String.eqb kv.1 key)) fields.



(** [UpdateValue] and [Update | UpdateFunction] of [types.ts], with the
    functions of the caller as functions from the value they receive to
    the value they return. *)
Inductive UpdateValue : Type :=
  | UValue (v : value)
  | UFunction (f : value → value).

Inductive Update : Type :=
  | UpdateFields (fields : list (string * UpdateValue))
  | UpdateFunction (f : Document → value).

(** The value a field is given by an update: the update's value, or what
    its function returns for the current value of the field. *)
Definition replacement (document : Document) (key : string) (given : UpdateValue)
    : value :=
  match given with
  | UFunction f => f (getField document key)
  | UValue v => v
  end.

(** The loop [for (const key in update)] of [updateDocument]. *)
Fixpoint applyFields (fields : list (string * UpdateValue)) (newDocument : Document)
    : Document :=
  match fields with
  | [] => newDocument
  | (key, given) :: rest =>
      let result := replacement newDocument key given in
      applyFields rest
        (if isUndefined result then deleteField newDocument key
         else setField newDocument key result)
  end.

(** The last three statements of [updateDocument]; [None] is [null]. *)
Definition normaliseAndCopy (newDocument : Document) : option Document :=
  let prepared := prepareObject newDocument in
  if isObjectEmpty prepared then None
  else Some (deepCloneDocument prepared).

(** [updateDocument] of [core.ts] on tree values: what it returns, the
    identity of objects left aside. *)
Definition updateDocument (document : Document) (update : Update)
    : outcome (option Document) :=
  let newDocument := deepCloneDocument document in
  match update with
  | UpdateFunction f =>
      let newDocument := f newDocument in
      if negb (truthy newDocument) then Return None
      else
        match newDocument with
        | VObj fields => Return (normaliseAndCopy fields)
        | _ => Throw (TypeError "Document must be an object")
        end
  | UpdateFields fields =>
      Return (normaliseAndCopy (applyFields fields newDocument))
  end.

(** A document as the collection stores it: not empty, and normalised (no
    field holds [undefined], at any depth). *)
Definition normalised (document : Document) : Prop :=
  prepareObject document = document.

Definition stored (document : Document) : Prop :=
  document ≠ [] ∧ normalised document.


(** ** Properties of search *)

(** The cases of [matchValues] on small inputs: literal, regular
    expression, predicate, nested object, [undefined]. *)
Example matchValues_cases :
  matchValues (QValue (VNum 1)) (VNum 1) = true ∧
  matchValues (QValue (VNum 1)) (VStr "1") = false ∧
  matchValues (QValue VNull) VUndefined = false ∧
  matchValues (QRegExp (String.prefix "ab")) (VStr "abc") = true ∧
  matchValues (QRegExp (λ _, true)) (VNum 1) = false ∧
  matchValues (QFunction (λ v, VStr "")) (VNum 1) = false ∧
  matchValues (QFunction (λ v, VArr [])) (VNum 1) = true ∧
  matchValues (QValue (VObj [("x", VArr [VNum 1])]))
    (VObj [("x", VArr [VNum 1])]) = true ∧
  matchValues (QValue (VObj [("x", VArr [VNum 1])]))
    (VObj [("x", VArr [VNum 1]); ("y", VNull)]) = false ∧
  matchValues (QValue VUndefined) VUndefined = true ∧
  matchValues (QValue VUndefined) VNull = false.
Proof. repeat split; reflexivity. Qed.

Lemma cleanArray_Some {A} (l : list A) : cleanArray (Some <$> l) = l.
Proof. induction l as [|x l IH]; cbn; [done | by rewrite IH]. Qed.

Lemma firstSearch_from key queryValue (front documents : list Document) :
  (firstSearch key queryValue documents (length front)).1 =
  List.filter (λ p, matchesAt (front ++ documents) p (key, queryValue))
    (seq (length front) (length documents)).
Proof.
  revert front. induction documents as [|d ds IH]; intros front; [done |].
  cbn [firstSearch length seq List.filter].
  specialize (IH (front ++ [d])).
  rewrite length_app, Nat.add_1_r, <- app_assoc in IH. cbn [app] in IH.
  destruct (firstSearch key queryValue ds (S (length front))) as [found calls].
  cbn [fst] in *. unfold matchesAt at 1.
  rewrite lookup_app_r, Nat.sub_diag by lia. cbn [lookup list_lookup fst snd].
  destruct (matchValues queryValue (getField d key)); by rewrite IH.
Qed.

Lemma firstSearch_filter key queryValue (documents : list Document) :
  (firstSearch key queryValue documents 0).1 =
  List.filter (λ p, matchesAt documents p (key, queryValue))
    (seq 0 (length documents)).
Proof. exact (firstSearch_from key queryValue [] documents). Qed.

Lemma firstSearch_calls key queryValue (documents : list Document) i :
  (firstSearch key queryValue documents i).2 =
  (λ p, (key, p)) <$> seq i (length documents).
Proof.
  revert i. induction documents as [|d ds IH]; intros i; [done |].
  cbn [firstSearch length seq fmap list_fmap]. specialize (IH (S i)).
  destruct (firstSearch key queryValue ds (S i)) as [found calls].
  cbn [snd] in *. by rewrite IH.
Qed.

(** Every position found by the first loop designates a document. *)
Lemma firstSearch_bound key queryValue (documents : list Document) position :
  In position (firstSearch key queryValue documents 0).1 →
  is_Some (documents !! position).
Proof.
  rewrite firstSearch_filter, filter_In, in_seq. intros [[_ Hlt] _].
  apply lookup_lt_is_Some. lia.
Qed.

Lemma nextSearch_filter key queryValue (documents : list Document) found :
  cleanArray (nextSearch key queryValue documents found).1 =
  List.filter (λ p, matchesAt documents p (key, queryValue)) (cleanArray found).
Proof.
  induction found as [|[position|] rest IH]; [done | |];
    cbn [nextSearch cleanArray List.filter];
    destruct (nextSearch key queryValue documents rest) as [found' calls];
    cbn [fst] in *; [| done].
  unfold matchesAt at 1. cbn [fst snd].
  destruct (documents !! position) as [document|]; [| done].
  destruct (matchValues queryValue (getField document key)); cbn [cleanArray];
    by rewrite IH.
Qed.

Lemma laterFields_filter fields (documents : list Document) found :
  cleanArray (laterFields fields documents found).1 =
  List.filter (λ p, forallb (matchesAt documents p) fields) (cleanArray found).
Proof.
  revert found. induction fields as [|[key queryValue] rest IH]; intros found.
  - cbn. induction (cleanArray found) as [|x l IHl]; cbn; [done | by f_equal].
  - cbn [laterFields forallb].
    pose proof (nextSearch_filter key queryValue documents found) as Hn.
    destruct (nextSearch key queryValue documents found) as [found1 calls1].
    specialize (IH found1).
    destruct (laterFields rest documents found1) as [found2 calls2].
    cbn [fst] in *. rewrite IH, Hn. clear.
    induction (cleanArray found) as [|x l IHl]; [done |]. cbn [List.filter].
    destruct (matchesAt documents x (key, queryValue)); cbn [List.filter andb];
      [| done].
    destruct (forallb (matchesAt documents x) rest); by rewrite IHl.
Qed.

(** A field-map query with at least one field selects the positions whose
    document satisfies every field. *)
Lemma searchDocuments_fields field rest (documents : list Document) :
  searchDocuments (QueryFields (field :: rest)) documents =
  List.filter (λ p, forallb (matchesAt documents p) (field :: rest))
    (seq 0 (length documents)).
Proof.
  unfold searchDocuments. destruct field as [key queryValue].
  cbn [searchDocumentsLog forallb].
  pose proof (firstSearch_filter key queryValue documents) as Hf.
  destruct (firstSearch key queryValue documents 0) as [found calls].
  cbn [fst] in Hf.
  assert (Hsplit : ∀ l : list nat,
    List.filter (λ p, matchesAt documents p (key, queryValue) &&
                      forallb (matchesAt documents p) rest) l =
    List.filter (λ p, forallb (matchesAt documents p) rest)
      (List.filter (λ p, matchesAt documents p (key, queryValue)) l)).
  { induction l as [|x l IHl]; [done |]. cbn [List.filter].
    destruct (matchesAt documents x (key, queryValue)); cbn [List.filter andb];
      [| done].
    destruct (forallb (matchesAt documents x) rest); by rewrite IHl. }
  rewrite Hsplit, <- Hf.
  destruct (Nat.eqb_spec (length found) 0) as [Hz | Hnz].
  - destruct found; [done | discriminate].
  - pose proof (laterFields_filter rest documents (Some <$> found)) as Hl.
    destruct (laterFields rest documents (Some <$> found)) as [found' calls'].
    cbn [fst] in *. by rewrite Hl, cleanArray_Some.
Qed.

Lemma searchDocuments_empty (documents : list Document) :
  searchDocuments QueryUndefined documents = seq 0 (length documents) ∧
  searchDocuments (QueryFields []) documents = seq 0 (length documents).
Proof.
  unfold searchDocuments; cbn [searchDocumentsLog fst]; unfold numbersList.
  split; f_equal; lia.
Qed.

Lemma predicateSearch_filter f (front documents : list Document) :
  predicateSearch f documents (length front) =
  List.filter
    (λ p, match (front ++ documents) !! p with
          | Some d => truthy (f d)
          | None => false
          end)
    (seq (length front) (length documents)).
Proof.
  revert front. induction documents as [|d ds IH]; intros front; [done |].
  cbn [predicateSearch length seq List.filter].
  specialize (IH (front ++ [d])).
  rewrite length_app, Nat.add_1_r, <- app_assoc in IH. cbn [app] in IH.
  rewrite lookup_app_r, Nat.sub_diag by lia. cbn [lookup list_lookup].
  destruct (truthy (f d)); by rewrite IH.
Qed.

(** Whatever the query, the result is a sub-list of the positions
    [0 .. n-1], in their order. *)
Lemma searchDocuments_sublist query (documents : list Document) :
  ∃ keep, searchDocuments query documents =
          List.filter keep (seq 0 (length documents)).
Proof.
  destruct query as [| [|field rest] | f].
  - exists (λ _, true). rewrite (proj1 (searchDocuments_empty documents)).
    induction (seq 0 (length documents)) as [|x l IHl]; cbn; [done | by f_equal].
  - exists (λ _, true). rewrite (proj2 (searchDocuments_empty documents)).
    induction (seq 0 (length documents)) as [|x l IHl]; cbn; [done | by f_equal].
  - eexists. apply searchDocuments_fields.
  - eexists. exact (predicateSearch_filter f [] documents).
Qed.

Lemma filter_seq_sorted keep i n :
  StronglySorted lt (List.filter keep (seq i n)).
Proof.
  revert i. induction n as [|n IH]; intros i; cbn; [constructor |].
  destruct (keep i); [| apply IH].
  constructor; [apply IH |].
  apply List.Forall_forall. intros x. rewrite filter_In, in_seq. lia.
Qed.

(** Once no candidate is left, a later field changes nothing and compares
    nothing: every slot of [found] is a hole and is skipped. *)
Lemma nextSearch_no_candidate key queryValue (documents : list Document) found :
  cleanArray found = [] →
  nextSearch key queryValue documents found = (found, []).
Proof.
  induction found as [|[position|] rest IH]; [done | done |].
  cbn [cleanArray nextSearch]. intros H. by rewrite (IH H).
Qed.

Lemma laterFields_no_candidate fields (documents : list Document) found :
  cleanArray found = [] →
  laterFields fields documents found = (found, []).
Proof.
  induction fields as [|[key queryValue] rest IH]; [done |].
  intros H. cbn [laterFields].
  by rewrite (nextSearch_no_candidate _ _ _ _ H), (IH H).
Qed.

Lemma laterFields_app pre post (documents : list Document) found :
  laterFields (pre ++ post) documents found =
  let '(found1, calls1) := laterFields pre documents found in
  let '(found2, calls2) := laterFields post documents found1 in
  (found2, calls1 ++ calls2).
Proof.
  revert found. induction pre as [|[key queryValue] pre IH]; intros found.
  - cbn. by destruct (laterFields post documents found).
  - cbn [app laterFields].
    destruct (nextSearch key queryValue documents found) as [found1 calls1].
    rewrite IH.
    destruct (laterFields pre documents found1) as [found2 calls2].
    destruct (laterFields post documents found2) as [found3 calls3].
    by rewrite app_assoc.
Qed.

Lemma getField_absent (document : Document) key :
  hasField document key = false → getField document key = missing key.
Proof.
  induction document as [|[k v] rest IH]; [done |]. cbn.
  destruct (String.eqb k key); [done | exact IH].
Qed.

Lemma forallb_Permutation {A} (f : A → bool) (l l' : list A) :
  Permutation l l' → forallb f l = forallb f l'.
Proof.
  induction 1 as [| x l l' _ IH | x y l | l l' l'' _ IH1 _ IH2]; cbn.
  - done.
  - by rewrite IH.
  - by destruct (f x), (f y).
  - by rewrite IH1.
Qed.

Lemma filter_ext_seq (f g : nat → bool) l :
  (∀ x, f x = g x) → List.filter f l = List.filter g l.
Proof.
  intros Hfg. induction l as [|x l IH]; [done |]. cbn. by rewrite Hfg, IH.
Qed.

(** C1. For every array of documents and every query that is [undefined]
    or has no fields, [searchDocuments] returns exactly the positions
    [0; 1; ...; n-1], in ascending order. *)
Theorem search_empty_query_all_positions (documents : list Document) :
  searchDocuments QueryUndefined documents = seq 0 (length documents) ∧
  searchDocuments (QueryFields []) documents = seq 0 (length documents).
Proof. exact (searchDocuments_empty documents). Qed.

(** C2. For every collection and every field-map query with at least one
    field, a position is returned exactly when each single-field query made
    of one of its fields returns it (the result is the intersection of the
    single-field results), and a query map with the same fields in any other
    order returns the same list. *)
Theorem search_multi_field_conjunction
    (field : string * QueryValue) (rest : list (string * QueryValue))
    (documents : list Document) :
  (∀ position,
     In position (searchDocuments (QueryFields (field :: rest)) documents) ↔
     ∀ single, In single (field :: rest) →
       In position (searchDocuments (QueryFields [single]) documents)) ∧
  (∀ reordered,
     Permutation (field :: rest) reordered →
     searchDocuments (QueryFields reordered) documents =
     searchDocuments (QueryFields (field :: rest)) documents).
Proof.
  split.
  - intros position. rewrite searchDocuments_fields, filter_In, forallb_forall.
    split.
    + intros [Hseq Hall] single Hin.
      rewrite searchDocuments_fields, filter_In. split; [done |].
      cbn [forallb]. by rewrite (Hall single Hin).
    + intros Hall. split.
      * specialize (Hall field (or_introl eq_refl)).
        rewrite searchDocuments_fields, filter_In in Hall. tauto.
      * intros single Hin. specialize (Hall single Hin).
        rewrite searchDocuments_fields, filter_In in Hall.
        cbn [forallb] in Hall. destruct Hall as [_ Hall].
        by rewrite andb_true_r in Hall.
  - intros reordered Hperm.
    destruct reordered as [|field' rest'].
    { apply Permutation_sym, Permutation_nil in Hperm. discriminate. }
    rewrite !searchDocuments_fields. apply filter_ext_seq. intros position.
    symmetry. by apply forallb_Permutation.
Qed.

Lemma search_multi_field_conjunction_witness :
  let a1 := ("a", QValue (VNum 1)) in
  let b2 := ("b", QValue (VStr "x")) in
  let documents :=
    [ [("a", VNum 1); ("b", VStr "x")]; [("a", VNum 1)];
      [("b", VStr "x"); ("a", VNum 1)] ] in
  searchDocuments (QueryFields [b2; a1]) documents = [0; 2]%nat ∧
  searchDocuments (QueryFields [b2; a1]) documents =
  searchDocuments (QueryFields [a1; b2]) documents.
Proof.
  intros a1 b2 documents. split; [reflexivity |].
  apply (proj2 (search_multi_field_conjunction a1 [b2] documents)).
  apply perm_swap.
Defined.

(** C6 (as amended). An [undefined] query value matches a document value
    exactly when that value is [undefined]; and in a search, a document
    that has no field of the queried name is compared as the value
    [undefined], unless the name is one every object inherits a function
    under ([constructor], [toString], ...), in which case it is compared
    as that function: the position of a document is returned exactly when
    every query value matches the document's field, or, where the
    document lacks the field, the inherited function or [undefined]. *)
Theorem absent_marker_matching :
  (∀ documentValue,
     matchValues (QValue VUndefined) documentValue = true ↔
     documentValue = VUndefined) ∧
  (∀ field rest (documents : list Document) position document,
     documents !! position = Some document →
     (In position (searchDocuments (QueryFields (field :: rest)) documents) ↔
      ∀ key queryValue, In (key, queryValue) (field :: rest) →
        matchValues queryValue
          (if hasField document key then getField document key
           else if isInherited key then VInherited key
           else VUndefined) = true)).
Proof.
  split.
  - intros documentValue. cbn. by destruct documentValue.
  - intros field rest documents position document Hdoc.
    rewrite searchDocuments_fields, filter_In, in_seq, forallb_forall.
    assert (Hlt : (position < length documents)%nat)
      by (apply lookup_lt_is_Some; eauto).
    assert (Hat : ∀ key queryValue,
      matchesAt documents position (key, queryValue) =
      matchValues queryValue
        (if hasField document key then getField document key
         else if isInherited key then VInherited key else VUndefined)).
    { intros key queryValue. unfold matchesAt. rewrite Hdoc. cbn [fst snd].
      destruct (hasField document key) eqn:Hhas; [done |].
      by rewrite getField_absent. }
    split.
    + intros [_ Hall] key queryValue Hin. rewrite <- Hat. by apply Hall.
    + intros Hall. split; [lia |]. intros [key queryValue] Hin.
      rewrite Hat. by apply Hall.
Qed.

Lemma absent_marker_matching_witness :
  In 1%nat
    (searchDocuments (QueryFields [("b", QValue VUndefined)])
       [ [("a", VNum 1); ("b", VNum 2)]; [("a", VNum 3)] ]).
Proof.
  apply (proj2 absent_marker_matching ("b", QValue VUndefined) []
           [ [("a", VNum 1); ("b", VNum 2)]; [("a", VNum 3)] ]
           1%nat [("a", VNum 3)] eq_refl).
  intros key queryValue [Heq | []]. by inversion Heq.
Defined.

(** C6 as stated does not hold: the document [{a: 1}] has no field
    [constructor], and an [undefined] query value matches [undefined], yet
    the search for [{constructor: undefined}] does not return the
    document: what is compared is the function the document inherits under
    that name. *)
Lemma inherited_name_is_not_absent :
  let document : Document := [("a", VNum 1)] in
  hasField document "constructor" = false ∧
  matchValues (QValue VUndefined) VUndefined = true ∧
  searchDocuments (QueryFields [("constructor", QValue VUndefined)])
    [document] = [].
Proof. by vm_compute. Qed.

(** C7. When the fields of a query up to some point leave no candidate,
    the search with any further fields returns the empty list and makes no
    comparison beyond those already made; and whatever the query, the
    result lists positions of the collection in strictly ascending order,
    hence without duplicate, hole or position outside the collection. *)
Theorem search_early_exit_and_compact
    (field : string * QueryValue) (tried further : list (string * QueryValue))
    (query : Query) (documents : list Document) :
  (searchDocuments (QueryFields (field :: tried)) documents = [] →
   searchDocumentsLog (QueryFields (field :: tried ++ further)) documents =
   ([], (searchDocumentsLog (QueryFields (field :: tried)) documents).2)) ∧
  (StronglySorted lt (searchDocuments query documents) ∧
   NoDup (searchDocuments query documents) ∧
   ∀ position, In position (searchDocuments query documents) →
     is_Some (documents !! position)).
Proof.
  split.
  - unfold searchDocuments. destruct field as [key queryValue].
    cbn [searchDocumentsLog app].
    destruct (firstSearch key queryValue documents 0) as [found calls].
    destruct (Nat.eqb_spec (length found) 0) as [Hz | Hnz]; [done |].
    rewrite laterFields_app.
    destruct (laterFields tried documents (Some <$> found)) as [found1 calls1]
      eqn:Htried.
    cbn [fst snd]. intros Hempty.
    rewrite (laterFields_no_candidate further documents found1 Hempty).
    by rewrite Hempty, app_nil_r.
  - destruct (searchDocuments_sublist query documents) as [keep ->].
    pose proof (filter_seq_sorted keep 0 (length documents)) as Hsorted.
    split; [done |]. split.
    + apply NoDup_ListNoDup, List.NoDup_filter, List.seq_NoDup.
    + intros position. rewrite filter_In, in_seq. intros [[_ Hlt] _].
      apply lookup_lt_is_Some. lia.
Qed.

Lemma search_early_exit_and_compact_witness :
  let documents := [ [("a", VNum 1)]; [("a", VNum 2); ("b", VNull)] ] in
  searchDocumentsLog
    (QueryFields [("a", QValue (VNum 2)); ("b", QValue (VNum 0));
                  ("c", QFunction (λ v, v))]) documents =
  ([], [("a", 0%nat); ("a", 1%nat); ("b", 1%nat)]).
Proof.
  intros documents.
  exact (proj1 (search_early_exit_and_compact
                  ("a", QValue (VNum 2)) [("b", QValue (VNum 0))]
                  [("c", QFunction (λ v, v))] QueryUndefined documents)
           eq_refl).
Defined.

(** ** Properties of the storage parser *)

Lemma trimStart_whiteSpaceOnly s : whiteSpaceOnly s = true → trimStart s = "".
Proof.
  remember (String.length s) as n eqn:Hn. revert s Hn.
  induction n as [n IH] using lt_wf_ind. intros s Hn.
  destruct s as [|a rest]; [done |]. cbn [whiteSpaceOnly trimStart].
  destruct (isWhiteSpace a).
  { apply (IH (String.length rest)); [subst n; cbn; lia | done]. }
  destruct rest as [|b rest2]; [done |].
  destruct (isWhiteSpace2 a b).
  { apply (IH (String.length rest2)); [subst n; cbn; lia | done]. }
  destruct rest2 as [|c rest3]; [done |].
  destruct (isWhiteSpace3 a b c); [| done]. cbn [andb].
  apply (IH (String.length rest3)); [subst n; cbn; lia | done].
Qed.

Lemma parseElements_throws items :
  throws (parseElements items) ↔ ¬ Forall (λ item, isObject item = true) items.
Proof.
  induction items as [|item rest IH]; cbn [parseElements].
  - split; [done |]. intros H. by destruct H.
  - rewrite Forall_cons. destruct item; cbn [isObject throws];
      try (split; [intros _ [? _]; done | done]).
    destruct (parseElements rest); cbn [throws] in *; tauto.
Qed.

(** Parsing fails exactly on a text that is not empty once trimmed and is
    not a JSON array of objects. *)
Lemma parseDatabaseStorage_throws JSON_parse content :
  throws (parseDatabaseStorage JSON_parse content) ↔
  trim content ≠ "" ∧ ¬ arrayOfObjects JSON_parse (trim content).
Proof.
  unfold parseDatabaseStorage, arrayOfObjects.
  destruct (String.eqb_spec (trim content) "") as [Hempty | Hfull].
  { cbn. split; [done | by intros [? _]]. }
  destruct (JSON_parse (trim content)) as [documents|].
  - destruct documents as [| | | | | items | |];
      try (cbn; split; [intros _; split; [done |]; by intros (? & ? & _) | done]).
    pose proof (parseElements_throws items) as Hitems.
    destruct (parseElements items); cbn [throws] in *.
    + split; [done |]. intros [_ Hnot]. apply Hitems. intros Hall.
      apply Hnot. eauto.
    + split; [| done]. intros _. split; [done |].
      intros (items' & [= <-] & Hall). by apply Hitems.
  - cbn. split; [| done]. intros _. split; [done |]. by intros (? & ? & _).
Qed.

Lemma parseDatabaseStorage_whiteSpace JSON_parse content :
  whiteSpaceOnly content = true →
  parseDatabaseStorage JSON_parse content = Return [].
Proof.
  intros Hws. unfold parseDatabaseStorage, trim.
  by rewrite (trimStart_whiteSpaceOnly _ Hws).
Qed.

(** ** Search as a filter *)

Lemma filter_all {A} (keep : A → bool) (l : list A) :
  (∀ x, In x l → keep x = true) → List.filter keep l = l.
Proof.
  induction l as [|x l IH]; [done |]. intros Hall. cbn.
  rewrite (Hall x (or_introl eq_refl)). f_equal. apply IH.
  intros y Hy. apply Hall. by right.
Qed.

Lemma filter_ext_in {A} (f g : A → bool) (l : list A) :
  (∀ x, In x l → f x = g x) → List.filter f l = List.filter g l.
Proof.
  induction l as [|x l IH]; [done |]. intros Hfg. cbn.
  rewrite (Hfg x (or_introl eq_refl)), IH; [done |].
  intros y Hy. apply Hfg. by right.
Qed.

Lemma selected_in_range query (documents : list Document) position :
  (position < length documents)%nat →
  ∃ document, documents !! position = Some document ∧
              selected query documents position = selects query document.
Proof.
  intros Hlt. destruct (lookup_lt_is_Some_2 documents position Hlt) as [d Hd].
  exists d. split; [done |]. unfold selected. by rewrite Hd.
Qed.

Lemma searchDocuments_filter query (documents : list Document) :
  searchDocuments query documents =
  List.filter (selected query documents) (seq 0 (length documents)).
Proof.
  destruct query as [| [|field rest] | f].
  - rewrite (proj1 (searchDocuments_empty documents)). symmetry.
    apply filter_all. intros p [_ Hlt]%in_seq.
    by destruct (selected_in_range QueryUndefined documents p Hlt) as (d & _ & ->).
  - rewrite (proj2 (searchDocuments_empty documents)). symmetry.
    apply filter_all. intros p [_ Hlt]%in_seq.
    by destruct (selected_in_range (QueryFields []) documents p Hlt)
      as (d & _ & ->).
  - rewrite searchDocuments_fields. apply filter_ext_in.
    intros p [_ Hlt]%in_seq. unfold selected, matchesAt.
    destruct (lookup_lt_is_Some_2 documents p Hlt) as [d ->]. done.
  - unfold searchDocuments. cbn [searchDocumentsLog fst].
    exact (predicateSearch_filter f [] documents).
Qed.

Lemma searchDocuments_selects query (documents : list Document) position :
  In position (searchDocuments query documents) ↔
  ∃ document, documents !! position = Some document ∧
              selects query document = true.
Proof.
  rewrite searchDocuments_filter, filter_In, in_seq. unfold selected. split.
  - intros [_ Hsel]. destruct (documents !! position) as [d|]; [eauto | done].
  - intros (d & Hd & Hsel). rewrite Hd. split; [| done].
    split; [lia |]. apply lookup_lt_is_Some. eauto.
Qed.

(** X1. Whatever the kind of query, [searchDocuments] returns, in ascending
    order, exactly the positions of the documents that satisfy the query
    when taken alone: the verdict on a document does not depend on the
    other documents or on its position. *)
Theorem search_selects_per_document (query : Query) (documents : list Document) :
  searchDocuments query documents =
    List.filter (selected query documents) (seq 0 (length documents)) ∧
  ∀ position,
    In position (searchDocuments query documents) ↔
    ∃ document, documents !! position = Some document ∧
                selects query document = true.
Proof.
  split; [apply searchDocuments_filter | apply searchDocuments_selects].
Qed.

Lemma filter_seq_shift (keep : nat → bool) k i n :
  List.filter keep (seq (k + i) n) =
  (λ p, k + p)%nat <$> List.filter (λ p, keep (k + p)%nat) (seq i n).
Proof.
  revert i. induction n as [|n IH]; intros i; [done |]. cbn [seq List.filter].
  replace (S (k + i)) with (k + S i)%nat by lia. rewrite IH.
  by destruct (keep (k + i)%nat).
Qed.

Lemma searchDocuments_cons query (document : Document) (rest : list Document) :
  searchDocuments query (document :: rest) =
  (if selects query document then [0%nat] else []) ++
  (S <$> searchDocuments query rest).
Proof.
  rewrite !searchDocuments_filter. cbn [length seq List.filter].
  change (selected query (document :: rest) 0) with (selects query document).
  rewrite (filter_seq_shift (selected query (document :: rest)) 1 0).
  by destruct (selects query document).
Qed.

Lemma searchDocuments_in_range query (documents : list Document) position :
  In position (searchDocuments query documents) →
  (position < length documents)%nat.
Proof.
  intros (d & Hd & _)%searchDocuments_selects.
  apply lookup_lt_is_Some. eauto.
Qed.

(** X2. Searching a collection made of two parts gives the positions found
    in the first part followed by those found in the second, shifted by the
    length of the first. *)
Theorem search_of_concatenation (query : Query) (front back : list Document) :
  searchDocuments query (front ++ back) =
  searchDocuments query front ++
  ((λ p, length front + p)%nat <$> searchDocuments query back).
Proof.
  rewrite !searchDocuments_filter, length_app, seq_app, List.filter_app.
  f_equal.
  - apply filter_ext_in. intros p [_ Hlt]%in_seq. unfold selected.
    by rewrite lookup_app_l by lia.
  - replace (0 + length front)%nat with (length front + 0)%nat by lia.
    rewrite filter_seq_shift. f_equal. apply filter_ext_in.
    intros p _. unfold selected.
    rewrite lookup_app_r by lia.
    by replace (length front + p - length front)%nat with p by lia.
Qed.

Lemma nextSearch_calls key queryValue (documents : list Document) found :
  (nextSearch key queryValue documents found).2 =
  (λ p, (key, p)) <$> cleanArray found.
Proof.
  induction found as [|[position|] rest IH]; [done | |];
    cbn [nextSearch cleanArray];
    destruct (nextSearch key queryValue documents rest) as [found' calls];
    cbn [snd] in *; by rewrite IH.
Qed.

(** X3. The first field of a query is compared against every document, in
    order; each later field is compared against exactly the documents that
    passed all the fields before it, in order, and against no other. *)
Theorem search_compares_survivors_only
    (field : string * QueryValue) (tried : list (string * QueryValue))
    (next : string * QueryValue) (documents : list Document) :
  (searchDocumentsLog (QueryFields [field]) documents).2 =
    (λ p, (field.1, p)) <$> seq 0 (length documents) ∧
  (searchDocumentsLog (QueryFields (field :: tried ++ [next])) documents).2 =
    (searchDocumentsLog (QueryFields (field :: tried)) documents).2 ++
    ((λ p, (next.1, p)) <$>
       searchDocuments (QueryFields (field :: tried)) documents).
Proof.
  unfold searchDocuments. destruct field as [key queryValue].
  cbn [searchDocumentsLog fst snd].
  pose proof (firstSearch_calls key queryValue documents 0) as Hfirst.
  destruct (firstSearch key queryValue documents 0) as [found calls].
  cbn [snd] in Hfirst. split.
  - destruct (length found =? 0)%nat; [done |]. cbn. by rewrite app_nil_r.
  - destruct (length found =? 0)%nat; [cbn; by rewrite app_nil_r |].
    rewrite laterFields_app.
    destruct (laterFields tried documents (Some <$> found)) as [found1 calls1].
    destruct next as [key' queryValue']. cbn [laterFields].
    pose proof (nextSearch_calls key' queryValue' documents found1) as Hnext.
    destruct (nextSearch key' queryValue' documents found1) as [found2 calls2].
    cbn [fst snd] in *. by rewrite Hnext, app_nil_r, app_assoc.
Qed.

Lemma strictEquals_literal q documentValue :
  isLiteral q = true →
  strictEquals q documentValue = true ↔ documentValue = q.
Proof.
  destruct q, documentValue; cbn; try done;
    try (split; [done | intros [=]]).
  - intros _. rewrite Bool.eqb_true_iff. split; [by intros -> | by intros [= ->]].
  - intros _. rewrite Z.eqb_eq. split; [by intros -> | by intros [= ->]].
  - intros _. rewrite String.eqb_eq. split; [by intros -> | by intros [= ->]].
Qed.

(** X4. A literal query value (string, number, boolean or [null]) matches a
    document value exactly when the two are the same value of the same
    type: there is no coercion, and no literal matches a missing field. *)
Theorem literal_matches_by_identity (q documentValue : value) :
  isLiteral q = true →
  (matchValues (QValue q) documentValue = true ↔ documentValue = q) ∧
  matchValues (QValue q) VUndefined = false.
Proof.
  intros Hlit. unfold matchValues. unfold isLiteral in Hlit. rewrite Hlit.
  split; [by apply strictEquals_literal |].
  destruct (strictEquals q VUndefined) eqn:E; [| done].
  apply (strictEquals_literal q VUndefined Hlit) in E. subst q. done.
Qed.

Lemma literal_matches_by_identity_witness :
  matchValues (QValue (VNum 1)) (VNum 1) = true ∧
  matchValues (QValue (VNum 1)) VUndefined = false.
Proof.
  destruct (literal_matches_by_identity (VNum 1) (VNum 1) eq_refl) as [Hiff Hno].
  split; [by apply Hiff | exact Hno].
Defined.

(** X5. A field query whose value is not [undefined] and not a function (a
    literal, a regular expression, an array or an object) never returns a
    document that lacks the field. *)
Theorem missing_field_never_matches
    (key : string) (queryValue : QueryValue)
    (before after : list (string * QueryValue))
    (documents : list Document) (position : nat) (document : Document) :
  expectsValue queryValue = true →
  documents !! position = Some document →
  hasField document key = false →
  ¬ In position
      (searchDocuments (QueryFields (before ++ (key, queryValue) :: after))
         documents).
Proof.
  intros Hkind Hdoc Hmissing Hin.
  apply searchDocuments_selects in Hin as (d & Hd & Hsel).
  assert (d = document) as -> by congruence.
  cbn [selects] in Hsel. rewrite forallb_forall in Hsel.
  specialize (Hsel (key, queryValue)). cbn [fst snd] in Hsel.
  rewrite (getField_absent _ _ Hmissing) in Hsel.
  assert (Hno : matchValues queryValue (missing key) = false).
  { unfold missing.
    destruct queryValue as [q | f | test]; [| done | by destruct (isInherited key)].
    destruct q; try done; by destruct (isInherited key). }
  rewrite Hno in Hsel. discriminate Hsel.
  apply in_or_app. right. by left.
Qed.

Lemma missing_field_never_matches_witness :
  ¬ In 1%nat
      (searchDocuments (QueryFields [("b", QValue VNull)])
         [ [("a", VNum 1); ("b", VNull)]; [("a", VNum 3)] ]).
Proof.
  apply (missing_field_never_matches "b" (QValue VNull) [] []
           [ [("a", VNum 1); ("b", VNull)]; [("a", VNum 3)] ]
           1%nat [("a", VNum 3)]); reflexivity.
Defined.

(** ** Normalised documents *)

Lemma prepareValue_object fields :
  prepareValue (VObj fields) = VObj (prepareObject fields).
Proof.
  reflexivity.
Qed.

Lemma prepareValue_isUndefined v : isUndefined (prepareValue v) = isUndefined v.
Proof. by destruct v. Qed.

Lemma prepareValue_idempotent v : prepareValue (prepareValue v) = prepareValue v.
Proof.
  induction v as [| | | | | items IH | fields IH |] using value_nested_ind;
    try done.
  - cbn [prepareValue]. f_equal. rewrite List.map_map.
    induction IH as [|x l Hx _ IHl]; [done |]. cbn. by rewrite Hx, IHl.
  - rewrite !prepareValue_object. f_equal.
    induction IH as [|[k x] l Hx _ IHl]; [done |]. cbn [prepareObject].
    destruct (isUndefined x) eqn:E; [exact IHl |]. cbn [prepareObject snd] in *.
    by rewrite prepareValue_isUndefined, E, Hx, IHl.
Qed.

Lemma prepareObject_idempotent fields :
  prepareObject (prepareObject fields) = prepareObject fields.
Proof.
  pose proof (prepareValue_idempotent (VObj fields)) as H.
  rewrite !prepareValue_object in H. by injection H.
Qed.

Lemma deepClone_same v : deepClone v = v.
Proof.
  induction v as [| | | | | items IH | fields IH |] using value_nested_ind;
    try done; cbn [deepClone]; f_equal.
  - induction IH as [|x l Hx _ IHl]; [done |]. cbn. by rewrite Hx, IHl.
  - induction IH as [|[k x] l Hx _ IHl]; [done |]. cbn [snd] in *.
    by rewrite Hx, IHl.
Qed.

Lemma deepCloneDocument_same document : deepCloneDocument document = document.
Proof. unfold deepCloneDocument. by rewrite deepClone_same. Qed.

Lemma parseElements_objects objects :
  parseElements (VObj <$> objects) =
  Return ((λ d, if isObjectEmpty (prepareObject d) then None
                else Some (prepareObject d)) <$> objects).
Proof.
  induction objects as [|d rest IH]; [done |].
  cbn [fmap list_fmap parseElements]. fold (fmap VObj rest). by rewrite IH.
Qed.

Lemma parseElements_inv items slots :
  parseElements items = Return slots →
  ∃ objects, items = VObj <$> objects.
Proof.
  revert slots. induction items as [|item rest IH]; intros slots.
  - intros _. by exists [].
  - cbn [parseElements]. destruct item; try done.
    destruct (parseElements rest) as [slots'|] eqn:Hrest; [| done].
    intros _. destruct (IH slots' eq_refl) as [objects ->].
    by exists (fields :: objects).
Qed.

Lemma parseDatabaseStorage_objects
    (JSON_parse : string → option value) (content : string)
    (documents : list Document) :
  trim content ≠ "" →
  parseDatabaseStorage JSON_parse content = Return documents →
  ∃ objects,
    JSON_parse (trim content) = Some (VArr (VObj <$> objects)) ∧
    documents =
      List.filter (λ d, negb (isObjectEmpty d)) (prepareObject <$> objects).
Proof.
  intros Hfull. unfold parseDatabaseStorage.
  destruct (String.eqb_spec (trim content) ""); [done |].
  destruct (JSON_parse (trim content)) as [[| | | | | items | |]|]; try done.
  destruct (parseElements items) as [slots|] eqn:Hitems; [| done].
  destruct (parseElements_inv _ _ Hitems) as [objects ->].
  rewrite parseElements_objects in Hitems. injection Hitems as <-.
  intros [= <-]. exists objects. split; [done |].
  clear. induction objects as [|d rest IH]; [done |]. cbn.
  destruct (isObjectEmpty (prepareObject d)); cbn; by rewrite IH.
Qed.

Lemma prepared_stored (objects : list Document) :
  Forall stored
    (List.filter (λ d, negb (isObjectEmpty d)) (prepareObject <$> objects)).
Proof.
  apply Forall_forall. intros d [Hin Hne]%list_elem_of_In%filter_In.
  apply in_map_iff in Hin as (d0 & <- & _). split.
  - intros Hempty. by rewrite Hempty in Hne.
  - apply prepareObject_idempotent.
Qed.

Lemma parseDatabaseStorage_stored
    (JSON_parse : string → option value) (content : string)
    (documents : list Document) :
  parseDatabaseStorage JSON_parse content = Return documents →
  Forall stored documents.
Proof.
  intros Hparse. destruct (String.eqb_spec (trim content) "") as [Hblank | Hfull].
  - unfold parseDatabaseStorage in Hparse. rewrite Hblank in Hparse.
    injection Hparse as <-. constructor.
  - destruct (parseDatabaseStorage_objects _ _ _ Hfull Hparse)
      as (objects & _ & ->).
    apply prepared_stored.
Qed.

(** X6. When parsing succeeds on content that is not blank, the storage
    held an array of objects, and the result is these objects normalised,
    in their order, those that normalisation leaves empty dropped; every
    document returned is not empty and is normalised. *)
Theorem parse_returns_normalised_objects
    (JSON_parse : string → option value) (content : string)
    (documents : list Document) :
  trim content ≠ "" →
  parseDatabaseStorage JSON_parse content = Return documents →
  ∃ objects,
    JSON_parse (trim content) = Some (VArr (VObj <$> objects)) ∧
    documents =
      List.filter (λ d, negb (isObjectEmpty d)) (prepareObject <$> objects) ∧
    Forall stored documents.
Proof.
  intros Hfull Hparse.
  destruct (parseDatabaseStorage_objects _ _ _ Hfull Hparse)
    as (objects & Hjson & ->).
  exists objects. split; [done |]. split; [done | apply prepared_stored].
Qed.

Lemma parse_returns_normalised_objects_witness :
  let parse : string → option value := λ text,
    if String.eqb text "[{}]" then Some (VArr [VObj []; VObj [("a", VNull)]])
    else None in
  parseDatabaseStorage parse " [{}] " = Return [ [("a", VNull)] ] ∧
  Forall stored [ [("a", VNull)] ].
Proof.
  intros parse.
  destruct (parse_returns_normalised_objects parse " [{}] " [ [("a", VNull)] ])
    as (objects & _ & _ & Hstored); [done | reflexivity |].
  split; [reflexivity | exact Hstored].
Defined.

(** ** Field-map updates, field by field *)














Lemma normaliseAndCopy_stored newDocument result :
  normaliseAndCopy newDocument = Some result → stored result.
Proof.
  unfold normaliseAndCopy. rewrite deepCloneDocument_same.
  destruct (prepareObject newDocument) as [|field rest] eqn:Hprepared; [done |].
  cbn [isObjectEmpty]. intros [= <-]. split; [done |].
  unfold normalised. rewrite <- Hprepared. apply prepareObject_idempotent.
Qed.

Lemma updateDocument_stored document update result :
  updateDocument document update = Return (Some result) → stored result.
Proof.
  unfold updateDocument. destruct update as [fields | f].
  - intros [= H]. by apply normaliseAndCopy_stored in H.
  - destruct (negb (truthy (f (deepCloneDocument document)))); [done |].
    destruct (f (deepCloneDocument document)); try done.
    intros [= H]. by apply normaliseAndCopy_stored in H.
Qed.


End Values.

(* ================================================================== *)
(** * Objects in a mutable store *)
(* ================================================================== *)

(** [updateDocument] clones its argument, lets the caller's functions work
    on the clone, and normalises the clone in place. What it may and may not
    write is a statement about object identity, so here an object or array
    is a cell of a store and a value refers to it by its location. *)
Module Store.

Abbreviation loc := positive.

(** A JavaScript value: a primitive, a reference to an object or array, or
    one of the functions every object inherits from [Object.prototype]
    ([HInherited name] is the function inherited under [name]), which a
    read of [object[key]] returns when the object has no field of that
    name. *)
Inductive hval : Type :=
  | HUndefined
  | HNull
  | HBool (b : bool)
  | HNum (n : Z)
  | HStr (s : string)
  | HRef (l : loc)
  | HInherited (name : string).

(** What a location holds: the fields of an object, in enumeration order,
    or the items of an array. *)
Inductive cell : Type :=
  | CObj (fields : list (string * hval))
  | CArr (items : list hval).

Abbreviation heap := (gmap loc cell).

(** ** Computations on the store that may throw *)

Definition M (A : Type) : Type := heap → heap * outcome A.

#[global] Instance M_ret : MRet M := λ A a h, (h, Return a).

#[global] Instance M_bind : MBind M := λ A B f m h,
  match m h with
  | (h', Return a) => f a h'
  | (h', Throw e) => (h', Throw e)
  end.

Definition throw {A} (e : error) : M A := λ h, (h, Throw e).

(** [new]: a fresh object or array. *)
Definition alloc (c : cell) : M loc := λ h,
  let l := fresh (dom h) in (<[l := c]> h, Return l).

(** Reading through a reference. A program only holds references to live
    objects; a location without a cell does not arise from JavaScript and a
    read of it is reported as a [TypeError]. *)
Definition read (l : loc) : M cell := λ h,
  match h !! l with
  | Some c => (h, Return c)
  | None => (h, Throw (TypeError "not an object"))
  end.

(** In-place modification of an object or array. *)
Definition write (l : loc) (c : cell) : M unit := λ h,
  (<[l := c]> h, Return tt).

(** A loop over a list, in order, stopping at the first exception. *)
Fixpoint forEach {A B} (f : A → M B) (l : list A) : M (list B) :=
  match l with
  | [] => mret []
  | x :: rest => y ← f x; ys ← forEach f rest; mret (y :: ys)
  end.

(** ** Helpers of [utils.ts] on the store *)

(** Modelled from the spec: [isUndefined] of [utils.ts], which is not among
    the sources: the value is the absent-marker. *)
Definition isUndefined (target : hval) : bool :=
  match target with HUndefined => true | _ => false end.

(** Modelled from the spec: [isObject] of [utils.ts], which is not among the
    sources: the value is an object, not an array, not [null]. [isObjectIn]
    is the test in a given store, [isObject] the call. *)
Definition isObjectIn (h : heap) (target : hval) : bool :=
  match target with
  | HRef l => match h !! l with Some (CObj _) => true | _ => false end
  | _ => false
  end.

Definition isObject (target : hval) : M bool := λ h,
  (h, Return (isObjectIn h target)).

(** JavaScript's boolean coercion; every object and array is truthy. *)
Definition truthy (v : hval) : bool :=
  match v with
  | HUndefined | HNull => false
  | HBool b => b
  | HNum n => negb (n =? 0)%Z
  | HStr s => negb (String.eqb s "")
  | HRef _ | HInherited _ => true
  end.

(** [object[key]] on the fields of an object: the value of its own field
    of that name; when it has none, the function inherited under that
    name, [undefined] when there is none either. *)
Fixpoint getField (fields : list (string * hval)) (key : string) : hval :=
  match fields with
  | [] => if Values.isInherited key then HInherited key else HUndefined
  | (k, v) :: rest => if String.eqb k key then v else getField rest key
  end.

(** [object[key] = v]: an existing field keeps its place, a new one comes
    last. *)
Fixpoint setField (fields : list (string * hval)) (key : string) (v : hval)
    : list (string * hval) :=
  match fields with
  | [] => [(key, v)]
  | (k, x) :: rest =>
      if String.eqb k key then (k, v) :: rest
      else (k, x) :: setField rest key v
  end.

(** [delete object[key]]. *)
Definition deleteField (fields : list (string * hval)) (key : string)
    : list (string * hval) :=
  List.filter (λ kv, negb (String.eqb kv.1 key)) fields.

(** Property access [target[key]] on a document. The engine applies it to
    the clone of a document, which is an object; on anything else (an array,
    whose named properties the model does not keep, or a primitive) the
    access is reported as a [TypeError]. *)
Definition withFields {A} (target : hval) (k : loc → list (string * hval) → M A)
    : M A :=
  match target with
  | HRef l =>
      c ← read l;
      match c with
      | CObj fields => k l fields
      | CArr _ => throw (TypeError "not a document")
      end
  | _ => throw (TypeError "not a document")
  end.

Definition getProperty (target : hval) (key : string) : M hval :=
  withFields target (λ _ fields, mret (getField fields key)).

Definition setProperty (target : hval) (key : string) (v : hval) : M unit :=
  withFields target (λ l fields, write l (CObj (setField fields key v))).

Definition deleteProperty (target : hval) (key : string) : M unit :=
  withFields target (λ l fields, write l (CObj (deleteField fields key))).

(** Modelled from the spec: [isObjectEmpty] of [utils.ts], which is not
    among the sources: the object has "zero fields at the top level".
    [cellEmpty] is the test on the cell of an object or array (an array has
    its indices for fields); on a primitive there is nothing to enumerate,
    except the indices of a string that is not empty. *)
Definition cellEmpty (c : cell) : bool :=
  match c with
  | CObj [] | CArr [] => true
  | _ => false
  end.

Definition isObjectEmpty (target : hval) : M bool :=
  match target with
  | HRef l => c ← read l; mret (cellEmpty c)
  | HStr s => mret (String.eqb s "")
  | _ => mret true
  end.

(** Modelled from the spec: [deepClone] of [utils.ts], "a deep copy of the
    input document": a primitive is returned as it is; an object or array is
    copied into a new cell whose fields or items are the deep copies of the
    original's. [depth] is the room left on the call stack; a structure
    nested deeper than that (a cyclic one, at any depth) ends in a
    [RangeError]. *)
Fixpoint deepClone (depth : nat) (target : hval) : M hval :=
  match target with
  | HRef l =>
      match depth with
      | O => throw RangeError
      | S depth' =>
          c ← read l;
          match c with
          | CArr items =>
              items' ← forEach (deepClone depth') items;
              clone ← alloc (CArr items');
              mret (HRef clone)
          | CObj fields =>
              fields' ← forEach
                (λ kv, v ← deepClone depth' kv.2; mret (kv.1, v)) fields;
              clone ← alloc (CObj fields');
              mret (HRef clone)
          end
      end
  | _ => mret target
  end.

(** The fields of an object that are not [undefined]. *)
Definition definedFields (fields : list (string * hval)) : list (string * hval) :=
  List.filter (λ kv, negb (isUndefined kv.2)) fields.

(** Modelled from the spec: [prepareObject] of [utils.ts], called for its
    effect on its argument: "recursively strip any field (at any depth)
    whose value is absent-marker". The fields of the object that hold
    [undefined] are deleted from it, then the objects and arrays it still
    refers to are normalised in the same way; an array keeps its items. *)
Fixpoint prepare (depth : nat) (target : hval) : M unit :=
  match target with
  | HRef l =>
      match depth with
      | O => throw RangeError
      | S depth' =>
          c ← read l;
          match c with
          | CObj fields =>
              write l (CObj (definedFields fields));;
              forEach (λ kv, prepare depth' kv.2) (definedFields fields);;
              mret tt
          | CArr items =>
              forEach (prepare depth') items;;
              mret tt
          end
      end
  | _ => mret tt
  end.

Definition prepareObject (depth : nat) (target : hval) : M unit :=
  prepare depth target.

(** ** Updates *)

(** A function supplied by the caller: it receives a value, may read and
    modify the store, and returns a value or throws. *)
Abbreviation Callback := (hval → M hval).

(** [UpdateValue] of [types.ts]: a value to assign, or a function from the
    field's value to its replacement. *)
Inductive UpdateValue : Type :=
  | UValue (v : hval)
  | UFunction (f : Callback).

(** The second argument of [updateDocument]: [Update | UpdateFunction]. *)
Inductive Update : Type :=
  | UpdateFields (fields : list (string * UpdateValue))
  | UpdateFunction (f : Callback).

(** The loop [for (const key in update)] on the clone [newDocument]. *)
Fixpoint applyFields (fields : list (string * UpdateValue)) (newDocument : hval)
    : M unit :=
  match fields with
  | [] => mret tt
  | (key, value) :: rest =>
      result ← match value with
               | UFunction f => current ← getProperty newDocument key; f current
               | UValue v => mret v
               end;
      (if isUndefined result
       then deleteProperty newDocument key
       else setProperty newDocument key result);;
      applyFields rest newDocument
  end.

(** The last three statements of [updateDocument]: normalise the working
    document, return [null] when it is left without fields, a deep copy of
    it otherwise. *)
Definition normaliseAndCopy (depth : nat) (newDocument : hval) : M hval :=
  prepareObject depth newDocument;;
  empty ← isObjectEmpty newDocument;
  if (empty : bool) then mret HNull
  else deepClone depth newDocument.

(** [updateDocument] of [core.ts]. The result [null] is the deletion
    signal. *)
Definition updateDocument (depth : nat) (document : loc) (update : Update)
    : M hval :=
  newDocument ← deepClone depth (HRef document);
  match update with
  | UpdateFunction f =>
      newDocument ← f newDocument;
      if negb (truthy newDocument) then mret HNull
      else
        object ← isObject newDocument;
        if negb object then throw (TypeError "Document must be an object")
        else normaliseAndCopy depth newDocument
  | UpdateFields fields =>
      applyFields fields newDocument;;
      normaliseAndCopy depth newDocument
  end.

(** ** What a document reaches *)

(** [reachable h v l]: the cell at [l] is part of the structure [v] denotes
    in [h] (the object or array itself, or one nested in it). *)
Inductive reachable (h : heap) : hval → loc → Prop :=
  | reach_self l c :
      h !! l = Some c → reachable h (HRef l) l
  | reach_field l fields key v l' :
      h !! l = Some (CObj fields) → In (key, v) fields →
      reachable h v l' → reachable h (HRef l) l'
  | reach_item l items v l' :
      h !! l = Some (CArr items) → In v items →
      reachable h v l' → reachable h (HRef l) l'.

(** A cell of a stored document: no field of it holds [undefined]. *)
Definition cleanCell (c : cell) : bool :=
  match c with
  | CObj fields => forallb (λ kv, negb (isUndefined kv.2)) fields
  | CArr _ => true
  end.

(** No field holds [undefined] down to nesting depth [n], and the structure
    is not nested deeper than [n]. *)
Fixpoint cleanTo (n : nat) (h : heap) (v : hval) : bool :=
  match v with
  | HRef l =>
      match n with
      | O => false
      | S n' =>
          match h !! l with
          | Some (CObj fields) =>
              forallb (λ kv, negb (isUndefined kv.2) && cleanTo n' h kv.2) fields
          | Some (CArr items) => forallb (cleanTo n' h) items
          | None => false
          end
      end
  | _ => true
  end.

(** Every reference in the structure is live, and the structure is not
    nested deeper than [n]. *)
Fixpoint liveTo (n : nat) (h : heap) (v : hval) : bool :=
  match v with
  | HRef l =>
      match n with
      | O => false
      | S n' =>
          match h !! l with
          | Some (CObj fields) => forallb (λ kv, liveTo n' h kv.2) fields
          | Some (CArr items) => forallb (liveTo n' h) items
          | None => false
          end
      end
  | _ => true
  end.

(** ** What the engine may write *)

(** [agree P h0 h]: the cells of the set [P] are in [h] what they are in
    [h0]. [keeps P h0 m]: the computation [m] leaves them so. *)
Definition agree (P : loc → Prop) (h0 h : heap) : Prop :=
  ∀ l, P l → h !! l = h0 !! l.

Definition keeps (P : loc → Prop) (h0 : heap) {A} (m : M A) : Prop :=
  ∀ h, agree P h0 h → agree P h0 (m h).1.

(** A function of the caller that writes only to what it is given or
    creates, and to objects of the caller's that are not in [P]: outside
    the structure of its argument it changes no cell of [P] and no cell
    created since the store was [h0]. *)
Definition respects (P : loc → Prop) (h0 : heap) (f : Callback) : Prop :=
  ∀ v h l c,
    h !! l = Some c → ¬ reachable h v l → P l ∨ h0 !! l = None →
    (f v h).1 !! l = Some c.

(** The functions of an update are such functions. An update given as a
    field map is a JavaScript object: its field names are distinct. *)
Definition callbacksRespect (P : loc → Prop) (h0 : heap) (update : Update) : Prop :=
  match update with
  | UpdateFunction f => respects P h0 f
  | UpdateFields fields =>
      NoDup fields.*1 ∧
      ∀ key f, In (key, UFunction f) fields → respects P h0 f
  end.

(** Two structures without a cell in common. *)
Definition apart (h : heap) (v w : hval) : Prop :=
  ∀ l, reachable h v l → ¬ reachable h w l.

(** A structure without dangling reference, made of cells created since
    the store was [h0], the cell [n] not among them. *)
Definition isolated (h0 : heap) (n : loc) (h : heap) (v : hval) : Prop :=
  (∃ d, liveTo d h v = true) ∧
  ∀ l, reachable h v l → h0 !! l = None ∧ l ≠ n.

(** The object at [n] holds, under each of the names [keys], an isolated
    structure, apart from those under the other names. *)
Definition fieldsIsolated (h0 : heap) (n : loc) (h : heap) (keys : list string)
    : Prop :=
  ∃ fs, h !! n = Some (CObj fs) ∧
    (∀ key, In key keys → isolated h0 n h (getField fs key)) ∧
    (∀ k1 k2, In k1 keys → In k2 keys → k1 ≠ k2 →
              apart h (getField fs k1) (getField fs k2)).

(** A computation that only adds cells. *)
Definition extends {A} (m : M A) : Prop := ∀ h, h ⊆ (m h).1.

(** A computation that never changes a clean cell. *)
Definition keepsClean {A} (m : M A) : Prop :=
  ∀ h l c, h !! l = Some c → cleanCell c = true → (m h).1 !! l = Some c.

(** A computation that frees no cell: what is live before it is live
    after it. *)
Definition grows {A} (m : M A) : Prop :=
  ∀ h l, is_Some (h !! l) → is_Some ((m h).1 !! l).

(** The functions of an update free no cell, as no JavaScript function
    can. *)
Definition callbacksGrow (update : Update) : Prop :=
  match update with
  | UpdateFunction f => ∀ v, grows (f v)
  | UpdateFields fields =>
      ∀ key f, In (key, UFunction f) fields → ∀ v, grows (f v)
  end.

(** What normalising a cell in place leaves of it. *)
Definition strip (c : cell) : cell :=
  match c with
  | CObj fields => CObj (definedFields fields)
  | CArr items => CArr items
  end.

(** Every cell of [h] is in [h'] as it was, or normalised. *)
Definition stripped (h h' : heap) : Prop :=
  ∀ l c, h !! l = Some c → h' !! l = Some c ∨ h' !! l = Some (strip c).

(** A computation that at most normalises cells. *)
Definition strips {A} (m : M A) : Prop := ∀ h, stripped h (m h).1.

(** The fields an object has after the assignments and deletions of a
    field map without functions. *)
Fixpoint assignAll (fields : list (string * UpdateValue))
    (current : list (string * hval)) : list (string * hval) :=
  match fields with
  | [] => current
  | (key, UValue x) :: rest =>
      assignAll rest
        (if isUndefined x then deleteField current key
         else setField current key x)
  | (_, UFunction _) :: rest => assignAll rest current
  end.

(** A field map that holds values only, no function. *)
Definition valuesOnly (fields : list (string * UpdateValue)) : Prop :=
  ∀ key x, In (key, x) fields → ∃ w, x = UValue w.


(** ** Running computations *)

Lemma run_bind {A B} (m : M A) (f : A → M B) h :
  (m ≫= f) h =
  match m h with
  | (h', Return a) => f a h'
  | (h', Throw e) => (h', Throw e)
  end.
Proof. reflexivity. Qed.

Lemma run_ret {A} (a : A) h : (mret a : M A) h = (h, Return a).
Proof. reflexivity. Qed.

Lemma definedFields_clean fields :
  forallb (λ kv, negb (isUndefined kv.2)) fields = true →
  definedFields fields = fields.
Proof.
  induction fields as [|kv rest IH]; [done |].
  cbn [forallb definedFields List.filter].
  destruct (negb (isUndefined kv.2)); [| done]. cbn [andb]. intros H.
  f_equal. by apply IH.
Qed.

Lemma definedFields_are_defined fields :
  forallb (λ kv, negb (isUndefined kv.2)) (definedFields fields) = true.
Proof.
  induction fields as [|kv rest IH]; [done |].
  cbn [definedFields List.filter].
  destruct (negb (isUndefined kv.2)) eqn:E; [| done].
  cbn [forallb]. by rewrite E.
Qed.

Lemma reachable_live h v l : reachable h v l → is_Some (h !! l).
Proof. induction 1; eauto. Qed.

(** ** The frame of the engine *)

(** [P] is a set of live cells of the initial store [h0], all clean. The
    computations below leave every cell of [P] as it is in [h0]. *)
Section frame.
Variable P : loc → Prop.
Variable h0 : heap.
Hypothesis P_live : ∀ l, P l → is_Some (h0 !! l).
Hypothesis P_clean : ∀ l c, P l → h0 !! l = Some c → cleanCell c = true.

Lemma keeps_ret {A} (a : A) : keeps P h0 (mret a).
Proof. by intros h Hh. Qed.

Lemma keeps_throw {A} e : keeps P h0 (throw e : M A).
Proof. by intros h Hh. Qed.

Lemma keeps_bind {A B} (m : M A) (f : A → M B) :
  keeps P h0 m → (∀ a, keeps P h0 (f a)) → keeps P h0 (m ≫= f).
Proof.
  intros Hm Hf h Hh. rewrite run_bind. specialize (Hm h Hh).
  destruct (m h) as [h' [a|e]]; cbn in *; [by apply Hf | done].
Qed.

Lemma keeps_read l : keeps P h0 (read l).
Proof. intros h Hh. unfold read. by destruct (h !! l). Qed.

Lemma keeps_alloc c : keeps P h0 (alloc c).
Proof.
  intros h Hh l Hl. unfold alloc. cbn.
  rewrite lookup_insert_ne; [by apply Hh |].
  intros <-. destruct (P_live _ Hl) as [c' Hc']. rewrite <- (Hh _ Hl) in Hc'.
  apply (is_fresh (dom h)). apply elem_of_dom. eauto.
Qed.

Lemma keeps_forEach {A B} (f : A → M B) (l : list A) :
  (∀ x, keeps P h0 (f x)) → keeps P h0 (forEach f l).
Proof.
  intros Hf. induction l as [|x rest IH]; cbn [forEach].
  - apply keeps_ret.
  - apply keeps_bind; [apply Hf |]. intros y.
    apply keeps_bind; [apply IH |]. intros ys. apply keeps_ret.
Qed.

Lemma keeps_isObject v : keeps P h0 (isObject v).
Proof. by intros h Hh. Qed.

Lemma keeps_isObjectEmpty v : keeps P h0 (isObjectEmpty v).
Proof.
  destruct v; try apply keeps_ret. cbn [isObjectEmpty].
  apply keeps_bind; [apply keeps_read |]. intros c. apply keeps_ret.
Qed.

Lemma keeps_deepClone depth v : keeps P h0 (deepClone depth v).
Proof.
  revert v. induction depth as [|depth IH]; intros v;
    destruct v; try apply keeps_ret; cbn [deepClone].
  - apply keeps_throw.
  - apply keeps_bind; [apply keeps_read |]. intros [fields | items].
    + apply keeps_bind.
      * apply keeps_forEach. intros kv.
        apply keeps_bind; [apply IH |]. intros v. apply keeps_ret.
      * intros fields'. apply keeps_bind; [apply keeps_alloc |].
        intros clone. apply keeps_ret.
    + apply keeps_bind; [by apply keeps_forEach |].
      intros items'. apply keeps_bind; [apply keeps_alloc |].
      intros clone. apply keeps_ret.
Qed.

(** Normalising rewrites an object with the fields it keeps; for a clean
    object these are all its fields. *)
Lemma agree_strip h l fields :
  agree P h0 h → h !! l = Some (CObj fields) →
  agree P h0 (<[l := CObj (definedFields fields)]> h).
Proof.
  intros Hh Hl l' Hl'. destruct (decide (l = l')) as [<- | Hne].
  - rewrite lookup_insert_eq. rewrite <- (Hh _ Hl'), Hl. f_equal. f_equal.
    apply definedFields_clean.
    apply (P_clean l (CObj fields) Hl'). by rewrite <- (Hh _ Hl').
  - rewrite lookup_insert_ne by done. by apply Hh.
Qed.

Lemma keeps_prepare depth v : keeps P h0 (prepare depth v).
Proof.
  revert v. induction depth as [|depth IH]; intros v;
    destruct v; try apply keeps_ret; cbn [prepare].
  - apply keeps_throw.
  - intros h Hh. rewrite run_bind. unfold read at 1.
    destruct (h !! l) as [[fields | items]|] eqn:Hl; [| | done].
    + rewrite run_bind. unfold write at 1. cbn [fst snd].
      apply keeps_bind; [| intros; apply keeps_ret |].
      * apply keeps_forEach. intros kv. apply IH.
      * by apply agree_strip.
    + apply keeps_bind; [by apply keeps_forEach | intros; apply keeps_ret |].
      done.
Qed.

Lemma keeps_normaliseAndCopy depth v : keeps P h0 (normaliseAndCopy depth v).
Proof.
  unfold normaliseAndCopy, prepareObject.
  apply keeps_bind; [apply keeps_prepare |]. intros _.
  apply keeps_bind; [apply keeps_isObjectEmpty |].
  intros [|]; [apply keeps_ret | apply keeps_deepClone].
Qed.

End frame.

(** A deep copy only adds cells, and the copy of an object or array is a
    cell that did not exist before. *)
Lemma extends_bind {A B} (m : M A) (f : A → M B) :
  extends m → (∀ a, extends (f a)) → extends (m ≫= f).
Proof.
  intros Hm Hf h. rewrite run_bind. specialize (Hm h).
  destruct (m h) as [h' [a|e]]; cbn in *; [| done].
  etrans; [exact Hm | apply Hf].
Qed.

Lemma extends_ret {A} (a : A) : extends (mret a).
Proof. by intros h. Qed.

Lemma extends_read l : extends (read l).
Proof. intros h. unfold read. by destruct (h !! l). Qed.

Lemma alloc_fresh (h : heap) : h !! fresh (dom h) = None.
Proof. apply not_elem_of_dom, is_fresh. Qed.

Lemma extends_alloc c : extends (alloc c).
Proof. intros h. apply insert_subseteq, alloc_fresh. Qed.

Lemma extends_forEach {A B} (f : A → M B) (l : list A) :
  (∀ x, extends (f x)) → extends (forEach f l).
Proof.
  intros Hf. induction l as [|x rest IH]; cbn [forEach].
  - apply extends_ret.
  - apply extends_bind; [apply Hf |]. intros y.
    apply extends_bind; [apply IH |]. intros ys. apply extends_ret.
Qed.

Lemma extends_deepClone depth v : extends (deepClone depth v).
Proof.
  revert v. induction depth as [|depth IH]; intros v;
    destruct v; try apply extends_ret; cbn [deepClone]; [by intros h |].
  apply extends_bind; [apply extends_read |]. intros [fields | items].
  - apply extends_bind.
    + apply extends_forEach. intros kv.
      apply extends_bind; [apply IH |]. intros v. apply extends_ret.
    + intros fields'. apply extends_bind; [apply extends_alloc |].
      intros clone. apply extends_ret.
  - apply extends_bind; [by apply extends_forEach |].
    intros items'. apply extends_bind; [apply extends_alloc |].
    intros clone. apply extends_ret.
Qed.

Lemma deepClone_ref_fresh depth l h h' v :
  deepClone depth (HRef l) h = (h', Return v) →
  ∃ clone, v = HRef clone ∧ h !! clone = None.
Proof.
  destruct depth as [|depth]; [done |]. cbn [deepClone].
  rewrite run_bind. unfold read at 1.
  destruct (h !! l) as [[fields | items]|]; [| | done]; rewrite run_bind.
  - pose proof (extends_forEach
      (λ kv : string * hval, v ← deepClone depth kv.2; mret (kv.1, v)) fields
      (λ kv, extends_bind _ _ (extends_deepClone depth kv.2)
               (λ v, extends_ret _)) h) as Hext.
    destruct (forEach _ fields h) as [h1 [fields'|e]]; [| done].
    cbn. intros [= <- <-]. eexists. split; [done |].
    eapply lookup_weaken_None; [apply alloc_fresh | exact Hext].
  - pose proof (extends_forEach (deepClone depth) items
      (extends_deepClone depth) h) as Hext.
    destruct (forEach _ items h) as [h1 [items'|e]]; [| done].
    cbn. intros [= <- <-]. eexists. split; [done |].
    eapply lookup_weaken_None; [apply alloc_fresh | exact Hext].
Qed.


(** ** Normalisation reaches every depth *)

Lemma keepsClean_intro {A} (m : M A) :
  (∀ P h0,
     (∀ l, P l → is_Some (h0 !! l)) →
     (∀ l c, P l → h0 !! l = Some c → cleanCell c = true) →
     keeps P h0 m) →
  keepsClean m.
Proof.
  intros Hm h l c Hl Hc.
  rewrite <- Hl.
  apply (Hm (λ l, ∃ c, h !! l = Some c ∧ cleanCell c = true) h).
  - intros l' (c' & Hl' & _). eauto.
  - intros l' c' (c'' & Hl' & Hc') Hl''. congruence.
  - by intros l' _.
  - eauto.
Qed.

Lemma keepsClean_prepare depth v : keepsClean (prepare depth v).
Proof. apply keepsClean_intro. intros. by apply keeps_prepare. Qed.

Lemma keepsClean_forEach_prepare {A} depth (proj : A → hval) (l : list A) :
  keepsClean (forEach (λ x, prepare depth (proj x)) l).
Proof.
  apply keepsClean_intro. intros. apply keeps_forEach.
  intros x. by apply keeps_prepare.
Qed.

Lemma cleanTo_preserved n (h h' : heap) v :
  (∀ l c, h !! l = Some c → cleanCell c = true → h' !! l = Some c) →
  cleanTo n h v = true → cleanTo n h' v = true.
Proof.
  intros Hpres. revert v. induction n as [|n IH]; intros v;
    destruct v; try done. cbn [cleanTo].
  destruct (h !! l) as [[fields | items]|] eqn:Hl; [| | done].
  - intros Hfields.
    rewrite (Hpres l (CObj fields) Hl).
    + apply forallb_forall. intros kv Hin.
      rewrite forallb_forall in Hfields. specialize (Hfields kv Hin).
      apply andb_true_iff in Hfields as [-> Hkv]. by rewrite (IH _ Hkv).
    + cbn [cleanCell]. apply forallb_forall. intros kv Hin.
      rewrite forallb_forall in Hfields. specialize (Hfields kv Hin).
      by apply andb_true_iff in Hfields as [-> _].
  - intros Hitems. rewrite (Hpres l (CArr items) Hl eq_refl).
    apply forallb_forall. intros x Hin.
    rewrite forallb_forall in Hitems. by apply IH, Hitems.
Qed.

Lemma cleanTo_weaken n (h h' : heap) v :
  h ⊆ h' → cleanTo n h v = true → cleanTo n h' v = true.
Proof.
  intros Hsub. apply cleanTo_preserved. intros l c Hl _.
  by eapply lookup_weaken.
Qed.

Lemma forEach_prepare_clean {A} depth (proj : A → hval) (l : list A) h h' us :
  (∀ v h h', prepare depth v h = (h', Return ()) → cleanTo depth h' v = true) →
  forEach (λ x, prepare depth (proj x)) l h = (h', Return us) →
  forallb (λ x, cleanTo depth h' (proj x)) l = true.
Proof.
  intros IHd. revert h us. induction l as [|x rest IH]; intros h us; [done |].
  cbn [forEach forallb]. rewrite run_bind.
  destruct (prepare depth (proj x) h) as [h1 [[]|e]] eqn:Hx; [| done].
  rewrite run_bind.
  pose proof (keepsClean_forEach_prepare depth proj rest h1) as Hkeep.
  destruct (forEach _ rest h1) as [h2 [us'|e]] eqn:Hrest; [| done].
  cbn. intros [= <- <-]. rewrite (IH _ _ Hrest), andb_true_r.
  eapply cleanTo_preserved; [exact Hkeep | by eapply IHd].
Qed.

(** After [prepare] returns, no field of the structure holds [undefined],
    at any depth. *)
Lemma prepare_clean depth v h h' :
  prepare depth v h = (h', Return ()) → cleanTo depth h' v = true.
Proof.
  revert v h h'. induction depth as [|depth IH]; intros v h h';
    destruct v; try done. cbn [prepare cleanTo].
  rewrite run_bind. unfold read at 1.
  destruct (h !! l) as [[fields | items]|] eqn:Hl; [| | done].
  - rewrite run_bind. unfold write at 1. rewrite run_bind.
    pose proof (keepsClean_forEach_prepare depth snd (definedFields fields)
      (<[l := CObj (definedFields fields)]> h) l
      (CObj (definedFields fields)) (lookup_insert_eq _ _ _)
      (definedFields_are_defined fields)) as Hcell.
    pose proof (forEach_prepare_clean depth snd (definedFields fields)
      (<[l := CObj (definedFields fields)]> h)) as Hdeep.
    change (λ x : string * hval, prepare depth x.2)
      with (λ kv : string * hval, prepare depth kv.2) in *.
    destruct (forEach _ (definedFields fields) _) as [h1 [us|e]]; [| done].
    cbn in Hcell |- *. intros [= <-]. rewrite Hcell.
    specialize (Hdeep h1 us IH eq_refl).
    pose proof (definedFields_are_defined fields) as Hdef.
    rewrite forallb_forall in Hdeep, Hdef. apply forallb_forall.
    intros kv Hin. by rewrite (Hdef kv Hin), (Hdeep kv Hin).
  - rewrite run_bind.
    pose proof (keepsClean_forEach_prepare depth id items h l
      (CArr items) Hl eq_refl) as Hcell.
    pose proof (forEach_prepare_clean depth id items h) as Hdeep.
    change (λ x : hval, prepare depth (id x)) with (prepare depth) in *.
    destruct (forEach (prepare depth) items h) as [h1 [us|e]]; [| done].
    cbn in Hcell |- *. intros [= <-]. rewrite Hcell.
    exact (Hdeep h1 us IH eq_refl).
Qed.

Lemma deepClone_defined depth v h h' v' :
  deepClone depth v h = (h', Return v') → isUndefined v' = isUndefined v.
Proof.
  intros Hc. destruct v; try (by destruct depth; inversion Hc).
  by destruct (deepClone_ref_fresh _ _ _ _ _ Hc) as (clone & -> & _).
Qed.

(** The deep copy of a normalised structure is normalised. *)
Lemma deepClone_clean depth n v h h' v' :
  cleanTo n h v = true →
  deepClone depth v h = (h', Return v') →
  cleanTo n h' v' = true.
Proof.
  revert n v h h' v'. induction depth as [|depth IH]; intros n v h h' v' Hv;
    destruct v; try (intros [= <- <-]; by destruct n).
  destruct n as [|n]; [done |]. cbn [deepClone cleanTo] in *.
  rewrite run_bind. unfold read at 1.
  destruct (h !! l) as [[fields | items]|] eqn:Hl; [| | done]; rewrite run_bind.
  - assert (Hloop : ∀ fs h h1 fs',
      forallb (λ kv, negb (isUndefined kv.2) && cleanTo n h kv.2) fs = true →
      forEach (λ kv : string * hval, v ← deepClone depth kv.2; mret (kv.1, v))
        fs h = (h1, Return fs') →
      forallb (λ kv, negb (isUndefined kv.2) && cleanTo n h1 kv.2) fs' = true).
    { clear -IH. induction fs as [|kv fs IHfs]; intros h h1 fs' Hfs.
      - by intros [= <- <-].
      - cbn [forEach forallb] in *. apply andb_true_iff in Hfs as [Hkv Hfs].
        apply andb_true_iff in Hkv as [Hdef Hkv].
        rewrite !run_bind.
        pose proof (extends_deepClone depth kv.2 h) as Hext1.
        destruct (deepClone depth kv.2 h) as [ha [va|e]] eqn:Hclone; [| done].
        cbn [fst] in Hext1. rewrite run_ret, run_bind.
        pose proof (extends_forEach
          (λ kv : string * hval, v ← deepClone depth kv.2; mret (kv.1, v)) fs
          (λ kv, extends_bind _ _ (extends_deepClone depth kv.2)
                   (λ v, extends_ret _)) ha) as Hext2.
        destruct (forEach _ fs ha) as [hb [fs2|e]] eqn:Hrest; [| done].
        cbn [fst] in Hext2. rewrite run_ret. intros [= <- <-].
        cbn [forallb fst snd].
        rewrite (deepClone_defined _ _ _ _ _ Hclone), Hdef.
        rewrite (cleanTo_weaken n ha hb va Hext2 (IH _ _ _ _ _ Hkv Hclone)).
        cbn [andb]. apply (IHfs ha); [| done].
        apply forallb_forall. intros kv' Hin.
        rewrite forallb_forall in Hfs. specialize (Hfs kv' Hin).
        apply andb_true_iff in Hfs as [-> Hkv'].
        by rewrite (cleanTo_weaken n h ha _ Hext1 Hkv'). }
    specialize (Hloop fields h).
    destruct (forEach _ fields h) as [h1 [fields'|e]]; [| done].
    specialize (Hloop h1 fields' Hv eq_refl).
    cbn. intros [= <- <-]. cbn [cleanTo]. rewrite lookup_insert_eq.
    apply forallb_forall. intros kv Hin.
    rewrite forallb_forall in Hloop. specialize (Hloop kv Hin).
    apply andb_true_iff in Hloop as [-> Hkv]. cbn [andb].
    eapply cleanTo_weaken; [| exact Hkv].
    apply insert_subseteq, alloc_fresh.
  - assert (Hloop : ∀ vs h h1 vs',
      forallb (cleanTo n h) vs = true →
      forEach (deepClone depth) vs h = (h1, Return vs') →
      forallb (cleanTo n h1) vs' = true).
    { clear -IH. induction vs as [|x vs IHvs]; intros h h1 vs' Hvs.
      - by intros [= <- <-].
      - cbn [forEach forallb] in *. apply andb_true_iff in Hvs as [Hx Hvs].
        rewrite !run_bind.
        pose proof (extends_deepClone depth x h) as Hext1.
        destruct (deepClone depth x h) as [ha [va|e]] eqn:Hclone; [| done].
        cbn [fst] in Hext1. rewrite run_bind.
        pose proof (extends_forEach (deepClone depth) vs
          (extends_deepClone depth) ha) as Hext2.
        destruct (forEach _ vs ha) as [hb [vs2|e]] eqn:Hrest; [| done].
        cbn [fst] in Hext2. rewrite run_ret. intros [= <- <-].
        cbn [forallb].
        rewrite (cleanTo_weaken n ha hb va Hext2 (IH _ _ _ _ _ Hx Hclone)).
        cbn [andb]. apply (IHvs ha); [| done].
        apply forallb_forall. intros x' Hin.
        rewrite forallb_forall in Hvs.
        by rewrite (cleanTo_weaken n h ha _ Hext1 (Hvs x' Hin)). }
    specialize (Hloop items h).
    destruct (forEach _ items h) as [h1 [items'|e]]; [| done].
    specialize (Hloop h1 items' Hv eq_refl).
    cbn. intros [= <- <-]. cbn [cleanTo]. rewrite lookup_insert_eq.
    apply forallb_forall. intros x Hin.
    rewrite forallb_forall in Hloop.
    eapply cleanTo_weaken; [| exact (Hloop x Hin)].
    apply insert_subseteq, alloc_fresh.
Qed.

(** ** A deep copy is made of new cells only *)

Lemma liveTo_weaken n (h h' : heap) v :
  h ⊆ h' → liveTo n h v = true → liveTo n h' v = true.
Proof.
  intros Hsub. revert v. induction n as [|n IH]; intros v;
    destruct v; try done. cbn [liveTo].
  destruct (h !! l) as [c|] eqn:Hl; [| done].
  rewrite (lookup_weaken _ _ _ _ Hl Hsub).
  destruct c as [fields | items]; rewrite !forallb_forall; eauto.
Qed.

(** In a larger store, a structure without dangling reference reaches the
    same cells. *)
Lemma reachable_shrink n (h h' : heap) v l :
  h ⊆ h' → liveTo n h v = true → reachable h' v l → reachable h v l.
Proof.
  intros Hsub Hlive Hr. revert n Hlive.
  induction Hr as [l c Hl | l fields key v l' Hl Hin _ IH
                  | l items v l' Hl Hin _ IH];
    intros [|n]; try done; cbn [liveTo];
    destruct (h !! l) as [c0|] eqn:Hl0; try done;
    pose proof (lookup_weaken _ _ _ _ Hl0 Hsub) as Hl'.
  - intros _. by eapply reach_self.
  - assert (c0 = CObj fields) as -> by congruence.
    rewrite forallb_forall. intros Hall.
    eapply reach_field; [done | done |]. by apply (IH n), (Hall (key, v)).
  - assert (c0 = CArr items) as -> by congruence.
    rewrite forallb_forall. intros Hall.
    eapply reach_item; [done | done |]. by apply (IH n), Hall.
Qed.

Lemma reachable_ref_inv (h : heap) l l' :
  reachable h (HRef l) l' →
  l' = l ∨
  (∃ fields key v, h !! l = Some (CObj fields) ∧ In (key, v) fields ∧
                   reachable h v l') ∨
  (∃ items v, h !! l = Some (CArr items) ∧ In v items ∧ reachable h v l').
Proof. inversion 1; subst; eauto 10. Qed.

(** The copy has no dangling reference, and every cell it reaches was
    allocated by the copying. *)
Lemma deepClone_structure depth v h h' v' :
  deepClone depth v h = (h', Return v') →
  liveTo depth h' v' = true ∧ ∀ l, reachable h' v' l → h !! l = None.
Proof.
  revert v h h' v'. induction depth as [|depth IH]; intros v h h' v';
    destruct v; try (intros [= <- <-]; split; [done | by inversion 1]);
    [done |].
  cbn [deepClone]. rewrite run_bind. unfold read at 1.
  destruct (h !! l) as [[fields | items]|] eqn:Hl; [| | done]; rewrite run_bind.
  - assert (Hloop : ∀ fs h h1 fs',
      forEach (λ kv : string * hval, v ← deepClone depth kv.2; mret (kv.1, v))
        fs h = (h1, Return fs') →
      h ⊆ h1 ∧
      ∀ kv, In kv fs' →
        liveTo depth h1 kv.2 = true ∧ ∀ l, reachable h1 kv.2 l → h !! l = None).
    { clear -IH. induction fs as [|kv fs IHfs]; intros h h1 fs'.
      - intros [= <- <-]. split; [done | by intros kv []].
      - cbn [forEach]. rewrite !run_bind.
        pose proof (extends_deepClone depth kv.2 h) as Hext1.
        destruct (deepClone depth kv.2 h) as [ha [va|e]] eqn:Hclone; [| done].
        cbn [fst] in Hext1. rewrite run_ret, run_bind.
        destruct (forEach _ fs ha) as [hb [fs2|e]] eqn:Hrest; [| done].
        rewrite run_ret. intros [= <- <-].
        destruct (IHfs _ _ _ Hrest) as [Hext2 Hfs2].
        destruct (IH _ _ _ _ Hclone) as [Hlive Hnew].
        split; [by etrans |]. intros kv' [<- | Hin]; cbn [snd].
        + split; [by eapply liveTo_weaken |]. intros l Hr.
          apply Hnew. by eapply reachable_shrink.
        + destruct (Hfs2 kv' Hin) as [Hlive' Hnew'].
          split; [done |]. intros l Hr.
          eapply lookup_weaken_None; [by apply Hnew' | done]. }
    specialize (Hloop fields h).
    destruct (forEach _ fields h) as [h1 [fields'|e]]; [| done].
    destruct (Hloop h1 fields' eq_refl) as [Hext Hfields].
    cbn. intros [= <- <-].
    pose proof (alloc_fresh h1) as Hfresh.
    assert (Hsub : h1 ⊆ <[fresh (dom h1) := CObj fields']> h1)
      by by apply insert_subseteq.
    split.
    + cbn [liveTo]. rewrite lookup_insert_eq. apply forallb_forall.
      intros kv Hin. eapply liveTo_weaken; [done | by apply Hfields].
    + intros l' Hr.
      apply reachable_ref_inv in Hr
        as [-> | [(fs & key & w & Hc & Hin & Hr) | (its & w & Hc & _)]].
      * by eapply lookup_weaken_None.
      * rewrite lookup_insert_eq in Hc. injection Hc as <-.
        destruct (Hfields _ Hin) as [Hlive Hnew]. apply Hnew.
        by eapply reachable_shrink.
      * by rewrite lookup_insert_eq in Hc.
  - assert (Hloop : ∀ vs h h1 vs',
      forEach (deepClone depth) vs h = (h1, Return vs') →
      h ⊆ h1 ∧
      ∀ w, In w vs' →
        liveTo depth h1 w = true ∧ ∀ l, reachable h1 w l → h !! l = None).
    { clear -IH. induction vs as [|x vs IHvs]; intros h h1 vs'.
      - intros [= <- <-]. split; [done | by intros w []].
      - cbn [forEach]. rewrite !run_bind.
        pose proof (extends_deepClone depth x h) as Hext1.
        destruct (deepClone depth x h) as [ha [va|e]] eqn:Hclone; [| done].
        cbn [fst] in Hext1. rewrite run_bind.
        destruct (forEach _ vs ha) as [hb [vs2|e]] eqn:Hrest; [| done].
        rewrite run_ret. intros [= <- <-].
        destruct (IHvs _ _ _ Hrest) as [Hext2 Hvs2].
        destruct (IH _ _ _ _ Hclone) as [Hlive Hnew].
        split; [by etrans |]. intros w [<- | Hin].
        + split; [by eapply liveTo_weaken |]. intros l Hr.
          apply Hnew. by eapply reachable_shrink.
        + destruct (Hvs2 w Hin) as [Hlive' Hnew'].
          split; [done |]. intros l Hr.
          eapply lookup_weaken_None; [by apply Hnew' | done]. }
    specialize (Hloop items h).
    destruct (forEach _ items h) as [h1 [items'|e]]; [| done].
    destruct (Hloop h1 items' eq_refl) as [Hext Hitems].
    cbn. intros [= <- <-].
    pose proof (alloc_fresh h1) as Hfresh.
    assert (Hsub : h1 ⊆ <[fresh (dom h1) := CArr items']> h1)
      by by apply insert_subseteq.
    split.
    + cbn [liveTo]. rewrite lookup_insert_eq. apply forallb_forall.
      intros w Hin. eapply liveTo_weaken; [done | by apply Hitems].
    + intros l' Hr.
      apply reachable_ref_inv in Hr
        as [-> | [(fs & key & w & Hc & _) | (its & w & Hc & Hin & Hr)]].
      * by eapply lookup_weaken_None.
      * by rewrite lookup_insert_eq in Hc.
      * rewrite lookup_insert_eq in Hc. injection Hc as <-.
        destruct (Hitems _ Hin) as [Hlive Hnew]. apply Hnew.
        by eapply reachable_shrink.
Qed.

(** With room on the stack for its depth, a structure without dangling
    reference is copied: the copy returns. *)
Lemma deepClone_returns depth v h :
  liveTo depth h v = true → ∃ h' v', deepClone depth v h = (h', Return v').
Proof.
  revert v h. induction depth as [|depth IH]; intros v h;
    destruct v; try done; try (intros _; by eexists _, _).
  cbn [liveTo deepClone]. rewrite run_bind. unfold read at 1.
  destruct (h !! l) as [[fields | items]|]; [| | done]; intros Hlive;
    rewrite run_bind.
  - assert (Hloop : ∀ fs h,
      forallb (λ kv : string * hval, liveTo depth h kv.2) fs = true →
      ∃ h1 fs',
        forEach (λ kv : string * hval, v ← deepClone depth kv.2; mret (kv.1, v))
          fs h = (h1, Return fs')).
    { clear -IH. induction fs as [|kv fs IHfs]; intros h Hfs.
      - by eexists _, _.
      - cbn [forallb forEach] in *. apply andb_true_iff in Hfs as [Hkv Hfs].
        rewrite !run_bind.
        pose proof (extends_deepClone depth kv.2 h) as Hext.
        destruct (IH _ _ Hkv) as (ha & va & Hclone). rewrite Hclone in Hext |- *.
        cbn [fst] in Hext. rewrite run_ret, run_bind.
        destruct (IHfs ha) as (hb & fs2 & Hrest).
        { apply forallb_forall. intros kv' Hin.
          rewrite forallb_forall in Hfs.
          by eapply liveTo_weaken, Hfs. }
        rewrite Hrest. by eexists _, _. }
    destruct (Hloop fields h Hlive) as (h1 & fields' & ->). by eexists _, _.
  - assert (Hloop : ∀ vs h,
      forallb (liveTo depth h) vs = true →
      ∃ h1 vs', forEach (deepClone depth) vs h = (h1, Return vs')).
    { clear -IH. induction vs as [|x vs IHvs]; intros h Hvs.
      - by eexists _, _.
      - cbn [forallb forEach] in *. apply andb_true_iff in Hvs as [Hx Hvs].
        rewrite !run_bind.
        pose proof (extends_deepClone depth x h) as Hext.
        destruct (IH _ _ Hx) as (ha & va & Hclone). rewrite Hclone in Hext |- *.
        cbn [fst] in Hext. rewrite run_bind.
        destruct (IHvs ha) as (hb & vs2 & Hrest).
        { apply forallb_forall. intros x' Hin.
          rewrite forallb_forall in Hvs.
          by eapply liveTo_weaken, Hvs. }
        rewrite Hrest. by eexists _, _. }
    destruct (Hloop items h Hlive) as (h1 & items' & ->). by eexists _, _.
Qed.

(** ** The engine leaves the original alone *)

Lemma getField_setField_ne fs key key2 x :
  key ≠ key2 → getField (setField fs key x) key2 = getField fs key2.
Proof.
  intros Hne. induction fs as [|[k v] rest IH]; cbn [setField getField].
  - by destruct (String.eqb_spec key key2).
  - destruct (String.eqb_spec k key) as [-> | Hk]; cbn [getField].
    + by destruct (String.eqb_spec key key2).
    + by rewrite IH.
Qed.

Lemma getField_deleteField_ne fs key key2 :
  key ≠ key2 → getField (deleteField fs key) key2 = getField fs key2.
Proof.
  intros Hne. unfold deleteField.
  induction fs as [|[k v] rest IH]; [done |]. cbn [List.filter fst getField].
  destruct (String.eqb_spec k key) as [-> | Hk]; cbn [negb getField].
  - by destruct (String.eqb_spec key key2).
  - by rewrite IH.
Qed.

Lemma getField_ref_In fs key l : getField fs key = HRef l → In (key, HRef l) fs.
Proof.
  induction fs as [|[k v] rest IH];
    [cbn [getField]; by destruct (Values.isInherited key) |]. cbn [getField].
  destruct (String.eqb_spec k key) as [-> | Hk].
  - intros ->. by left.
  - intros H. right. by apply IH.
Qed.

Lemma reachable_is_ref h v l : reachable h v l → ∃ l0, v = HRef l0.
Proof. destruct 1; eauto. Qed.

Lemma apart_sym h v w : apart h v w → apart h w v.
Proof. intros H l Hw Hv. by apply (H l). Qed.

(** Distinct fields of an object whose fields are pairwise apart. *)
Lemma getField_apart h fs k1 k2 :
  ForallOrdPairs (λ x y : string * hval, apart h x.2 y.2) fs →
  k1 ≠ k2 → apart h (getField fs k1) (getField fs k2).
Proof.
  intros Hpairs Hne.
  assert (Hone : ∀ x rest key,
    Forall (λ y : string * hval, apart h x y.2) rest →
    apart h x (getField rest key)).
  { intros x rest key Hall l Hx Hy.
    destruct (reachable_is_ref _ _ _ Hy) as [l0 Hl0].
    rewrite Forall_forall in Hall.
    apply (Hall _ (proj2 (list_elem_of_In _ _) (getField_ref_In _ _ _ Hl0)) l Hx).
    cbn. by rewrite <- Hl0. }
  induction Hpairs as [|kx rest Hhead _ IH]; [| destruct kx as [k x]];
    cbn [getField].
  - destruct (Values.isInherited k1); intros l Hl;
      by destruct (reachable_is_ref _ _ _ Hl).
  - cbn [snd] in Hhead.
    destruct (String.eqb_spec k k1) as [E1 | H1];
      destruct (String.eqb_spec k k2) as [E2 | H2].
    + congruence.
    + by apply Hone.
    + by apply apart_sym, Hone.
    + exact IH.
Qed.

(** A structure whose cells are the same in another store is the same
    structure there. *)
Lemma reachable_stable d (h h' : heap) v :
  liveTo d h v = true →
  (∀ l, reachable h v l → h' !! l = h !! l) →
  liveTo d h' v = true ∧ ∀ l, reachable h' v l ↔ reachable h v l.
Proof.
  revert v. induction d as [|d IH]; intros v; destruct v;
    try (intros _ _; split; [done |]; intros l0; split; inversion 1); try done.
  cbn [liveTo]. destruct (h !! l) as [c|] eqn:Hl; [| done].
  intros Hlive Hsame.
  assert (Hl' : h' !! l = Some c)
    by (rewrite (Hsame l); [done | by eapply reach_self]).
  rewrite Hl'. destruct c as [fields | items].
  - rewrite forallb_forall in Hlive.
    assert (Hkids : ∀ kv, In kv fields →
      liveTo d h' kv.2 = true ∧ ∀ l0, reachable h' kv.2 l0 ↔ reachable h kv.2 l0).
    { intros [k x] Hin. apply IH; [by apply (Hlive (k, x)) |].
      intros l0 Hr. apply Hsame. by eapply reach_field. }
    split; [apply forallb_forall; intros kv Hin; by apply Hkids |].
    intros l0. split; intros Hr; apply reachable_ref_inv in Hr
      as [-> | [(fs & key & w & Hc & Hin & Hr) | (its & w & Hc & _)]];
      try (by eapply reach_self); try congruence.
    + assert (fs = fields) as -> by congruence.
      eapply reach_field; [done | done |]. by apply (Hkids (key, w)).
    + assert (fs = fields) as -> by congruence.
      eapply reach_field; [done | done |]. by apply (Hkids (key, w)).
  - rewrite forallb_forall in Hlive.
    assert (Hkids : ∀ x, In x items →
      liveTo d h' x = true ∧ ∀ l0, reachable h' x l0 ↔ reachable h x l0).
    { intros x Hin. apply IH; [by apply Hlive |].
      intros l0 Hr. apply Hsame. by eapply reach_item. }
    split; [apply forallb_forall; intros x Hin; by apply Hkids |].
    intros l0. split; intros Hr; apply reachable_ref_inv in Hr
      as [-> | [(fs & key & w & Hc & _) | (its & w & Hc & Hin & Hr)]];
      try (by eapply reach_self); try congruence.
    + assert (its = items) as -> by congruence.
      eapply reach_item; [done | done |]. by apply (Hkids w).
    + assert (its = items) as -> by congruence.
      eapply reach_item; [done | done |]. by apply (Hkids w).
Qed.

(** The copies of the fields of an object: each is made of cells created
    by the copying, and no two of them have a cell in common. *)
Lemma cloneFields_structure depth fs h h1 fs' :
  forEach (λ kv : string * hval, v ← deepClone depth kv.2; mret (kv.1, v))
    fs h = (h1, Return fs') →
  h ⊆ h1 ∧
  Forall (λ kv : string * hval,
            liveTo depth h1 kv.2 = true ∧
            ∀ l, reachable h1 kv.2 l → h !! l = None) fs' ∧
  ForallOrdPairs (λ x y : string * hval, apart h1 x.2 y.2) fs'.
Proof.
  revert h h1 fs'. induction fs as [|kv fs IH]; intros h h1 fs'.
  - intros [= <- <-]. split; [done |]. split; constructor.
  - cbn [forEach]. rewrite !run_bind.
    pose proof (extends_deepClone depth kv.2 h) as Hext1.
    destruct (deepClone depth kv.2 h) as [ha [va|e]] eqn:Hclone; [| done].
    cbn [fst] in Hext1. rewrite run_ret, run_bind.
    destruct (forEach _ fs ha) as [hb [fs2|e]] eqn:Hrest; [| done].
    rewrite run_ret. intros [= <- <-].
    destruct (IH _ _ _ Hrest) as (Hext2 & Hall & Hpairs).
    destruct (deepClone_structure _ _ _ _ _ Hclone) as [Hlive Hnew].
    assert (Hshrink : ∀ l, reachable hb va l → reachable ha va l)
      by (intros l; by eapply reachable_shrink).
    split; [by etrans |]. split; [| constructor; [| done]].
    + constructor; cbn [snd].
      * split; [by eapply liveTo_weaken | by intros l Hr; apply Hnew, Hshrink].
      * eapply Forall_impl; [exact Hall |]. intros y [Hy1 Hy2]. split; [done |].
        intros l Hr. eapply lookup_weaken_None; [by apply Hy2 | done].
    + cbn [snd]. apply Forall_forall. intros y Hy l Hva Hyl.
      rewrite Forall_forall in Hall.
      destruct (Hall y Hy) as [_ Hy2].
      destruct (reachable_live _ _ _ (Hshrink _ Hva)) as [c Hc].
      by rewrite (Hy2 l Hyl) in Hc.
Qed.
(** The copy of an object: a new object whose fields hold isolated
    structures, pairwise apart. *)
Lemma deepClone_fields_isolated depth l h h1 v fields keys :
  h !! l = Some (CObj fields) →
  deepClone depth (HRef l) h = (h1, Return v) →
  ∃ n, v = HRef n ∧ h !! n = None ∧ fieldsIsolated h n h1 keys.
Proof.
  intros Hl. destruct depth as [|depth]; [done |]. cbn [deepClone].
  rewrite run_bind. unfold read at 1. rewrite Hl, run_bind.
  destruct (forEach _ fields h) as [hb [fs'|e]] eqn:Hloop; [| done].
  destruct (cloneFields_structure _ _ _ _ _ Hloop) as (Hext & Hall & Hpairs).
  cbn. intros [= <- <-].
  pose proof (alloc_fresh hb) as Hfresh. set (n := fresh (dom hb)) in *.
  assert (Hsub : hb ⊆ <[n := CObj fs']> hb) by by apply insert_subseteq.
  assert (Hfield : ∀ key,
    liveTo depth hb (getField fs' key) = true ∧
    ∀ l0, reachable hb (getField fs' key) l0 → h !! l0 = None).
  { intros key. destruct (getField fs' key) eqn:Hv;
      try (split; [by destruct depth | by inversion 1]).
    rewrite Forall_forall in Hall.
    apply (Hall (key, HRef l0)), list_elem_of_In. by apply getField_ref_In. }
  exists n. split; [done |]. split; [by eapply lookup_weaken_None |].
  exists fs'. split; [by rewrite lookup_insert_eq |]. split.
  - intros key _. destruct (Hfield key) as [Hlive Hnew]. split.
    + exists depth. by eapply liveTo_weaken.
    + intros l0 Hr. apply (reachable_shrink depth hb) in Hr; [| done | done].
      split; [by apply Hnew |]. intros ->.
      destruct (reachable_live _ _ _ Hr) as [c Hc]. congruence.
  - intros k1 k2 _ _ Hne l0 Hr1 Hr2.
    destruct (Hfield k1) as [Hlive1 _]. destruct (Hfield k2) as [Hlive2 _].
    apply (reachable_shrink depth hb) in Hr1; [| done | done].
    apply (reachable_shrink depth hb) in Hr2; [| done | done].
    by apply (getField_apart hb fs' k1 k2 Hpairs Hne l0).
Qed.

Lemma deepClone_array depth l h h1 v items :
  h !! l = Some (CArr items) →
  deepClone depth (HRef l) h = (h1, Return v) →
  ∃ n items', v = HRef n ∧ h1 !! n = Some (CArr items').
Proof.
  intros Hl. destruct depth as [|depth]; [done |]. cbn [deepClone].
  rewrite run_bind. unfold read at 1. rewrite Hl, run_bind.
  destruct (forEach _ items h) as [hb [items'|e]]; [| done].
  cbn. intros [= <- <-]. eexists _, _. by rewrite lookup_insert_eq.
Qed.

(** On an array the field loop stops at once, before any write. *)
Lemma applyFields_array fields n h items :
  h !! n = Some (CArr items) → (applyFields fields (HRef n) h).1 = h.
Proof.
  intros Hn. destruct fields as [|[key [x | f]] rest]; [done | |];
    cbn [applyFields]; rewrite run_bind.
  - rewrite run_ret, run_bind.
    destruct (isUndefined x); cbn [deleteProperty setProperty withFields];
      rewrite run_bind; unfold read at 1; by rewrite Hn.
  - rewrite run_bind. cbn [getProperty withFields].
    rewrite run_bind. unfold read at 1. by rewrite Hn.
Qed.

Section frame_update.
Variable P : loc → Prop.
Variable h0 : heap.
Hypothesis P_live : ∀ l, P l → is_Some (h0 !! l).
Hypothesis P_clean : ∀ l c, P l → h0 !! l = Some c → cleanCell c = true.

(** A respectful function leaves [P] alone when no cell of [P] is part of
    its argument. *)
Lemma respects_agree f v h :
  respects P h0 f → agree P h0 h → (∀ l, reachable h v l → ¬ P l) →
  agree P h0 (f v h).1.
Proof.
  intros Hf Hh Hout l Hl. destruct (P_live l Hl) as [c Hc]. rewrite Hc.
  apply Hf; [by rewrite (Hh l Hl) | by intros Hr; apply (Hout l) | by left].
Qed.

Lemma fieldsIsolated_transfer n h h' keys keys' fs fs' :
  h !! n = Some (CObj fs) → h' !! n = Some (CObj fs') →
  (∀ key, In key keys' → In key keys ∧ getField fs' key = getField fs key) →
  (∀ key l, In key keys' → reachable h (getField fs key) l →
            h' !! l = h !! l) →
  fieldsIsolated h0 n h keys → fieldsIsolated h0 n h' keys'.
Proof.
  intros Hn Hn' Hkeys Hsame (fs0 & Hn0 & Hiso & Hapart).
  assert (fs0 = fs) as -> by congruence.
  assert (Hst : ∀ key, In key keys' →
    isolated h0 n h' (getField fs key) ∧
    ∀ l, reachable h' (getField fs key) l ↔ reachable h (getField fs key) l).
  { intros key Hin. destruct (Hkeys key Hin) as [Hin0 _].
    destruct (Hiso key Hin0) as [[d Hlive] Hnew].
    destruct (reachable_stable d h h' _ Hlive (λ l, Hsame key l Hin))
      as [Hlive' Hiff].
    split; [| done]. split; [by eauto |]. intros l Hr. by apply Hnew, Hiff. }
  exists fs'. split; [done |]. split.
  - intros key Hin. destruct (Hkeys key Hin) as [_ ->]. by apply Hst.
  - intros k1 k2 H1 H2 Hne.
    destruct (Hkeys k1 H1) as [H1' ->]. destruct (Hkeys k2 H2) as [H2' ->].
    intros l Hr1 Hr2. apply (Hapart k1 k2 H1' H2' Hne l); by apply Hst.
Qed.

(** [newDocument[key] = result] and [delete newDocument[key]] on the
    copy. *)
Lemma assign_step n h key rest fs fs' :
  agree P h0 h → h0 !! n = None → h !! n = Some (CObj fs) →
  ¬ In key rest →
  (∀ key2, key ≠ key2 → getField fs' key2 = getField fs key2) →
  fieldsIsolated h0 n h rest →
  agree P h0 (<[n := CObj fs']> h) ∧
  fieldsIsolated h0 n (<[n := CObj fs']> h) rest.
Proof.
  intros Hh Hnew Hn Hkey Hfs Hiso. split.
  - intros l Hl. rewrite lookup_insert_ne; [by apply Hh |].
    intros <-. destruct (P_live _ Hl). congruence.
  - eapply (fieldsIsolated_transfer n h _ rest rest fs fs');
      [done | by rewrite lookup_insert_eq | | | done].
    + intros key2 Hin. split; [done |]. apply Hfs. by intros ->.
    + intros key2 l Hin Hr. rewrite lookup_insert_ne; [done |].
      destruct Hiso as (fs0 & Hn0 & Hiso & _).
      assert (fs0 = fs) as -> by congruence.
      destruct (Hiso key2 Hin) as [_ Hout]. intros <-.
      by destruct (Hout n Hr).
Qed.

(** A call of a per-field function on the field [key] of the copy. *)
Lemma callback_step n h key rest fs f :
  respects P h0 f →
  agree P h0 h → h0 !! n = None → h !! n = Some (CObj fs) →
  ¬ In key rest →
  fieldsIsolated h0 n h (key :: rest) →
  agree P h0 (f (getField fs key) h).1 ∧
  (f (getField fs key) h).1 !! n = Some (CObj fs) ∧
  fieldsIsolated h0 n (f (getField fs key) h).1 rest.
Proof.
  intros Hf Hh Hnew Hn Hkey (fs0 & Hn0 & Hiso & Hapart).
  assert (fs0 = fs) as -> by congruence.
  destruct (Hiso key (or_introl eq_refl)) as [_ Hout].
  assert (Hn' : (f (getField fs key) h).1 !! n = Some (CObj fs)).
  { apply Hf; [done | | by right]. intros Hr. by destruct (Hout n Hr). }
  split; [| split; [done |]].
  - apply respects_agree; [done | done |]. intros l Hr Hl.
    destruct (P_live _ Hl) as [c Hc]. destruct (Hout l Hr). congruence.
  - eapply (fieldsIsolated_transfer n h _ (key :: rest) rest fs fs);
      [done | done | | | by exists fs].
    + intros key2 Hin. split; [by right | done].
    + intros key2 l Hin Hr.
      destruct (reachable_live _ _ _ Hr) as [c Hc]. rewrite Hc.
      destruct (Hiso key2 (or_intror Hin)) as [_ Hout2].
      apply Hf; [done | | right; by apply (Hout2 l)].
      apply (Hapart key2 key (or_intror Hin) (or_introl eq_refl));
        [by intros -> | done].
Qed.

(** The field loop leaves [P] alone. *)
Lemma applyFields_agree fields n h :
  NoDup fields.*1 →
  (∀ key f, In (key, UFunction f) fields → respects P h0 f) →
  agree P h0 h → h0 !! n = None →
  fieldsIsolated h0 n h fields.*1 →
  agree P h0 (applyFields fields (HRef n) h).1.
Proof.
  revert h. induction fields as [|[key value] rest IH];
    intros h Hnodup Hcb Hh Hnew Hiso; [done |].
  apply NoDup_cons in Hnodup as [Hkey Hnodup].
  rewrite list_elem_of_In in Hkey. cbn [fmap list_fmap fst] in Hiso.
  assert (Hcb' : ∀ key f, In (key, UFunction f) rest → respects P h0 f)
    by (intros key' f' Hin; apply (Hcb key' f'); by right).
  pose proof Hiso as (fs & Hn & _).
  assert (Hwrite : ∀ h1 result,
    agree P h0 h1 → h1 !! n = Some (CObj fs) →
    fieldsIsolated h0 n h1 rest.*1 →
    agree P h0
      (((if isUndefined result
         then deleteProperty (HRef n) key
         else setProperty (HRef n) key result);;
        applyFields rest (HRef n)) h1).1).
  { intros h1 result Hh1 Hn1 Hiso1. rewrite run_bind.
    destruct (isUndefined result);
      cbn [deleteProperty setProperty withFields];
      rewrite run_bind; unfold read at 1; rewrite Hn1; unfold write at 1.
    - destruct (assign_step n h1 key rest.*1 fs (deleteField fs key))
        as [Hh2 Hiso2]; try done.
      { intros key2 Hne. by apply getField_deleteField_ne. }
      by apply IH.
    - destruct (assign_step n h1 key rest.*1 fs (setField fs key result))
        as [Hh2 Hiso2]; try done.
      { intros key2 Hne. by apply getField_setField_ne. }
      by apply IH. }
  cbn [applyFields]. rewrite run_bind. destruct value as [x | f].
  - rewrite run_ret. apply Hwrite; [done | done |].
    eapply (fieldsIsolated_transfer n h h (key :: rest.*1) rest.*1 fs fs);
      [done | done | | done | done].
    intros key2 Hin. split; [by right | done].
  - rewrite run_bind. cbn [getProperty withFields].
    rewrite run_bind. unfold read at 1. rewrite Hn, run_ret.
    destruct (callback_step n h key rest.*1 fs f) as (Hh1 & Hn1 & Hiso1);
      try done.
    { apply (Hcb key f). by left. }
    destruct (f (getField fs key) h) as [h1 [result|e]]; [| done].
    by apply Hwrite.
Qed.

(** [updateDocument] leaves [P] alone. *)
Lemma updateDocument_agree depth document update :
  callbacksRespect P h0 update →
  agree P h0 (updateDocument depth document update h0).1.
Proof.
  intros Hcb. unfold updateDocument. rewrite run_bind.
  assert (Hh0 : agree P h0 h0) by done.
  pose proof (keeps_deepClone P h0 P_live depth (HRef document) h0 Hh0) as Hh1.
  destruct (deepClone depth (HRef document) h0) as [h1 [v|e]] eqn:Hclone;
    [| done].
  cbn [fst] in Hh1.
  destruct (deepClone_ref_fresh _ _ _ _ _ Hclone) as (n & -> & Hnew).
  destruct update as [fields | f].
  - destruct Hcb as [Hnodup Hcb]. rewrite run_bind.
    assert (Hloop : agree P h0 (applyFields fields (HRef n) h1).1).
    { destruct (h0 !! document) as [[fields0 | items0]|] eqn:Hdoc.
      - destruct (deepClone_fields_isolated _ _ _ _ _ _ fields.*1 Hdoc Hclone)
          as (n' & [= <-] & _ & Hiso).
        by apply applyFields_agree.
      - destruct (deepClone_array _ _ _ _ _ _ Hdoc Hclone)
          as (n' & items' & [= <-] & Hn).
        by rewrite (applyFields_array _ _ _ _ Hn).
      - destruct depth; [done |]. cbn [deepClone] in Hclone.
        rewrite run_bind in Hclone. unfold read at 1 in Hclone.
        by rewrite Hdoc in Hclone. }
    destruct (applyFields fields (HRef n) h1) as [h2 [[]|e]]; [| done].
    by apply keeps_normaliseAndCopy.
  - rewrite run_bind.
    assert (Hh2 : agree P h0 (f (HRef n) h1).1).
    { apply respects_agree; [done | done |]. intros l Hr Hl.
      destruct (P_live _ Hl) as [c Hc].
      by rewrite (proj2 (deepClone_structure _ _ _ _ _ Hclone) l Hr) in Hc. }
    destruct (f (HRef n) h1) as [h2 [newDocument|e]]; [| done].
    cbn [fst] in Hh2. revert h2 Hh2.
    change (keeps P h0
      (if negb (truthy newDocument) then mret HNull
       else object ← isObject newDocument;
            if negb object
            then throw (TypeError "Document must be an object")
            else normaliseAndCopy depth newDocument)).
    destruct (negb (truthy newDocument)); [apply keeps_ret |].
    apply keeps_bind; [apply keeps_isObject |]. intros object.
    destruct (negb object); [apply keeps_throw |].
    by apply keeps_normaliseAndCopy.
Qed.

End frame_update.

(** A transform that assigns to a field of the document it is given, and
    returns some value, writes only to what it is given. *)
Lemma respects_assign P h0 key x (result : hval → hval) :
  respects P h0 (λ v, setProperty v key x;; mret (result v)).
Proof.
  intros v h l c Hl Hout _. rewrite run_bind.
  destruct v; try done. cbn [setProperty withFields].
  rewrite run_bind. unfold read at 1.
  destruct (h !! l0) as [[fields | items]|] eqn:Hl0; [| done | done].
  cbn. rewrite lookup_insert_ne; [done |].
  intros <-. apply Hout. by eapply reach_self.
Qed.

(** So does a function that reads its argument and returns a value. *)
Lemma respects_pure P h0 (result : hval → hval) :
  respects P h0 (λ v, mret (result v)).
Proof. by intros v h l c Hl _ _. Qed.


(** ** The result of an update *)

Lemma forEach_length {A B} (f : A → M B) (l : list A) h h' ys :
  forEach f l h = (h', Return ys) → length ys = length l.
Proof.
  revert h ys. induction l as [|x rest IH]; intros h ys.
  - by intros [= <- <-].
  - cbn [forEach]. rewrite run_bind.
    destruct (f x h) as [ha [y|e]]; [| done]. rewrite run_bind.
    destruct (forEach f rest ha) as [hb [ys'|e]] eqn:Hrest; [| done].
    rewrite run_ret. intros [= <- <-]. cbn. f_equal. by eapply IH.
Qed.

(** The copy of an object or array is a new cell of the same kind, with as
    many fields or items. *)
Lemma deepClone_cell depth l h h' v c :
  h !! l = Some c →
  deepClone depth (HRef l) h = (h', Return v) →
  ∃ clone c', v = HRef clone ∧ h' !! clone = Some c' ∧
              cellEmpty c' = cellEmpty c.
Proof.
  intros Hl. destruct depth as [|depth]; [done |]. cbn [deepClone].
  rewrite run_bind. unfold read at 1. rewrite Hl.
  destruct c as [fields | items]; rewrite run_bind.
  - destruct (forEach _ fields h) as [h1 [fields'|e]] eqn:Hloop; [| done].
    apply forEach_length in Hloop.
    cbn. intros [= <- <-]. eexists _, (CObj fields'). rewrite lookup_insert_eq.
    split; [done |]. split; [done |].
    by destruct fields, fields'.
  - destruct (forEach _ items h) as [h1 [items'|e]] eqn:Hloop; [| done].
    apply forEach_length in Hloop.
    cbn. intros [= <- <-]. eexists _, (CArr items'). rewrite lookup_insert_eq.
    split; [done |]. split; [done |].
    by destruct items, items'.
Qed.

(** What the last statements of [updateDocument] return: [null], or a
    normalised copy that is not empty. *)
Lemma normaliseAndCopy_result depth l h h' v :
  normaliseAndCopy depth (HRef l) h = (h', Return v) →
  v = HNull ∨
  (cleanTo depth h' v = true ∧
   ∃ result c, v = HRef result ∧ h' !! result = Some c ∧ cellEmpty c = false).
Proof.
  unfold normaliseAndCopy, prepareObject. rewrite run_bind.
  pose proof (prepare_clean depth (HRef l) h) as Hclean.
  destruct (prepare depth (HRef l) h) as [h1 [[]|e]]; [| done].
  specialize (Hclean h1 eq_refl).
  rewrite run_bind. cbn [isObjectEmpty]. rewrite run_bind. unfold read at 1.
  destruct (h1 !! l) as [c1|] eqn:Hl1; [| done]. rewrite run_ret.
  destruct (cellEmpty c1) eqn:Hempty.
  - intros [= <- <-]. by left.
  - intros Hclone. right. split; [by eapply deepClone_clean |].
    destruct (deepClone_cell _ _ _ _ _ _ Hl1 Hclone)
      as (clone & c' & -> & Hc & Hsame).
    exists clone, c'. split; [done |]. split; [done |]. congruence.
Qed.

(** A field-map update on a small document: [a] is replaced, [b] is
    removed by a function that returns [undefined], [c] is added; the
    result is a new object and the original is as it was. *)
Example updateDocument_fields :
  let h : heap :=
    {[ 1%positive := CObj [("a", HNum 1); ("b", HStr "x")] ]} in
  let update :=
    UpdateFields [("a", UValue (HNum 2)); ("b", UFunction (λ _, mret HUndefined));
                  ("c", UValue HNull)] in
  let run := updateDocument 3 1 update h in
  run.2 = Return (HRef 3) ∧
  run.1 !! 3%positive = Some (CObj [("a", HNum 2); ("c", HNull)]) ∧
  run.1 !! 1%positive = Some (CObj [("a", HNum 1); ("b", HStr "x")]).
Proof. by vm_compute. Qed.

(** C3 (as amended). What a whole-document transform returns decides the
    outcome. When it returns a value that is truthy and is not an object
    (a non-zero number, a non-empty string, [true], an array),
    [updateDocument] throws the [TypeError] "Document must be an object".
    When it returns a falsy value ([undefined], [null], [false], [0], the
    empty string), [updateDocument] returns [null], the deletion signal,
    and throws nothing. In both cases the store is left as the transform
    left it: up to the call of the transform the engine has only added
    cells, and after it has returned the engine writes nothing; so the
    original document, with everything it reaches, is as it was before the
    call whenever the transform writes only to what it is given. *)
Theorem transform_truthy_non_object_throws
    depth document (f : Callback) (h h1 h2 : heap) clone result :
  deepClone depth (HRef document) h = (h1, Return clone) →
  f clone h1 = (h2, Return result) →
  (truthy result = true → isObjectIn h2 result = false →
   updateDocument depth document (UpdateFunction f) h =
     (h2, Throw (TypeError "Document must be an object"))) ∧
  (truthy result = false →
   updateDocument depth document (UpdateFunction f) h = (h2, Return HNull)) ∧
  h ⊆ h1 ∧
  (respects (reachable h (HRef document)) h f →
   ∀ l, reachable h (HRef document) l → h2 !! l = h !! l).
Proof.
  intros Hclone Hf. split; [| split; [| split]].
  - intros Htruthy Hobj.
    unfold updateDocument. rewrite run_bind, Hclone, run_bind, Hf, Htruthy.
    cbn [negb]. rewrite run_bind. unfold isObject at 1. by rewrite Hobj.
  - intros Hfalsy.
    unfold updateDocument. by rewrite run_bind, Hclone, run_bind, Hf, Hfalsy.
  - pose proof (extends_deepClone depth (HRef document) h) as Hext.
    by rewrite Hclone in Hext.
  - intros Hrespects.
    pose proof (keeps_deepClone (reachable h (HRef document)) h
      (λ l, reachable_live h _ l) depth (HRef document) h (λ _ _, eq_refl))
      as Hh1.
    rewrite Hclone in Hh1. cbn [fst] in Hh1.
    pose proof (respects_agree (reachable h (HRef document)) h
      (λ l, reachable_live h _ l) f clone h1 Hrespects Hh1) as Hh2.
    rewrite Hf in Hh2. apply Hh2. intros l Hr Hin.
    destruct (reachable_live _ _ _ Hin) as [c Hc].
    by rewrite (proj2 (deepClone_structure _ _ _ _ _ Hclone) l Hr) in Hc.
Qed.

Lemma transform_truthy_non_object_throws_witness :
  let h : heap := {[ 1%positive := CObj [("a", HNum 1)] ]} in
  let f : Callback := λ v, setProperty v "seen" (HBool true);; mret (HStr "done") in
  (updateDocument 5 1 (UpdateFunction f) h).2 =
    Throw (TypeError "Document must be an object") ∧
  (updateDocument 5 1 (UpdateFunction f) h).1 !! 1%positive =
    Some (CObj [("a", HNum 1)]).
Proof.
  intros h f.
  destruct (transform_truthy_non_object_throws 5 1 f h
              (deepClone 5 (HRef 1) h).1
              (f (HRef 2) (deepClone 5 (HRef 1) h).1).1
              (HRef 2) (HStr "done"))
    as (Hrun & _ & _ & Hsame).
  - by vm_compute.
  - by vm_compute.
  - rewrite (Hrun eq_refl eq_refl). split; [reflexivity |]. cbn [fst].
    rewrite Hsame; [reflexivity | | by eapply reach_self].
    apply (respects_assign _ _ "seen" (HBool true) (λ _, HStr "done")).
Defined.

(** C3 as stated does not hold, on two counts. A transform that returns
    [0], which is neither an object nor [null], makes [updateDocument]
    return [null], the deletion signal, and no error is raised. And a
    transform that holds the original document and writes to it before
    returning a string gets its [TypeError], but the original is not as it
    was: the engine cannot undo what the transform did. *)
Lemma transform_returning_zero_or_writing :
  let h : heap := {[ 1%positive := CObj [("a", HNum 1)] ]} in
  let zero : Callback := λ _, mret (HNum 0) in
  let writing : Callback :=
    λ _, setProperty (HRef 1) "a" (HNum 2);; mret (HStr "done") in
  (isObjectIn (zero (HRef 2) (deepClone 5 (HRef 1) h).1).1 (HNum 0) = false ∧
   HNum 0 ≠ HNull ∧
   (updateDocument 5 1 (UpdateFunction zero) h).2 = Return HNull ∧
   ¬ throws (updateDocument 5 1 (UpdateFunction zero) h).2) ∧
  ((updateDocument 5 1 (UpdateFunction writing) h).2 =
     Throw (TypeError "Document must be an object") ∧
   h !! 1%positive = Some (CObj [("a", HNum 1)]) ∧
   (updateDocument 5 1 (UpdateFunction writing) h).1 !! 1%positive =
     Some (CObj [("a", HNum 2)])).
Proof.
  intros h zero writing. split.
  - split; [reflexivity |]. split; [discriminate |].
    assert (Hrun : (updateDocument 5 1 (UpdateFunction zero) h).2 = Return HNull)
      by by vm_compute.
    split; [exact Hrun |]. rewrite Hrun. by intros [].
  - by vm_compute.
Qed.

(** C4. When [updateDocument] returns a document, no field of it holds
    [undefined] at any nesting depth, and it is not empty; and when
    normalising the working document leaves it without fields, the last
    statements of [updateDocument] return [null], the deletion signal,
    instead of a document. *)
Theorem update_result_is_normalised
    depth document update (h h' : heap) v :
  (updateDocument depth document update h = (h', Return v) →
   v = HNull ∨
   (cleanTo depth h' v = true ∧
    ∃ result c, v = HRef result ∧ h' !! result = Some c ∧
                cellEmpty c = false)) ∧
  (∀ newDocument h1,
     prepareObject depth (HRef newDocument) h = (h1, Return ()) →
     h1 !! newDocument = Some (CObj []) →
     normaliseAndCopy depth (HRef newDocument) h = (h1, Return HNull)).
Proof.
  split.
  - unfold updateDocument. rewrite run_bind.
    destruct (deepClone depth (HRef document) h) as [h1 [w|e]] eqn:Hclone;
      [| done].
    destruct (deepClone_ref_fresh _ _ _ _ _ Hclone) as (clone & -> & _).
    destruct update as [fields | f]; rewrite run_bind.
    + destruct (applyFields fields (HRef clone) h1) as [h2 [[]|e]]; [| done].
      apply normaliseAndCopy_result.
    + destruct (f (HRef clone) h1) as [h2 [newDocument|e]]; [| done].
      destruct (truthy newDocument); cbn [negb].
      * rewrite run_bind. unfold isObject at 1.
        destruct newDocument as [| | | | |l|]; try done.
        destruct (isObjectIn h2 (HRef l)); [| done].
        apply normaliseAndCopy_result.
      * intros [= <- <-]. by left.
  - intros newDocument h1 Hprepare Hcell. unfold normaliseAndCopy.
    rewrite run_bind, Hprepare, run_bind. cbn [isObjectEmpty].
    rewrite run_bind. unfold read at 1. by rewrite Hcell.
Qed.

Lemma update_result_is_normalised_witness :
  let h : heap :=
    {[ 1%positive := CObj [("a", HNum 1); ("n", HRef 2)];
       2%positive := CObj [("x", HUndefined); ("y", HStr "s")] ]} in
  let update :=
    UpdateFields [("a", UFunction (λ _, mret HUndefined));
                  ("b", UValue (HRef 2))] in
  let run := updateDocument 4 1 update h in
  run.2 = Return (HRef 7) ∧
  cleanTo 4 run.1 (HRef 7) = true ∧
  run.1 !! 7%positive = Some (CObj [("n", HRef 5); ("b", HRef 6)]).
Proof.
  intros h update run.
  assert (Hrun : updateDocument 4 1 update h = (run.1, Return (HRef 7)))
    by by vm_compute.
  destruct (proj1 (update_result_is_normalised 4 1 update h run.1 (HRef 7)) Hrun)
    as [Hnull | [Hclean _]]; [discriminate |].
  split; [by vm_compute |]. split; [exact Hclean | by vm_compute].
Defined.

(** C5. After [updateDocument], the original document and every object and
    array nested in it are as they were before the call, whatever the call
    returns or throws. The original is a stored document (no field of it,
    at any depth, holds [undefined]), and the functions of the update are
    the caller's: they are taken to write only to what they are given or
    create, or to objects of the caller's that are not part of the
    original. *)
Theorem update_leaves_original_unchanged
    depth document update (h : heap) :
  (∀ l c, reachable h (HRef document) l → h !! l = Some c →
          cleanCell c = true) →
  callbacksRespect (reachable h (HRef document)) h update →
  ∀ l, reachable h (HRef document) l →
       (updateDocument depth document update h).1 !! l = h !! l.
Proof.
  intros Hclean Hcb.
  exact (updateDocument_agree (reachable h (HRef document)) h
           (λ l, reachable_live h _ l) Hclean depth document update Hcb).
Qed.

Lemma update_leaves_original_unchanged_witness :
  let h : heap :=
    {[ 1%positive := CObj [("a", HNum 1); ("n", HRef 2)];
       2%positive := CObj [("y", HStr "s")] ]} in
  let update :=
    UpdateFields [("n", UFunction (λ v, setProperty v "y" HNull;; mret v));
                  ("a", UValue (HRef 2))] in
  let run := updateDocument 4 1 update h in
  run.2 = Return (HRef 7) ∧
  run.1 !! 7%positive = Some (CObj [("a", HRef 5); ("n", HRef 6)]) ∧
  run.1 !! 6%positive = Some (CObj [("y", HNull)]) ∧
  run.1 !! 1%positive = Some (CObj [("a", HNum 1); ("n", HRef 2)]) ∧
  run.1 !! 2%positive = Some (CObj [("y", HStr "s")]).
Proof.
  intros h update run.
  assert (Hclean : ∀ l c, reachable h (HRef 1) l → h !! l = Some c →
                          cleanCell c = true).
  { intros l c _ Hl.
    destruct (decide (l = 1%positive)) as [-> | H1];
      [by injection Hl as <- |].
    destruct (decide (l = 2%positive)) as [-> | H2];
      [by injection Hl as <- |].
    unfold h in Hl. by rewrite lookup_insert_ne, lookup_singleton_ne in Hl. }
  assert (Hcb : callbacksRespect (reachable h (HRef 1)) h update).
  { split.
    - cbn. apply NoDup_cons. split; [| apply NoDup_singleton].
      rewrite list_elem_of_In. by intros [? | []].
    - intros key f [Heq | [Heq | []]]; [| discriminate].
      injection Heq as <- <-. apply (respects_assign _ _ "y" HNull id). }
  pose proof (update_leaves_original_unchanged 4 1 update h Hclean Hcb) as Hsame.
  split; [by vm_compute |]. split; [by vm_compute |].
  split; [by vm_compute |]. split.
  - apply (Hsame 1%positive). by eapply reach_self.
  - apply (Hsame 2%positive).
    eapply reach_field; [reflexivity | right; left; reflexivity |].
    by eapply reach_self.
Defined.

(** ** The result is made of new cells *)

Lemma grows_ret {A} (a : A) : grows (mret a).
Proof. by intros h l. Qed.

Lemma grows_throw {A} e : grows (throw e : M A).
Proof. by intros h l. Qed.

Lemma grows_bind {A B} (m : M A) (f : A → M B) :
  grows m → (∀ a, grows (f a)) → grows (m ≫= f).
Proof.
  intros Hm Hf h l Hl. rewrite run_bind. specialize (Hm h l Hl).
  destruct (m h) as [h1 [a|e]]; [| done]. by apply Hf.
Qed.

Lemma grows_extends {A} (m : M A) : extends m → grows m.
Proof.
  intros Hm h l [c Hc]. exists c. eapply lookup_weaken; [exact Hc | apply Hm].
Qed.

Lemma grows_read l : grows (read l).
Proof. apply grows_extends, extends_read. Qed.

Lemma grows_write l c : grows (write l c).
Proof.
  intros h l' Hl'. unfold write. cbn [fst].
  destruct (decide (l = l')) as [<- | Hne].
  - rewrite lookup_insert_eq. eauto.
  - by rewrite lookup_insert_ne.
Qed.

Lemma grows_forEach {A B} (f : A → M B) (l : list A) :
  (∀ x, grows (f x)) → grows (forEach f l).
Proof.
  intros Hf. induction l as [|x rest IH]; [apply grows_ret |].
  cbn [forEach]. apply grows_bind; [apply Hf |]. intros y.
  apply grows_bind; [exact IH |]. intros ys. apply grows_ret.
Qed.

Lemma grows_withFields {A} target (k : loc → list (string * hval) → M A) :
  (∀ l fields, grows (k l fields)) → grows (withFields target k).
Proof.
  intros Hk. destruct target; try apply grows_throw. cbn [withFields].
  apply grows_bind; [apply grows_read |]. intros [fields | items];
    [apply Hk | apply grows_throw].
Qed.

Lemma grows_deepClone depth v : grows (deepClone depth v).
Proof. apply grows_extends, extends_deepClone. Qed.

Lemma grows_prepare depth v : grows (prepare depth v).
Proof.
  revert v. induction depth as [|depth IH]; intros v;
    destruct v; try apply grows_ret; [apply grows_throw |].
  cbn [prepare]. apply grows_bind; [apply grows_read |].
  intros [fields | items].
  - apply grows_bind; [apply grows_write |]. intros _.
    apply grows_bind; [| intros _; apply grows_ret].
    apply grows_forEach. intros kv. apply IH.
  - apply grows_bind; [| intros _; apply grows_ret].
    apply grows_forEach. exact IH.
Qed.

Lemma grows_applyFields fields newDocument :
  (∀ key f, In (key, UFunction f) fields → ∀ v, grows (f v)) →
  grows (applyFields fields newDocument).
Proof.
  induction fields as [|[key value] rest IH]; intros Hf; [apply grows_ret |].
  cbn [applyFields]. apply grows_bind.
  - destruct value as [v | f]; [apply grows_ret |].
    apply grows_bind.
    + apply grows_withFields. intros l fields. apply grows_ret.
    + intros current. apply (Hf key f). by left.
  - intros result. apply grows_bind.
    + destruct (isUndefined result); apply grows_withFields;
        intros l fields; apply grows_write.
    + intros _. apply IH. intros key' f Hin. apply (Hf key' f). by right.
Qed.

Lemma isObjectEmpty_store target h : (isObjectEmpty target h).1 = h.
Proof.
  destruct target; try done. cbn [isObjectEmpty]. rewrite run_bind.
  unfold read. by destruct (h !! l).
Qed.

Lemma normaliseAndCopy_new depth newDocument h h' v :
  normaliseAndCopy depth newDocument h = (h', Return v) →
  ∀ l, reachable h' v l → h !! l = None.
Proof.
  unfold normaliseAndCopy, prepareObject. rewrite run_bind.
  pose proof (grows_prepare depth newDocument h) as Hgrows.
  destruct (prepare depth newDocument h) as [h1 [[]|e]]; [| done].
  cbn [fst] in Hgrows. rewrite run_bind.
  pose proof (isObjectEmpty_store newDocument h1) as Hsame.
  destruct (isObjectEmpty newDocument h1) as [h2 [empty|e]]; [| done].
  cbn [fst] in Hsame. subst h2. destruct empty.
  - intros [= <- <-] l Hreach. by apply reachable_is_ref in Hreach as [? ?].
  - intros Hclone l Hreach.
    destruct (deepClone_structure _ _ _ _ _ Hclone) as [_ Hnew].
    specialize (Hnew l Hreach). destruct (h !! l) as [c|] eqn:Hl; [| done].
    destruct (Hgrows l) as [c1 Hc1]; [by rewrite Hl |]. congruence.
Qed.

(** X19. The document [updateDocument] returns is made of new cells only:
    no object or array it contains, at any depth, existed before the call.
    It shares nothing with the original document, with the values of the
    update, or with what the functions of the update returned. *)
Theorem update_result_is_new
    depth document update (h h' : heap) v :
  callbacksGrow update →
  updateDocument depth document update h = (h', Return v) →
  ∀ l, reachable h' v l → h !! l = None.
Proof.
  intros Hcallbacks. unfold updateDocument. rewrite run_bind.
  pose proof (grows_deepClone depth (HRef document) h) as Hclone.
  destruct (deepClone depth (HRef document) h) as [h1 [w|e]]; [| done].
  cbn [fst] in Hclone.
  assert (Hback : ∀ h2 : heap, (∀ l, is_Some (h1 !! l) → is_Some (h2 !! l)) →
            ∀ l, h2 !! l = None → h !! l = None).
  { intros h2 Hgrows l Hl. destruct (h !! l) as [c|] eqn:Hc; [| done].
    destruct (Hgrows l) as [c2 Hc2]; [apply Hclone; by rewrite Hc |].
    congruence. }
  destruct update as [fields | f]; rewrite run_bind.
  - pose proof (grows_applyFields fields w Hcallbacks h1) as Happly.
    destruct (applyFields fields w h1) as [h2 [[]|e]]; [| done].
    cbn [fst] in Happly. intros Hcopy l Hreach.
    apply (Hback h2 Happly). by eapply normaliseAndCopy_new.
  - pose proof (Hcallbacks w h1) as Hcall.
    destruct (f w h1) as [h2 [newDocument|e]]; [| done].
    cbn [fst] in Hcall. destruct (truthy newDocument); cbn [negb].
    + rewrite run_bind. unfold isObject at 1.
      destruct (isObjectIn h2 newDocument); [| done]. cbn [negb].
      intros Hcopy l Hreach.
      apply (Hback h2 Hcall). by eapply normaliseAndCopy_new.
    + intros [= <- <-] l Hreach.
      by apply reachable_is_ref in Hreach as [? ?].
Qed.

Lemma update_result_is_new_witness :
  let h : heap :=
    {[ 1%positive := CObj [("a", HNum 1); ("n", HRef 2)];
       2%positive := CObj [("y", HStr "s")];
       3%positive := CArr [HNum 7] ]} in
  let update := UpdateFields [("b", UValue (HRef 3))] in
  let run := updateDocument 4 1 update h in
  run.2 = Return (HRef 8) ∧
  reachable run.1 (HRef 8) 7 ∧
  h !! 7%positive = None.
Proof.
  intros h update run.
  assert (Hreach : reachable run.1 (HRef 8) 7).
  { apply (reach_field _ 8%positive
             [("a", HNum 1); ("n", HRef 6); ("b", HRef 7)] "b" (HRef 7)).
    - vm_compute. reflexivity.
    - right. right. by left.
    - apply (reach_self _ 7%positive (CArr [HNum 7])). vm_compute. reflexivity. }
  split; [vm_compute; reflexivity |]. split; [exact Hreach |].
  apply (update_result_is_new 4 1%positive update h run.1 (HRef 8)).
  - by intros key f [[=] | []].
  - vm_compute. reflexivity.
  - exact Hreach.
Defined.

(** ** Update values are normalised in place *)

Lemma strip_idempotent c : strip (strip c) = strip c.
Proof.
  destruct c as [fields | items]; [| done]. cbn [strip]. f_equal.
  apply definedFields_clean, definedFields_are_defined.
Qed.

Lemma stripped_refl h : stripped h h.
Proof. intros l c Hc. by left. Qed.

Lemma stripped_trans h1 h2 h3 :
  stripped h1 h2 → stripped h2 h3 → stripped h1 h3.
Proof.
  intros H12 H23 l c Hc. destruct (H12 l c Hc) as [H2 | H2].
  - by apply H23.
  - destruct (H23 l _ H2) as [H3 | H3]; [by right |].
    rewrite strip_idempotent in H3. by right.
Qed.

Lemma strips_ret {A} (a : A) : strips (mret a).
Proof. intros h. apply stripped_refl. Qed.

Lemma strips_throw {A} e : strips (throw e : M A).
Proof. intros h. apply stripped_refl. Qed.

Lemma strips_bind {A B} (m : M A) (f : A → M B) :
  strips m → (∀ a, strips (f a)) → strips (m ≫= f).
Proof.
  intros Hm Hf h. rewrite run_bind. specialize (Hm h).
  destruct (m h) as [h1 [a|e]]; [| done].
  eapply stripped_trans; [exact Hm | apply Hf].
Qed.

Lemma strips_forEach {A B} (f : A → M B) (l : list A) :
  (∀ x, strips (f x)) → strips (forEach f l).
Proof.
  intros Hf. induction l as [|x rest IH]; [apply strips_ret |].
  cbn [forEach]. apply strips_bind; [apply Hf |]. intros y.
  apply strips_bind; [exact IH |]. intros ys. apply strips_ret.
Qed.

Lemma stripped_write (h : heap) l c :
  h !! l = Some c → stripped h (<[l := strip c]> h).
Proof.
  intros Hl l' c' Hc'. destruct (decide (l = l')) as [<- | Hne].
  - rewrite lookup_insert_eq. right. congruence.
  - rewrite lookup_insert_ne by done. by left.
Qed.

Lemma strips_prepare depth v : strips (prepare depth v).
Proof.
  revert v. induction depth as [|depth IH]; intros v;
    destruct v; try apply strips_ret; [apply strips_throw |].
  intros h. cbn [prepare]. rewrite run_bind. unfold read at 1.
  destruct (h !! l) as [[fields | items]|] eqn:Hl; [| | apply stripped_refl].
  - rewrite run_bind. unfold write at 1.
    eapply stripped_trans; [exact (stripped_write h l _ Hl) |].
    cbn [strip].
    apply (strips_bind
             (forEach (λ kv : string * hval, prepare depth kv.2)
                (definedFields fields)) (λ _, mret tt)).
    + apply strips_forEach. intros kv. apply IH.
    + intros _. apply strips_ret.
  - apply (strips_bind (forEach (prepare depth) items) (λ _, mret tt)).
    + by apply strips_forEach.
    + intros _. apply strips_ret.
Qed.

Lemma prepare_strips_target depth l h h' c :
  h !! l = Some c →
  prepare depth (HRef l) h = (h', Return ()) →
  h' !! l = Some (strip c).
Proof.
  intros Hl. destruct depth as [|depth]; [done |]. cbn [prepare].
  rewrite run_bind. unfold read at 1. rewrite Hl.
  destruct c as [fields | items].
  - rewrite run_bind. unfold write at 1. rewrite run_bind.
    pose proof (strips_forEach (λ kv : string * hval, prepare depth kv.2)
                  (definedFields fields) (λ kv, strips_prepare depth kv.2)
                  (<[l := CObj (definedFields fields)]> h)) as Hloop.
    destruct (forEach _ (definedFields fields) _) as [h1 [ys|e]]; [| done].
    intros [= <-]. cbn [fst] in Hloop.
    destruct (Hloop l (CObj (definedFields fields))) as [H | H];
      [by rewrite lookup_insert_eq | done |].
    change (strip (CObj (definedFields fields)))
      with (strip (strip (CObj fields))) in H.
    by rewrite strip_idempotent in H.
  - rewrite run_bind.
    pose proof (strips_forEach (prepare depth) items (strips_prepare depth) h)
      as Hloop.
    destruct (forEach _ items h) as [h1 [ys|e]]; [| done].
    intros [= <-]. cbn [fst] in Hloop.
    by destruct (Hloop l (CArr items) Hl).
Qed.

Lemma forEach_visits {A B} (f : A → M B) (l : list A) x h h' ys :
  (∀ x, strips (f x)) →
  forEach f l h = (h', Return ys) → In x l →
  ∃ ha hb y, stripped h ha ∧ f x ha = (hb, Return y) ∧ stripped hb h'.
Proof.
  intros Hf. revert h ys. induction l as [|x0 rest IH]; intros h ys;
    [by intros _ [] |].
  cbn [forEach]. rewrite run_bind.
  pose proof (Hf x0 h) as Hfirst.
  destruct (f x0 h) as [h1 [y0|e]] eqn:Hx0; [| done]. cbn [fst] in Hfirst.
  rewrite run_bind.
  pose proof (strips_forEach f rest Hf h1) as Hrest.
  destruct (forEach f rest h1) as [h2 [ys'|e]] eqn:Hloop; [| done].
  cbn [fst] in Hrest. intros [= <- <-] [<- | Hin].
  - exists h, h1, y0. split; [apply stripped_refl |]. by split.
  - destruct (IH h1 ys' Hloop Hin) as (ha & hb & y & Ha & Hx & Hb).
    exists ha, hb, y. split; [by eapply stripped_trans |]. by split.
Qed.

Lemma getField_setField_same fs key x : getField (setField fs key x) key = x.
Proof.
  induction fs as [|[k v] rest IH]; cbn [setField getField].
  - by rewrite String.eqb_refl.
  - destruct (String.eqb_spec k key) as [-> | Hk]; cbn [getField].
    + by rewrite String.eqb_refl.
    + destruct (String.eqb_spec k key); [done | exact IH].
Qed.

Lemma assignAll_getField fields current key x :
  NoDup fields.*1 → valuesOnly fields →
  In (key, UValue x) fields → isUndefined x = false →
  getField (assignAll fields current) key = x.
Proof.
  revert current. induction fields as [|[k value] rest IH];
    intros current Hkeys Hvalues Hin Hx; [done |].
  cbn [fmap list_fmap fst] in Hkeys. apply NoDup_cons in Hkeys as [Hk Hrest].
  assert (Hvalues' : valuesOnly rest)
    by (intros k' x' Hin'; apply (Hvalues k' x'); by right).
  assert (Hskip : ∀ current', k ∉ rest.*1 →
            getField (assignAll rest current') k = getField current' k).
  { clear -Hvalues'. induction rest as [|[k' value'] rest IH];
      intros current' Hnot; [done |].
    cbn [fmap list_fmap fst] in Hnot.
    apply not_elem_of_cons in Hnot as [Hne Hnot].
    assert (Hvalues'' : valuesOnly rest)
      by (intros k'' x'' Hin''; apply (Hvalues' k'' x''); by right).
    destruct (Hvalues' k' value' (or_introl eq_refl)) as [w ->].
    cbn [assignAll]. rewrite (IH Hvalues'' _ Hnot).
    destruct (isUndefined w).
    - apply getField_deleteField_ne. congruence.
    - apply getField_setField_ne. congruence. }
  destruct Hin as [[= -> ->] | Hin].
  - cbn [assignAll]. rewrite Hx, (Hskip _ Hk). apply getField_setField_same.
  - destruct (Hvalues k value (or_introl eq_refl)) as [w ->].
    cbn [assignAll]. by apply IH.
Qed.

Lemma applyFields_values fields n (h : heap) current :
  valuesOnly fields →
  h !! n = Some (CObj current) →
  applyFields fields (HRef n) h =
  (<[n := CObj (assignAll fields current)]> h, Return ()).
Proof.
  revert h current. induction fields as [|[key value] rest IH];
    intros h current Hvalues Hn.
  - cbn. by rewrite insert_id.
  - destruct (Hvalues key value (or_introl eq_refl)) as [w ->].
    assert (Hvalues' : valuesOnly rest)
      by (intros k' x' Hin'; apply (Hvalues k' x'); by right).
    cbn [applyFields assignAll]. rewrite run_bind, run_ret, run_bind.
    destruct (isUndefined w);
      unfold deleteProperty, setProperty, withFields;
      rewrite run_bind; unfold read at 1; rewrite Hn; unfold write at 1;
      (rewrite (IH _ _ Hvalues' (lookup_insert_eq _ _ _)));
      by rewrite insert_insert_eq.
Qed.

Lemma applyFields_needs_object fields n (h h' : heap) :
  fields ≠ [] → valuesOnly fields →
  applyFields fields (HRef n) h = (h', Return ()) →
  ∃ current, h !! n = Some (CObj current).
Proof.
  destruct fields as [|[key value] rest]; [done |]. intros _ Hvalues.
  destruct (Hvalues key value (or_introl eq_refl)) as [w ->].
  cbn [applyFields]. rewrite run_bind, run_ret, run_bind.
  destruct (h !! n) as [[current | items]|] eqn:Hn; [by eauto | |];
    destruct (isUndefined w);
    unfold deleteProperty, setProperty, withFields;
    rewrite run_bind; unfold read at 1; by rewrite Hn.
Qed.

(** X20. [updateDocument] normalises in place the objects it is given as
    update values: when a field map without functions gives a field an
    object of the caller's, the call, if it returns, leaves that object
    without its fields that held [undefined]. *)
Theorem update_value_normalised_in_place
    depth document (fields : list (string * UpdateValue))
    key u held (h h' : heap) v :
  NoDup fields.*1 → valuesOnly fields →
  In (key, UValue (HRef u)) fields →
  h !! u = Some (CObj held) →
  updateDocument depth document (UpdateFields fields) h = (h', Return v) →
  h' !! u = Some (CObj (definedFields held)).
Proof.
  intros Hkeys Hvalues Hin Hu. unfold updateDocument. rewrite run_bind.
  pose proof (extends_deepClone depth (HRef document) h) as Hext1.
  destruct (deepClone depth (HRef document) h) as [h1 [w|e]] eqn:Hclone;
    [| done].
  cbn [fst] in Hext1.
  destruct (deepClone_ref_fresh _ _ _ _ _ Hclone) as (n & -> & Hfresh).
  assert (Hne : u ≠ n) by congruence.
  assert (Hu1 : h1 !! u = Some (CObj held)) by (by eapply lookup_weaken).
  rewrite run_bind.
  destruct (applyFields fields (HRef n) h1) as [h2 [[]|e]] eqn:Happly; [| done].
  destruct (applyFields_needs_object fields n h1 h2) as [current Hn];
    [by intros -> | done | done |].
  rewrite (applyFields_values _ _ _ _ Hvalues Hn) in Happly.
  injection Happly as <-.
  pose proof (assignAll_getField fields current key (HRef u)
                Hkeys Hvalues Hin eq_refl) as Hfield.
  apply getField_ref_In in Hfield.
  unfold normaliseAndCopy, prepareObject. rewrite run_bind.
  destruct depth as [|depth]; [done |]. cbn [prepare].
  rewrite run_bind. unfold read at 1. rewrite lookup_insert_eq.
  rewrite run_bind. unfold write at 1. rewrite insert_insert_eq, run_bind.
  set (h2 := <[n := CObj (definedFields (assignAll fields current))]> h1).
  assert (Hu2 : h2 !! u = Some (CObj held))
    by (unfold h2; by rewrite lookup_insert_ne).
  destruct (forEach (λ kv : string * hval, prepare depth kv.2)
              (definedFields (assignAll fields current)) h2)
    as [h3 [ys|e]] eqn:Hloop; [| done].
  rewrite run_ret.
  destruct (forEach_visits _ _ (key, HRef u) _ _ _
              (λ kv, strips_prepare depth kv.2) Hloop)
    as (ha & hb & [] & Ha & Hvisit & Hb).
  { apply filter_In. by split. }
  cbn [snd] in Hvisit.
  assert (Hub : hb !! u = Some (CObj (definedFields held))).
  { destruct (Ha u _ Hu2) as [Hua | Hua].
    - exact (prepare_strips_target _ _ _ _ _ Hua Hvisit).
    - rewrite (prepare_strips_target _ _ _ _ _ Hua Hvisit).
      by rewrite strip_idempotent. }
  assert (Hu3 : h3 !! u = Some (CObj (definedFields held))).
  { destruct (Hb u _ Hub) as [H | H]; [done |].
    change (strip (CObj (definedFields held)))
      with (strip (strip (CObj held))) in H.
    by rewrite strip_idempotent in H. }
  rewrite run_bind.
  pose proof (isObjectEmpty_store (HRef n) h3) as Hsame.
  destruct (isObjectEmpty (HRef n) h3) as [h4 [empty|e]]; [| done].
  cbn [fst] in Hsame. subst h4. destruct empty.
  - by intros [= <- <-].
  - intros Hcopy. pose proof (extends_deepClone (S depth) (HRef n) h3) as Hext.
    rewrite Hcopy in Hext. by eapply lookup_weaken.
Qed.

Lemma update_value_normalised_in_place_witness :
  let h : heap :=
    {[ 1%positive := CObj [("a", HNum 1)];
       2%positive := CObj [("x", HUndefined); ("y", HStr "s")] ]} in
  let update := UpdateFields [("b", UValue (HRef 2))] in
  (updateDocument 4 1 update h).1 !! 2%positive =
  Some (CObj [("y", HStr "s")]).
Proof.
  intros h update.
  apply (update_value_normalised_in_place 4 1%positive
           [("b", UValue (HRef 2))] "b" 2%positive
           [("x", HUndefined); ("y", HStr "s")] h
           (updateDocument 4 1 update h).1 (HRef 5)).
  - by apply (bool_decide_unpack _).
  - intros key x [[= <- <-] | []]. eauto.
  - by left.
  - reflexivity.
  - vm_compute. reflexivity.
Defined.


End Store.

(* ================================================================== *)
(** * The write coalescer *)
(* ================================================================== *)

Module Coalescer.

Local Open Scope nat_scope.

(** Modelled from the spec: the [Writer] of [writer.ts], which is not among
    the sources, as the state machine of the specification. The file holds
    the snapshot last written to completion (a write replaces the whole
    file at once); [writing] is the snapshot of the write in flight, if
    any; [pending] is the latest snapshot requested while a write was in
    flight, if any; [completed] counts the writes that ran to completion. *)
Record state : Type := {
  file : string;
  writing : option string;
  pending : option string;
  completed : nat
}.

(** Modelled from the spec: "State machine: Idle, Writing,
    Writing-with-Pending." *)
Inductive phase : Type := Idle | Writing | WritingWithPending.

Definition phaseOf (w : state) : phase :=
  match writing w, pending w with
  | None, _ => Idle
  | Some _, None => Writing
  | Some _, Some _ => WritingWithPending
  end.

(** What happens to a writer: a snapshot is handed to it ([writer.add]), or
    the write in flight completes. Requests and completions interleave in
    any order. *)
Inductive event : Type :=
  | Add (snapshot : string)
  | Complete.

(** Modelled from the spec: [writer.add]. "Idle + new snapshot arrives:
    begin an asynchronous write of that snapshot, transition to Writing.
    Writing + new snapshot arrives: remember it as the latest-pending
    snapshot (overwriting any previously remembered one)." *)
Definition add (snapshot : string) (w : state) : state :=
  match writing w with
  | None =>
      {| file := file w; writing := Some snapshot; pending := None;
         completed := completed w |}
  | Some current =>
      {| file := file w; writing := Some current; pending := Some snapshot;
         completed := completed w |}
  end.

(** Modelled from the spec: the end of the write in flight. "Writing
    completes, no pending snapshot remembered: transition to Idle. Writing
    completes, a pending snapshot is remembered: immediately begin writing
    that snapshot (clear the pending slot)." The write replaces the whole
    file ("whole-file replace ..., no partial-file visible states"). *)
Definition complete (w : state) : state :=
  match writing w with
  | None => w
  | Some current =>
      {| file := current; writing := pending w; pending := None;
         completed := S (completed w) |}
  end.

(** Modelled from the spec: [writer.write], the "direct synchronous-style
    write (await full completion, bypassing coalescing)". *)
Definition write (snapshot : string) (w : state) : state :=
  {| file := snapshot; writing := writing w; pending := pending w;
     completed := S (completed w) |}.

Definition step (w : state) (e : event) : state :=
  match e with
  | Add snapshot => add snapshot w
  | Complete => complete w
  end.

Definition run (w : state) (events : list event) : state :=
  fold_left step events w.

(** Letting the write in flight and the pending one, if any, complete. *)
Definition settle (w : state) : state := complete (complete w).

(** The snapshot requested last, if any was. *)
Fixpoint lastAdd (events : list event) : option string :=
  match events with
  | [] => None
  | Add snapshot :: rest =>
      match lastAdd rest with
      | Some later => Some later
      | None => Some snapshot
      end
  | Complete :: rest => lastAdd rest
  end.

(** A snapshot is remembered only while a write is in flight. *)
Definition wellFormed (w : state) : Prop :=
  writing w = None → pending w = None.

(** The snapshot the writer is bound to leave in the file. *)
Definition latestOf (w : state) : string :=
  match pending w, writing w with
  | Some snapshot, _ => snapshot
  | None, Some snapshot => snapshot
  | None, None => file w
  end.

(** [content] is one whole snapshot: the file as it was, a snapshot the
    writer already held, or one of those requested. *)
Definition wholeSnapshot (w : state) (events : list event) (content : string) : Prop :=
  content = file w ∨ writing w = Some content ∨ pending w = Some content ∨
  In (Add content) events.

(** Since the state [w0], a write has completed or one is in flight. *)
Definition active (w0 w : state) : Prop :=
  completed w0 ≤ completed w ∧
  (completed w0 < completed w ∨ is_Some (writing w)).

Lemma wellFormed_step w e : wellFormed w → wellFormed (step w e).
Proof.
  unfold wellFormed. destruct w as [f [s|] [p|] n], e; cbn; intros H; auto;
    try discriminate; by specialize (H eq_refl).
Qed.

Lemma wellFormed_run w events : wellFormed w → wellFormed (run w events).
Proof.
  revert w. induction events as [|e rest IH]; intros w Hw; [done |].
  apply IH. by apply wellFormed_step.
Qed.

Lemma wellFormed_add snapshot w : wellFormed (add snapshot w).
Proof. unfold wellFormed, add. by destruct (writing w). Qed.

(** From the first request on, the state is well formed. *)
Lemma wellFormed_requested w events :
  is_Some (lastAdd events) → wellFormed (run w events).
Proof.
  revert w. induction events as [|e rest IH]; intros w; [by intros [? ?] |].
  cbn [run fold_left lastAdd]. fold (run (step w e) rest).
  destruct e as [snapshot|]; cbn [step]; [| apply IH].
  intros _. apply wellFormed_run, wellFormed_add.
Qed.

Lemma latestOf_run w events :
  latestOf (run w events) = default (latestOf w) (lastAdd events).
Proof.
  revert w. induction events as [|e rest IH]; intros w; [done |].
  cbn [run fold_left lastAdd]. fold (run (step w e) rest). rewrite IH.
  destruct e as [snapshot|]; cbn [step].
  - destruct (lastAdd rest); [done |]. cbn [default].
    unfold latestOf, add. by destruct (writing w).
  - destruct (lastAdd rest); [done |]. cbn [default].
    unfold latestOf, complete. by destruct w as [f [s|] [p|] n].
Qed.

Lemma settle_latest w :
  wellFormed w → file (settle w) = latestOf w ∧ phaseOf (settle w) = Idle.
Proof.
  unfold wellFormed, settle, complete, latestOf, phaseOf.
  destruct w as [f [s|] [p|] n]; cbn; intros H; try done.
  by specialize (H eq_refl).
Qed.

Lemma wholeSnapshot_run w events :
  let w' := run w events in
  wholeSnapshot w events (file w') ∧
  (∀ s, writing w' = Some s → wholeSnapshot w events s) ∧
  (∀ s, pending w' = Some s → wholeSnapshot w events s).
Proof.
  induction events as [|e rest IH] using rev_ind; cbn zeta.
  - unfold wholeSnapshot. cbn. repeat split; auto.
  - unfold run in *. rewrite fold_left_app. cbn [fold_left].
    cbn zeta in IH. destruct IH as (Hfile & Hwriting & Hpending).
    set (w' := fold_left step rest w) in *.
    assert (Hmono : ∀ c, wholeSnapshot w rest c → wholeSnapshot w (rest ++ [e]) c).
    { unfold wholeSnapshot. intros c [H | [H | [H | H]]]; auto.
      do 3 right. apply in_or_app. by left. }
    destruct e as [snapshot|]; cbn [step].
    + assert (Hnew : wholeSnapshot w (rest ++ [Add snapshot]) snapshot).
      { do 3 right. apply in_or_app. right. by left. }
      unfold add. destruct (writing w') as [current|] eqn:Hw'; cbn.
      * split; [by apply Hmono |]. split; intros s [= <-]; auto.
      * split; [by apply Hmono |]. split; [by intros s [= <-] | done].
    + unfold complete. destruct (writing w') as [current|] eqn:Hw'; cbn.
      * split; [by apply Hmono, Hwriting |]. split; [| done].
        intros s Hs. by apply Hmono, Hpending.
      * rewrite Hw'. split; [by apply Hmono |]. split; [done |].
        intros s Hs. by apply Hmono, Hpending.
Qed.

Lemma completed_complete w : completed w ≤ completed (complete w).
Proof. unfold complete. destruct (writing w); cbn; lia. Qed.

Lemma completed_run w events : completed w ≤ completed (run w events).
Proof.
  revert w. induction events as [|e rest IH]; intros w; [done |].
  cbn [run fold_left]. fold (run (step w e) rest).
  etrans; [| apply IH]. destruct e; cbn [step].
  - unfold add. by destruct (writing w).
  - apply completed_complete.
Qed.

Lemma completed_step w e : completed w ≤ completed (step w e).
Proof.
  destruct e; cbn [step]; [| apply completed_complete].
  unfold add. by destruct (writing w).
Qed.

Lemma active_step w0 w e : active w0 w → active w0 (step w e).
Proof.
  intros [Hle Hact]. pose proof (completed_step w e) as Hstep.
  split; [lia |]. destruct Hact as [Hlt | [current Hw]]; [left; lia |].
  destruct e; cbn [step].
  - right. unfold add. rewrite Hw. cbn. eauto.
  - left. unfold complete. rewrite Hw. cbn. lia.
Qed.

Lemma active_add w snapshot : active w (add snapshot w).
Proof.
  unfold active, add. destruct (writing w); cbn; split; eauto.
Qed.

Lemma active_run w0 w events :
  completed w0 ≤ completed w →
  active w0 w ∨ is_Some (lastAdd events) →
  active w0 (run w events).
Proof.
  revert w. induction events as [|e rest IH]; intros w Hle Hact.
  - destruct Hact as [H | [? H]]; [done | discriminate].
  - cbn [run fold_left]. fold (run (step w e) rest).
    pose proof (completed_step w e) as Hstep.
    apply IH; [lia |]. destruct Hact as [H | H].
    + left. by apply active_step.
    + destruct e as [snapshot|]; cbn [lastAdd step] in *; [| by right].
      left. destruct (active_add w snapshot) as [Hle' Hact'].
      split; [lia |]. destruct Hact' as [Hlt | Hw]; [left; lia | by right].
Qed.

Lemma active_settle w0 w : active w0 w → completed w0 < completed (settle w).
Proof.
  intros [Hle Hact]. unfold settle.
  pose proof (completed_complete w) as H1.
  pose proof (completed_complete (complete w)) as H2.
  destruct Hact as [Hlt | [current Hw]]; [lia |].
  assert (completed (complete w) = S (completed w))
    by (unfold complete; by rewrite Hw).
  lia.
Qed.

(** C9. Whatever snapshots are handed to the coalescer, and however the
    requests interleave with the completion of writes (in particular three
    requests S1, S2, S3 made while a write is in flight), once the write in
    flight and the pending one have completed the file holds exactly the
    snapshot requested last and the coalescer is idle; at every moment the
    file holds one whole snapshot (its initial content, or a snapshot that
    was handed over), never a mix; and at least one write has completed. *)
Theorem coalescing_keeps_latest (w : state) (events : list event) (latest : string) :
  lastAdd events = Some latest →
  file (settle (run w events)) = latest ∧
  phaseOf (settle (run w events)) = Idle ∧
  (∀ n, wholeSnapshot w events
          (file (run w (take n (events ++ [Complete; Complete]))))) ∧
  completed w < completed (settle (run w events)).
Proof.
  intros Hlast.
  assert (Hw' : wellFormed (run w events))
    by (apply wellFormed_requested; rewrite Hlast; eauto).
  destruct (settle_latest _ Hw') as [Hfile Hidle].
  split; [| split; [done |]; split].
  - by rewrite Hfile, latestOf_run, Hlast.
  - intros n.
    destruct (wholeSnapshot_run w (take n (events ++ [Complete; Complete])))
      as [[H | [H | [H | H]]] _]; unfold wholeSnapshot; auto.
    do 3 right. apply list_elem_of_In in H.
    pose proof (subseteq_take n (events ++ [Complete; Complete]) _ H) as H'.
    apply list_elem_of_In, in_app_or in H' as [H' | [H' | [H' | []]]];
      [done | |]; discriminate.
  - apply active_settle, active_run; [done |]. right. rewrite Hlast. eauto.
Qed.

Lemma coalescing_keeps_latest_witness :
  let w := {| file := "[]"; writing := Some "S0"; pending := None;
              completed := 0 |} in
  let final := settle (run w [Add "S1"; Add "S2"; Add "S3"]) in
  file final = "S3" ∧ phaseOf final = Idle ∧ completed final = 2%nat.
Proof.
  intros w final.
  destruct (coalescing_keeps_latest w [Add "S1"; Add "S2"; Add "S3"] "S3")
    as (Hfile & Hidle & _ & _); [reflexivity |].
  split; [exact Hfile |]. split; [exact Hidle | reflexivity].
Defined.

End Coalescer.

(* ================================================================== *)
(** * The collection *)
(* ================================================================== *)

Module Collection.

Import Values.

(** [DatabaseConfig] of [types.ts], as the constructor of [Database] fills
    it. A validator returns nothing and rejects a document by throwing. *)
Record DatabaseConfig : Type := {
  path : option string;
  pretty : bool;
  autoload : bool;
  autosave : bool;
  optimize : bool;
  immutable : bool;
  validator : option (Document → outcome unit)
}.

(** The fields of a [Database] instance: the documents in memory, the
    writer (present when a path is configured) and the configuration. *)
Record Database : Type := {
  documents : list Document;
  writer : option Coalescer.state;
  config : DatabaseConfig
}.

Definition withDocuments (db : Database) (documents : list Document) : Database :=
  {| documents := documents; writer := writer db; config := config db |}.

Definition withWriter (db : Database) (w : Coalescer.state) : Database :=
  {| documents := documents db; writer := Some w; config := config db |}.

(** [if (validator) validator(document)]. *)
Definition validate (db : Database) (document : Document) : outcome unit :=
  match validator (config db) with
  | Some check => check document
  | None => Return ()
  end.

(** [for (let i = 0; i < documents.length; i++) validator(documents[i])]. *)
Fixpoint validateAll (db : Database) (documents : list Document) : outcome unit :=
  match documents with
  | [] => Return ()
  | document :: rest =>
      match validate db document with
      | Return _ => validateAll db rest
      | Throw e => Throw e
      end
  end.

(** The loop of [insertMany]: the documents to insert, in order; a document
    that is empty once normalised is passed over. *)
Fixpoint collectInserted (db : Database) (documents : list value)
    : outcome (list Document) :=
  match documents with
  | [] => Return []
  | document :: rest =>
      match document with
      | VObj fields =>
          let prepared := prepareObject fields in
          if isObjectEmpty prepared then collectInserted db rest
          else
            match validate db prepared with
            | Return _ =>
                let internal := deepCloneDocument prepared in
                match collectInserted db rest with
                | Return inserted => Return (internal :: inserted)
                | Throw e => Throw e
                end
            | Throw e => Throw e
            end
      | _ => Throw (TypeError "Documents must be an objects")
      end
  end.

(** An instance used in the examples below: one stored document, a writer
    in its idle state, every option as the constructor sets it for a
    path. *)
Definition exampleDatabase : Database :=
  {| documents := [ [("a", VNum 1)] ];
     writer := Some {| Coalescer.file := "[]"; Coalescer.writing := None;
                       Coalescer.pending := None; Coalescer.completed := 0 |};
     config := {| path := Some "db.json"; pretty := true; autoload := true;
                  autosave := true; optimize := true; immutable := true;
                  validator := None |} |}.

(** What [JSON.parse] returns for the texts of the examples. *)
Definition exampleParse (text : string) : option value :=
  if String.eqb text "[1]" then Some (VArr [VNum 1])
  else if String.eqb text "[{}]" then Some (VArr [VObj []])
  else None.

(** ** Reading, updating and deleting

    Documents are tree values here: the functions a caller passes (query
    functions, update functions, the validator) are functions of the
    value they receive, and the copies made for [immutable] are the
    documents themselves. *)

(** What a caller passes as a query: [undefined], an object or a function
    (a [Query]), or a value of another kind, which every method rejects. *)
Inductive QueryArgument : Type :=
  | QueryOf (query : Query)
  | QueryOther.

(** What a caller passes as an update: an object or a function (an
    [Update]), or a value of another kind, [undefined] among them. *)
Inductive UpdateArgument : Type :=
  | UpdateOf (update : Update)
  | UpdateOther.

(** "Optimization for empty queries": [isUndefined(query) ||
    (isObject(query) && isObjectEmpty(query))] in [findMany] and [count],
    [!isFunction(query) && (isUndefined(query) || isObjectEmpty(query))]
    in [findOne]. *)
Definition emptyQuery (query : Query) : bool :=
  match query with
  | QueryUndefined => true
  | QueryFields fields => match fields with [] => true | _ => false end
  | QueryFunction _ => false
  end.

(** [documents[position]] for a position found by [searchDocuments]. Such
    a position lies within the array (lemma [searchDocuments_in_range]);
    outside it, where the source reads [undefined], the model reads an
    empty document. *)
Definition documentAt (documents : list Document) (position : nat) : Document :=
  default [] (documents !! position).

(** [temporary[position]] in an array that may have holes, [None] being a
    hole; a hole and a position outside the array read as [documentAt]
    does outside the array. *)
Definition slotAt (temporary : list (option Document)) (position : nat) : Document :=
  match temporary !! position with
  | Some (Some document) => document
  | _ => []
  end.

(** [this.documents = temporary] for an array in which nothing was
    deleted: the list of its elements. Such an array has no hole (lemma
    [updateEach_found]); a hole would read as [slotAt] reads it. *)
Definition elements (temporary : list (option Document)) : list Document :=
  (λ slot : option Document, default [] slot) <$> temporary.

(** [immutable ? deepClone(document) : document]. *)
Definition handOut (db : Database) (document : Document) : Document :=
  if immutable (config db) then deepCloneDocument document else document.

(** [immutable ? deepClone(documents) : documents]. *)
Definition handOutAll (db : Database) (documents : list Document) : list Document :=
  if immutable (config db) then deepCloneDocument <$> documents else documents.

(** [Database.findOne]; [None] is [null]. *)
Definition findOne (db : Database) (query : QueryArgument)
    : outcome (option Document) :=
  match query with
  | QueryOther => Throw (TypeError "Query must be an object or function")
  | QueryOf query =>
      if emptyQuery query then
        match documents db with
        | [] => Return None
        | document :: _ => Return (Some (handOut db document))
        end
      else
        match searchDocuments query (documents db) with
        | [] => Return None
        | position :: _ =>
            Return (Some (handOut db (documentAt (documents db) position)))
        end
  end.

(** [Database.findMany]. *)
Definition findMany (db : Database) (query : QueryArgument)
    : outcome (list Document) :=
  match query with
  | QueryOther => Throw (TypeError "Query must be an object or function")
  | QueryOf query =>
      if emptyQuery query then Return (handOutAll db (documents db))
      else
        match searchDocuments query (documents db) with
        | [] => Return []
        | found => Return (handOutAll db (documentAt (documents db) <$> found))
        end
  end.

(** [Database.count]. *)
Definition count (db : Database) (query : QueryArgument) : outcome nat :=
  match query with
  | QueryOther => Throw (TypeError "Query must be an object or function")
  | QueryOf query =>
      if emptyQuery query then Return (length (documents db))
      else Return (length (searchDocuments query (documents db)))
  end.

(** The loop of [deleteMany]: each document found is pushed to [deleted]
    and its place in [temporary] becomes a hole. *)
Fixpoint deleteEach (found : list nat) (temporary : list (option Document))
    (deleted : list Document) : list (option Document) * list Document :=
  match found with
  | [] => (temporary, deleted)
  | position :: rest =>
      let document := slotAt temporary position in
      deleteEach rest (<[position := None]> temporary) (deleted ++ [document])
  end.

(** The loop of [updateMany]: each document found is replaced in
    [temporary] by its update, or its place becomes a hole when the update
    gives [null]; an exception of [updateDocument] or of the validator
    ends the loop. *)
Fixpoint updateEach (db : Database) (update : Update) (found : list nat)
    (temporary : list (option Document)) (deleted : bool)
    (updatedDocuments : list Document)
    : outcome (list (option Document) * bool * list Document) :=
  match found with
  | [] => Return (temporary, deleted, updatedDocuments)
  | position :: rest =>
      let document := slotAt temporary position in
      match updateDocument document update with
      | Throw e => Throw e
      | Return None =>
          updateEach db update rest (<[position := None]> temporary) true
            updatedDocuments
      | Return (Some updated) =>
          match validate db updated with
          | Throw e => Throw e
          | Return _ =>
              updateEach db update rest (<[position := Some updated]> temporary)
                deleted (updatedDocuments ++ [updated])
          end
      end
  end.

(** Every document in memory is as the collection stores documents: not
    empty, and normalised. *)
Definition wellStored (db : Database) : Prop :=
  Forall stored (documents db).

(** The writer, if there is one, is bound to leave in the file the JSON
    text of the documents in memory. *)
Definition inStep (stringify : bool → list Document → string) (db : Database)
    : Prop :=
  match writer db with
  | Some w =>
      Coalescer.latestOf w = stringify (pretty (config db)) (documents db)
  | None => True
  end.

(** What an update makes of one document when it returns: the updated
    document, or [None] when the document is to be removed. *)
Definition updatedOf (update : Update) (document : Document) : option Document :=
  match updateDocument document update with
  | Return result => result
  | Throw _ => None
  end.

(** The content of the storage file once the writes the writer holds have
    run to completion. *)
Definition settledFile (db : Database) : option string :=
  (λ w, Coalescer.file (Coalescer.settle w)) <$> writer db.


Section operations.

(** The host's [JSON.parse] and [JSON.stringify] (the flag tells whether
    the output is indented with tabs), and the [Reader] of [reader.ts],
    which returns the content of the file at a path or throws. *)
Variable JSON_parse : string → option value.
Variable JSON_stringify : bool → list Document → string.
Variable Reader_read : string → outcome string.

(** [Database.save]. *)
Definition save (db : Database) : Database :=
  match writer db with
  | None => db
  | Some w =>
      let encoded := JSON_stringify (pretty (config db)) (documents db) in
      if optimize (config db)
      then withWriter db (Coalescer.add encoded w)
      else withWriter db (Coalescer.write encoded w)
  end.

(** [Database.insertOne]. *)
Definition insertOne (db : Database) (document : value)
    : Database * outcome Document :=
  match document with
  | VObj fields =>
      let prepared := prepareObject fields in
      if isObjectEmpty prepared then (db, Return [])
      else
        match validate db prepared with
        | Throw e => (db, Throw e)
        | Return _ =>
            let internal := deepCloneDocument prepared in
            let db := withDocuments db (documents db ++ [internal]) in
            let db := if autosave (config db) then save db else db in
            (db, Return (if immutable (config db)
                         then deepCloneDocument internal else internal))
        end
  | _ => (db, Throw (TypeError "Document must be an object"))
  end.

(** [Database.insertMany]. *)
Definition insertMany (db : Database) (documents : value)
    : Database * outcome (list Document) :=
  match documents with
  | VArr items =>
      match collectInserted db items with
      | Throw e => (db, Throw e)
      | Return inserted =>
          let db := withDocuments db (Collection.documents db ++ inserted) in
          let db := if autosave (config db) then save db else db in
          (db, Return (if immutable (config db)
                       then deepCloneDocument <$> inserted else inserted))
      end
  | _ => (db, Throw (TypeError "Input must be an array"))
  end.

(** [Database.load] (and [loadSync], which differs only in reading
    synchronously). The assignment to [this.documents] is the last
    statement; an exception before it leaves the instance as it was. *)
Definition load (db : Database) : Database * outcome unit :=
  match path (config db) with
  | None => (db, Return ())
  | Some file =>
      if String.eqb file "" then (db, Return ())
      else
        match Reader_read file with
        | Throw e => (db, Throw e)
        | Return content =>
            match parseDatabaseStorage JSON_parse content with
            | Throw e => (db, Throw e)
            | Return parsed =>
                match validateAll db parsed with
                | Throw e => (db, Throw e)
                | Return _ => (withDocuments db parsed, Return ())
                end
            end
        end
  end.

(** [if (autosave) await this.save()]. *)
Definition autosaved (db : Database) : Database :=
  if autosave (config db) then save db else db.

(** [Database.updateOne]; [None] is [null], and the empty object returned
    when the update deletes the document is [Some []]. *)
Definition updateOne (db : Database) (query : QueryArgument)
    (update : UpdateArgument) : Database * outcome (option Document) :=
  match query, update with
  | QueryOther, _ =>
      (db, Throw (TypeError "Query must be an object or function"))
  | QueryOf _, UpdateOther =>
      (db, Throw (TypeError "Update must be an object or function"))
  | QueryOf query, UpdateOf update =>
      match searchDocuments query (documents db) with
      | [] => (db, Return None)
      | position :: _ =>
          let document := documentAt (documents db) position in
          match updateDocument document update with
          | Throw e => (db, Throw e)
          | Return None =>
              (withDocuments db (delete position (documents db)),
               Return (Some []))
          | Return (Some updated) =>
              match validate db updated with
              | Throw e => (db, Throw e)
              | Return _ =>
                  let db :=
                    withDocuments db (<[position := updated]> (documents db)) in
                  let db := autosaved db in
                  (db, Return (Some (handOut db updated)))
              end
          end
      end
  end.

(** [Database.updateMany]. *)
Definition updateMany (db : Database) (query : QueryArgument)
    (update : UpdateArgument) : Database * outcome (list Document) :=
  match query, update with
  | QueryOther, _ =>
      (db, Throw (TypeError "Query must be an object or function"))
  | QueryOf _, UpdateOther =>
      (db, Throw (TypeError "Update must be an object or function"))
  | QueryOf query, UpdateOf update =>
      match searchDocuments query (documents db) with
      | [] => (db, Return [])
      | found =>
          match updateEach db update found (Some <$> documents db) false [] with
          | Throw e => (db, Throw e)
          | Return (temporary, deleted, updatedDocuments) =>
              let db :=
                withDocuments db
                  (if deleted then cleanArray temporary
                   else elements temporary) in
              let db := autosaved db in
              (db, Return (handOutAll db updatedDocuments))
          end
      end
  end.

(** [Database.deleteOne]. *)
Definition deleteOne (db : Database) (query : QueryArgument)
    : Database * outcome (option Document) :=
  match query with
  | QueryOther => (db, Throw (TypeError "Query must be an object or function"))
  | QueryOf query =>
      match searchDocuments query (documents db) with
      | [] => (db, Return None)
      | position :: _ =>
          let deleted := documentAt (documents db) position in
          let db := withDocuments db (delete position (documents db)) in
          let db := autosaved db in
          (db, Return (Some deleted))
      end
  end.

(** [Database.deleteMany]. *)
Definition deleteMany (db : Database) (query : QueryArgument)
    : Database * outcome (list Document) :=
  match query with
  | QueryOther => (db, Throw (TypeError "Query must be an object or function"))
  | QueryOf query =>
      match searchDocuments query (documents db) with
      | [] => (db, Return [])
      | found =>
          let '(temporary, deleted) :=
            deleteEach found (Some <$> documents db) [] in
          let db := withDocuments db (cleanArray temporary) in
          let db := autosaved db in
          (db, Return deleted)
      end
  end.

(** [Database.drop]. *)
Definition drop (db : Database) : Database :=
  autosaved (withDocuments db []).

(** Inserting the elements of an array one by one with [insertOne]. *)
Definition insertEach (db : Database) (items : list value) : Database :=
  fold_left (λ db item, (insertOne db item).1) items db.


Lemma collectInserted_skip db before fields after :
  prepareObject fields = [] →
  collectInserted db (before ++ VObj fields :: after) =
  collectInserted db (before ++ after).
Proof.
  intros Hempty. induction before as [|document before IH].
  - cbn. by rewrite Hempty.
  - cbn [app collectInserted]. destruct document; try done.
    destruct (isObjectEmpty (prepareObject fields0)); [exact IH |].
    destruct (validate db (prepareObject fields0)); [| done].
    by rewrite IH.
Qed.

(** C8. Parsing a storage file fails exactly when the content, once
    trimmed, is not empty and is not a JSON array all of whose elements are
    objects; when [load] throws, for a parse failure in particular, the
    instance is as it was before the call; and a content of white space
    only parses to the empty collection. *)
Theorem storage_parse_failure (db : Database) (content : string) :
  (throws (parseDatabaseStorage JSON_parse content) ↔
   trim content ≠ "" ∧ ¬ arrayOfObjects JSON_parse (trim content)) ∧
  (∀ file e,
     path (config db) = Some file → file ≠ "" →
     Reader_read file = Return content →
     parseDatabaseStorage JSON_parse content = Throw e →
     load db = (db, Throw e)) ∧
  (∀ e, (load db).2 = Throw e → (load db).1 = db) ∧
  (whiteSpaceOnly content = true →
   parseDatabaseStorage JSON_parse content = Return []).
Proof.
  split; [apply parseDatabaseStorage_throws |].
  split; [| split; [| apply parseDatabaseStorage_whiteSpace]].
  - intros file e Hpath Hfile Hread Hparse. unfold load.
    rewrite Hpath. destruct (String.eqb_spec file ""); [done |].
    by rewrite Hread, Hparse.
  - intros e. unfold load.
    destruct (path (config db)) as [file|]; [| done].
    destruct (String.eqb file ""); [done |].
    destruct (Reader_read file) as [text|]; [| done].
    destruct (parseDatabaseStorage JSON_parse text); [| done].
    by destruct (validateAll db a).
Qed.

(** C10. A document that is empty once normalised is not inserted:
    [insertOne] returns an empty object and leaves the instance as it was
    (no document added, nothing handed to the writer), and [insertMany]
    gives the same result and the same instance as without that document,
    wherever it stands in the array. *)
Theorem insert_empty_document
    (db : Database) (fields : Document) (before after : list value) :
  prepareObject fields = [] →
  insertOne db (VObj fields) = (db, Return []) ∧
  insertMany db (VArr (before ++ VObj fields :: after)) =
  insertMany db (VArr (before ++ after)).
Proof.
  intros Hempty. split.
  - unfold insertOne. by rewrite Hempty.
  - unfold insertMany. by rewrite collectInserted_skip.
Qed.

(** ** Properties of reading and deleting *)

Lemma handOut_same db document : handOut db document = document.
Proof. unfold handOut. rewrite deepCloneDocument_same. by destruct immutable. Qed.

Lemma handOutAll_same db l : handOutAll db l = l.
Proof.
  unfold handOutAll. destruct immutable; [| done].
  induction l as [|d l IH]; [done |]. cbn. by rewrite deepCloneDocument_same, IH.
Qed.

Lemma documents_autosaved db : documents (autosaved db) = documents db.
Proof.
  unfold autosaved, save. destruct (autosave (config db)); [| done].
  destruct (writer db); [| done]. by destruct (optimize (config db)).
Qed.

Lemma config_autosaved db : config (autosaved db) = config db.
Proof.
  unfold autosaved, save. destruct (autosave (config db)); [| done].
  destruct (writer db); [| done]. by destruct (optimize (config db)).
Qed.

Lemma documentAt_shift (document : Document) rest (found : list nat) :
  documentAt (document :: rest) <$> (S <$> found) = documentAt rest <$> found.
Proof. rewrite <- list_fmap_compose. by apply list_fmap_ext. Qed.

Lemma documentAt_found query (documents : list Document) :
  documentAt documents <$> searchDocuments query documents =
  List.filter (selects query) documents.
Proof.
  induction documents as [|d rest IH]; [by rewrite searchDocuments_filter |].
  rewrite searchDocuments_cons, fmap_app, documentAt_shift, IH.
  cbn [List.filter]. by destruct (selects query d).
Qed.

Lemma emptyQuery_selects query document :
  emptyQuery query = true → selects query document = true.
Proof. by destruct query as [| [|] |]. Qed.

Lemma filter_rejected {A} (keep : A → bool) (l : list A) :
  List.filter keep (List.filter (λ x, negb (keep x)) l) = [].
Proof.
  induction l as [|x l IH]; [done |]. cbn [List.filter].
  destruct (keep x) eqn:E; cbn [negb List.filter]; [exact IH |].
  by rewrite E.
Qed.

Lemma filter_none {A} (keep : A → bool) (l : list A) :
  List.filter keep l = [] → List.filter (λ x, negb (keep x)) l = l.
Proof.
  induction l as [|x l IH]; [done |]. cbn. destruct (keep x); [done |].
  intros H. cbn. by rewrite IH.
Qed.

Lemma count_selected db query :
  count db (QueryOf query) =
  Return (length (List.filter (selects query) (documents db))).
Proof.
  unfold count. destruct (emptyQuery query) eqn:Hempty.
  - by rewrite (filter_all (selects query) (documents db))
      by (intros d _; by apply emptyQuery_selects).
  - by rewrite <- documentAt_found, length_fmap.
Qed.

(** X8. The three reading methods agree with one another and with the
    query taken document by document: [findMany] returns the stored
    documents that satisfy the query, in the order of the collection,
    [findOne] returns the first of them ([null] when there is none) and
    [count] their number; the shortcut for an empty query gives what the
    search would give. *)
Theorem reading_returns_selected_documents (db : Database) (query : Query) :
  let selection := List.filter (selects query) (documents db) in
  findMany db (QueryOf query) = Return selection ∧
  findOne db (QueryOf query) = Return (head selection) ∧
  count db (QueryOf query) = Return (length selection).
Proof.
  cbn zeta. unfold findMany, findOne, count.
  destruct (emptyQuery query) eqn:Hempty.
  - rewrite handOutAll_same.
    rewrite (filter_all (selects query) (documents db))
      by (intros d _; by apply emptyQuery_selects).
    repeat split. destruct (documents db); [done |]. by rewrite handOut_same.
  - rewrite <- documentAt_found.
    destruct (searchDocuments query (documents db)) as [|position rest];
      [done |].
    rewrite handOutAll_same, handOut_same. repeat split.
    by rewrite !length_fmap.
Qed.

Lemma deleteEach_shift found slot temporary deleted :
  deleteEach (S <$> found) (slot :: temporary) deleted =
  (slot :: (deleteEach found temporary deleted).1,
   (deleteEach found temporary deleted).2).
Proof.
  revert temporary deleted.
  induction found as [|position rest IH]; intros temporary deleted; [done |].
  rewrite fmap_cons. cbn [deleteEach].
  change (<[S position:=None]> (slot :: temporary))
    with (slot :: <[position:=None]> temporary).
  change (slotAt (slot :: temporary) (S position))
    with (slotAt temporary position).
  apply IH.
Qed.

Lemma deleteEach_found query (documents : list Document) deleted :
  let result :=
    deleteEach (searchDocuments query documents) (Some <$> documents) deleted in
  cleanArray result.1 = List.filter (λ d, negb (selects query d)) documents ∧
  result.2 = deleted ++ List.filter (selects query) documents.
Proof.
  cbn zeta. revert deleted.
  induction documents as [|d rest IH]; intros deleted.
  - rewrite searchDocuments_filter. cbn. by rewrite app_nil_r.
  - rewrite searchDocuments_cons, fmap_cons. cbn [List.filter].
    destruct (selects query d); cbn [app negb].
    + cbn [deleteEach]. change (<[0%nat:=None]> (Some d :: (Some <$> rest)))
        with (None :: (Some <$> rest)).
      change (slotAt (Some d :: (Some <$> rest)) 0) with d.
      rewrite deleteEach_shift. cbn [fst snd cleanArray].
      destruct (IH (deleted ++ [d])) as [-> ->].
      by rewrite <- app_assoc.
    + rewrite deleteEach_shift. cbn [fst snd cleanArray].
      by destruct (IH deleted) as [-> ->].
Qed.

(** X9. [deleteMany] splits the collection in two: it returns the
    documents that satisfy the query and keeps the others, both in the
    order they had; afterwards no document satisfies the query. *)
Theorem delete_many_splits_collection (db : Database) (query : Query) :
  let result := deleteMany db (QueryOf query) in
  result.2 = Return (List.filter (selects query) (documents db)) ∧
  documents result.1 =
    List.filter (λ d, negb (selects query d)) (documents db) ∧
  count result.1 (QueryOf query) = Return 0%nat.
Proof.
  cbn zeta.
  assert (Hmain :
    (deleteMany db (QueryOf query)).2 =
      Return (List.filter (selects query) (documents db)) ∧
    documents (deleteMany db (QueryOf query)).1 =
      List.filter (λ d, negb (selects query d)) (documents db)).
  { unfold deleteMany.
    destruct (searchDocuments query (documents db)) as [|position rest] eqn:Hfound.
    - pose proof (documentAt_found query (documents db)) as Hsel.
      rewrite Hfound in Hsel. cbn in Hsel. rewrite <- Hsel.
      split; [done |]. cbn [fst]. symmetry. by apply filter_none.
    - rewrite <- Hfound.
      destruct (deleteEach_found query (documents db) []) as [Hkept Hdeleted].
      destruct (deleteEach (searchDocuments query (documents db))
                  (Some <$> documents db) []) as [temporary deleted].
      cbn [fst snd] in *. rewrite documents_autosaved. cbn.
      by rewrite Hkept, Hdeleted. }
  destruct Hmain as [Hdeleted Hkept]. split; [done |]. split; [done |].
  rewrite count_selected, Hkept. f_equal.
  by rewrite filter_rejected.
Qed.

Lemma searchDocuments_first query (before : list Document) document after :
  Forall (λ d, selects query d = false) before →
  selects query document = true →
  ∃ later,
    searchDocuments query (before ++ document :: after) =
    length before :: later.
Proof.
  intros Hbefore Hdocument. induction Hbefore as [|d before Hd _ IH].
  - cbn [app length]. rewrite searchDocuments_cons, Hdocument. cbn. eauto.
  - destruct IH as [later IH]. cbn [app length].
    rewrite searchDocuments_cons, Hd, IH. cbn. eauto.
Qed.

Lemma documentAt_middle (before : list Document) document after :
  documentAt (before ++ document :: after) (length before) = document.
Proof. unfold documentAt. by rewrite list_lookup_middle. Qed.

Lemma delete_middle_document (before : list Document) document after :
  delete (length before) (before ++ document :: after) = before ++ after.
Proof.
  induction before as [|d before IH]; [done |].
  change (d :: delete (length before) (before ++ document :: after) =
          d :: (before ++ after)).
  by rewrite IH.
Qed.

Lemma insert_middle_document (before : list Document) document after updated :
  <[length before := updated]> (before ++ document :: after) =
  before ++ updated :: after.
Proof.
  induction before as [|d before IH]; [done |].
  change (d :: <[length before := updated]> (before ++ document :: after) =
          d :: (before ++ updated :: after)).
  by rewrite IH.
Qed.

Lemma searchDocuments_none query (documents : list Document) :
  Forall (λ d, selects query d = false) documents →
  searchDocuments query documents = [].
Proof.
  intros Hnone. induction Hnone as [|d rest Hd _ IH].
  - by rewrite searchDocuments_filter.
  - by rewrite searchDocuments_cons, Hd, IH.
Qed.

(** X10. [deleteOne] removes the first document that satisfies the query
    and no other: the documents before it and after it stay, in their
    order, and the removed document is returned; when no document
    satisfies the query the instance is left as it is and [null] is
    returned. *)
Theorem delete_one_removes_first_match
    (db : Database) (query : Query)
    (before : list Document) (document : Document) (after : list Document) :
  (Forall (λ d, selects query d = false) (documents db) →
   deleteOne db (QueryOf query) = (db, Return None)) ∧
  (documents db = before ++ document :: after →
   Forall (λ d, selects query d = false) before →
   selects query document = true →
   (deleteOne db (QueryOf query)).2 = Return (Some document) ∧
   documents (deleteOne db (QueryOf query)).1 = before ++ after).
Proof.
  split.
  - intros Hnone. unfold deleteOne. by rewrite searchDocuments_none.
  - intros Hdocs Hbefore Hdocument. unfold deleteOne. rewrite Hdocs.
    destruct (searchDocuments_first query before document after Hbefore Hdocument)
      as [later ->].
    cbn [fst snd]. rewrite documents_autosaved. cbn [documents withDocuments].
    by rewrite documentAt_middle, delete_middle_document.
Qed.

(** X11. [updateOne] acts on the first document that satisfies the query
    and on no other. When the update gives a document the validator
    accepts, that document takes the place of the original and is
    returned; when the update gives [null], the original is removed, an
    empty object is returned and the writer is left as it was, whatever
    [autosave] says; when the update or the validator throws, the instance
    is left as it was. *)
Theorem update_one_acts_on_first_match
    (db : Database) (query : Query) (update : Update)
    (before : list Document) (document : Document) (after : list Document) :
  documents db = before ++ document :: after →
  Forall (λ d, selects query d = false) before →
  selects query document = true →
  let result := updateOne db (QueryOf query) (UpdateOf update) in
  match updateDocument document update with
  | Return (Some updated) =>
      match validate db updated with
      | Return _ =>
          result.2 = Return (Some updated) ∧
          documents result.1 = before ++ updated :: after
      | Throw e => result = (db, Throw e)
      end
  | Return None =>
      result.2 = Return (Some []) ∧
      documents result.1 = before ++ after ∧
      writer result.1 = writer db
  | Throw e => result = (db, Throw e)
  end.
Proof.
  intros Hdocs Hbefore Hdocument. cbn zeta. unfold updateOne. rewrite Hdocs.
  destruct (searchDocuments_first query before document after Hbefore Hdocument)
    as [later ->].
  rewrite documentAt_middle.
  destruct (updateDocument document update) as [[updated|]|e]; [| | done].
  - destruct (validate db updated); [| done]. cbn [fst snd].
    rewrite handOut_same, documents_autosaved. cbn [documents withDocuments].
    by rewrite insert_middle_document.
  - cbn [fst snd documents writer withDocuments].
    by rewrite delete_middle_document.
Qed.

(** ** Properties of [updateMany] *)

Lemma updateEach_shift db update found slot temporary deleted updatedDocuments :
  updateEach db update (S <$> found) (slot :: temporary) deleted updatedDocuments =
  match updateEach db update found temporary deleted updatedDocuments with
  | Return (temporary', deleted', updated') =>
      Return (slot :: temporary', deleted', updated')
  | Throw e => Throw e
  end.
Proof.
  revert temporary deleted updatedDocuments.
  induction found as [|position rest IH];
    intros temporary deleted updatedDocuments; [done |].
  rewrite fmap_cons. cbn [updateEach].
  change (slotAt (slot :: temporary) (S position))
    with (slotAt temporary position).
  destruct (updateDocument (slotAt temporary position) update)
    as [[updated|]|e]; [| | done].
  - destruct (validate db updated); [| done].
    change (<[S position:=Some updated]> (slot :: temporary))
      with (slot :: <[position:=Some updated]> temporary).
    apply IH.
  - change (<[S position:=None]> (slot :: temporary))
      with (slot :: <[position:=None]> temporary).
    apply IH.
Qed.

Lemma updateEach_found db query update (documents : list Document)
    deleted0 updated0 temporary deleted updatedDocuments :
  updateEach db update (searchDocuments query documents) (Some <$> documents)
    deleted0 updated0 = Return (temporary, deleted, updatedDocuments) →
  cleanArray temporary =
    omap (λ d, if selects query d then updatedOf update d else Some d)
      documents ∧
  updatedDocuments =
    updated0 ++
    omap (λ d, if selects query d then updatedOf update d else None)
      documents ∧
  (deleted = false → deleted0 = false ∧ temporary = Some <$> cleanArray temporary).
Proof.
  revert deleted0 updated0 temporary deleted updatedDocuments.
  induction documents as [|d rest IH];
    intros deleted0 updated0 temporary deleted updatedDocuments.
  - rewrite searchDocuments_filter. cbn. intros [= <- <- <-].
    by rewrite app_nil_r.
  - rewrite searchDocuments_cons, fmap_cons.
    destruct (selects query d) eqn:Hd; cbn [app].
    + cbn [updateEach].
      change (slotAt (Some d :: (Some <$> rest)) 0) with d.
      cbn [omap list_omap]. rewrite Hd.
      assert (Hof : updatedOf update d =
                    match updateDocument d update with
                    | Return r => r | Throw _ => None end) by done.
      rewrite Hof. clear Hof.
      destruct (updateDocument d update) as [[updated|]|e]; [| | done].
      * destruct (validate db updated); [| done].
        change (<[0%nat:=Some updated]> (Some d :: (Some <$> rest)))
          with (Some updated :: (Some <$> rest)).
        rewrite updateEach_shift.
        destruct (updateEach db update (searchDocuments query rest)
                    (Some <$> rest) deleted0 (updated0 ++ [updated]))
          as [[[temporary' deleted'] updated']|] eqn:Hrest; [| done].
        intros [= <- <- <-].
        destruct (IH _ _ _ _ _ Hrest) as (Hkept & Hupdated & Hsolid).
        cbn [cleanArray]. rewrite Hkept, Hupdated, <- app_assoc.
        split; [done |]. split; [done |].
        intros Hdel. destruct (Hsolid Hdel) as [-> Heq]. split; [done |].
        rewrite <- Hkept, fmap_cons. by f_equal.
      * change (<[0%nat:=None]> (Some d :: (Some <$> rest)))
          with (None :: (Some <$> rest)).
        rewrite updateEach_shift.
        destruct (updateEach db update (searchDocuments query rest)
                    (Some <$> rest) true updated0)
          as [[[temporary' deleted'] updated']|] eqn:Hrest; [| done].
        intros [= <- <- <-].
        destruct (IH _ _ _ _ _ Hrest) as (Hkept & Hupdated & Hsolid).
        cbn [cleanArray]. split; [done |]. split; [done |].
        intros Hdel. by destruct (Hsolid Hdel).
    + cbn [omap list_omap]. rewrite Hd. rewrite updateEach_shift.
      destruct (updateEach db update (searchDocuments query rest)
                  (Some <$> rest) deleted0 updated0)
        as [[[temporary' deleted'] updated']|] eqn:Hrest; [| done].
      intros [= <- <- <-].
      destruct (IH _ _ _ _ _ Hrest) as (Hkept & Hupdated & Hsolid).
      cbn [cleanArray]. rewrite Hkept. split; [done |]. split; [done |].
      intros Hdel. destruct (Hsolid Hdel) as [-> Heq]. split; [done |].
      rewrite <- Hkept, fmap_cons. by f_equal.
Qed.

Lemma elements_solid (l : list Document) : elements (Some <$> l) = l.
Proof.
  unfold elements. rewrite <- list_fmap_compose.
  induction l as [|d l IH]; [done |]. cbn. by rewrite IH.
Qed.

Lemma updateMany_documents db query update db' result :
  updateMany db (QueryOf query) (UpdateOf update) = (db', Return result) →
  documents db' =
    omap (λ d, if selects query d then updatedOf update d else Some d)
      (documents db) ∧
  result =
    omap (λ d, if selects query d then updatedOf update d else None)
      (documents db).
Proof.
  unfold updateMany.
  destruct (searchDocuments query (documents db)) as [|position rest] eqn:Hfound.
  - intros [= <- <-].
    pose proof (documentAt_found query (documents db)) as Hsel.
    rewrite Hfound in Hsel. cbn in Hsel. symmetry in Hsel.
    clear Hfound. induction (documents db) as [|d l IH]; [done |].
    cbn in Hsel. destruct (selects query d) eqn:Hd; [done |].
    cbn [omap list_omap]. rewrite Hd. destruct (IH Hsel) as [IH1 IH2].
    split; [by f_equal | done].
  - rewrite <- Hfound.
    destruct (updateEach db update (searchDocuments query (documents db))
                (Some <$> documents db) false [])
      as [[[temporary deleted] updatedDocuments]|] eqn:Hloop; [| done].
    intros [= <- <-].
    destruct (updateEach_found _ _ _ _ _ _ _ _ _ Hloop)
      as (Hkept & Hupdated & Hsolid).
    rewrite handOutAll_same, documents_autosaved.
    cbn [documents withDocuments]. split; [| done].
    destruct deleted; [done |]. destruct (Hsolid eq_refl) as [_ ->].
    by rewrite elements_solid.
Qed.

Lemma updateEach_returns db query update (documents : list Document)
    deleted0 updated0 final :
  updateEach db update (searchDocuments query documents) (Some <$> documents)
    deleted0 updated0 = Return final →
  Forall (λ d, selects query d = true →
               ∃ outcome, updateDocument d update = Return outcome ∧
                          ∀ updated, outcome = Some updated →
                                     validate db updated = Return ())
    documents.
Proof.
  revert deleted0 updated0 final.
  induction documents as [|d rest IH]; intros deleted0 updated0 final;
    [by constructor |].
  rewrite searchDocuments_cons, fmap_cons.
  destruct (selects query d) eqn:Hd; cbn [app].
  - cbn [updateEach].
    change (slotAt (Some d :: (Some <$> rest)) 0) with d.
    destruct (updateDocument d update) as [[updated|]|e] eqn:Hup; [| | done].
    + destruct (validate db updated) as [[]|] eqn:Hvalid; [| done].
      change (<[0%nat:=Some updated]> (Some d :: (Some <$> rest)))
        with (Some updated :: (Some <$> rest)).
      rewrite updateEach_shift.
      destruct (updateEach db update (searchDocuments query rest)
                  (Some <$> rest) deleted0 (updated0 ++ [updated]))
        as [final'|] eqn:Hrest; [| done].
      intros _. constructor; [| by eapply IH].
      intros _. exists (Some updated). split; [done |]. by intros ? [= <-].
    + change (<[0%nat:=None]> (Some d :: (Some <$> rest)))
        with (None :: (Some <$> rest)).
      rewrite updateEach_shift.
      destruct (updateEach db update (searchDocuments query rest)
                  (Some <$> rest) true updated0)
        as [final'|] eqn:Hrest; [| done].
      intros _. constructor; [| by eapply IH].
      intros _. exists None. by split.
  - rewrite updateEach_shift.
    destruct (updateEach db update (searchDocuments query rest)
                (Some <$> rest) deleted0 updated0)
      as [final'|] eqn:Hrest; [| done].
    intros _. constructor; [intros Hd'; congruence | by eapply IH].
Qed.

(** X12. [updateMany] works document by document. When it returns, the
    update returned for every document the query selects, and the
    validator accepted each document so obtained; the collection then
    holds, in their order, the documents the query does not select,
    untouched, and in the place of each selected document its update, or
    nothing when its update gave [null]; the array returned holds the
    updates of the selected documents, in the order of the collection. *)
Theorem update_many_updates_each_selected
    (db db' : Database) (query : Query) (update : Update)
    (result : list Document) :
  updateMany db (QueryOf query) (UpdateOf update) = (db', Return result) →
  Forall (λ d, selects query d = true →
               ∃ outcome, updateDocument d update = Return outcome ∧
                          ∀ updated, outcome = Some updated →
                                     validate db updated = Return ())
    (documents db) ∧
  documents db' =
    omap (λ d, if selects query d then updatedOf update d else Some d)
      (documents db) ∧
  result =
    omap (λ d, if selects query d then updatedOf update d else None)
      (documents db).
Proof.
  intros Hreturn. split; [| by apply updateMany_documents].
  revert Hreturn. unfold updateMany.
  destruct (searchDocuments query (documents db)) as [|position rest] eqn:Hfound.
  - intros _. apply Forall_forall. intros d Hin Hd. exfalso.
    assert (Hsel : In d (List.filter (selects query) (documents db))).
    { apply filter_In. split; [by apply list_elem_of_In | done]. }
    by rewrite <- documentAt_found, Hfound in Hsel.
  - rewrite <- Hfound.
    destruct (updateEach db update (searchDocuments query (documents db))
                (Some <$> documents db) false []) as [final|] eqn:Hloop;
      [| by destruct (searchDocuments query (documents db))].
    intros _. by eapply updateEach_returns.
Qed.

(** ** Invariants of the collection *)

Lemma wellStored_autosaved db : wellStored db → wellStored (autosaved db).
Proof. unfold wellStored. by rewrite documents_autosaved. Qed.

Lemma collectInserted_stored db items inserted :
  collectInserted db items = Return inserted → Forall stored inserted.
Proof.
  revert inserted. induction items as [|item rest IH]; intros inserted.
  - intros [= <-]. constructor.
  - cbn [collectInserted]. destruct item; try done.
    destruct (prepareObject fields) as [|field others] eqn:Hprepared;
      cbn [isObjectEmpty]; [apply IH |].
    destruct (validate db (field :: others)); [| done].
    destruct (collectInserted db rest) as [inserted'|]; [| done].
    intros [= <-]. constructor; [| by apply IH].
    rewrite deepCloneDocument_same. split; [done |].
    unfold normalised. rewrite <- Hprepared. apply prepareObject_idempotent.
Qed.

Lemma omap_stored (f : Document → option Document) (l : list Document) :
  Forall stored l →
  (∀ d x, f d = Some x → stored d → stored x) →
  Forall stored (omap f l).
Proof.
  intros Hl Hf. induction Hl as [|d l Hd _ IH]; [constructor |].
  cbn [omap list_omap]. destruct (f d) as [x|] eqn:Hfd; [| exact IH].
  constructor; [by eapply Hf | exact IH].
Qed.

Lemma filter_stored (keep : Document → bool) (l : list Document) :
  Forall stored l → Forall stored (List.filter keep l).
Proof.
  intros Hl. induction Hl as [|d l Hd _ IH]; [constructor |].
  cbn [List.filter]. destruct (keep d); [by constructor | done].
Qed.

Lemma delete_stored position (l : list Document) :
  Forall stored l → Forall stored (delete position l).
Proof.
  intros Hl. revert position. induction Hl as [|d l Hd Hl IH]; intros position.
  - by destruct position.
  - destruct position as [|position]; [exact Hl |].
    change (Forall stored (d :: delete position l)). by constructor.
Qed.

Lemma deleteMany_documents db query :
  documents (deleteMany db (QueryOf query)).1 =
  List.filter (λ d, negb (selects query d)) (documents db).
Proof.
  unfold deleteMany.
  destruct (searchDocuments query (documents db)) as [|position rest] eqn:Hfound.
  - pose proof (documentAt_found query (documents db)) as Hsel.
    rewrite Hfound in Hsel. cbn in Hsel. cbn [fst]. symmetry.
    by apply filter_none.
  - rewrite <- Hfound.
    destruct (deleteEach_found query (documents db) []) as [Hkept _].
    destruct (deleteEach (searchDocuments query (documents db))
                (Some <$> documents db) []) as [temporary deleted].
    cbn [fst snd] in *. rewrite documents_autosaved. cbn. by rewrite Hkept.
Qed.

(** X13. Every method keeps the collection well stored: if each document
    in memory is not empty and is normalised before a call to
    [insertOne], [insertMany], [updateOne], [updateMany], [deleteOne],
    [deleteMany], [drop] or [load], so is each document in memory after
    it, whether the call returns or throws. *)
Theorem methods_keep_documents_stored
    (db : Database) (document documents : value)
    (query : QueryArgument) (update : UpdateArgument) :
  wellStored db →
  wellStored (insertOne db document).1 ∧
  wellStored (insertMany db documents).1 ∧
  wellStored (updateOne db query update).1 ∧
  wellStored (updateMany db query update).1 ∧
  wellStored (deleteOne db query).1 ∧
  wellStored (deleteMany db query).1 ∧
  wellStored (drop db) ∧
  wellStored (load db).1.
Proof.
  intros Hdb. repeat apply conj.
  - unfold insertOne. destruct document; try done.
    destruct (prepareObject fields) as [|field others] eqn:Hprepared;
      cbn [isObjectEmpty]; [done |].
    destruct (validate db (field :: others)); [| done]. cbn [fst].
    apply (wellStored_autosaved (withDocuments db _)).
    unfold wellStored. cbn [Collection.documents withDocuments].
    apply Forall_app. split; [done |]. constructor; [| constructor].
    rewrite deepCloneDocument_same. split; [done |].
    unfold normalised. rewrite <- Hprepared. apply prepareObject_idempotent.
  - unfold insertMany. destruct documents; try done.
    destruct (collectInserted db items) as [inserted|] eqn:Hitems; [| done].
    cbn [fst]. apply (wellStored_autosaved (withDocuments db _)).
    unfold wellStored. cbn [Collection.documents withDocuments].
    apply Forall_app. split; [done |]. by eapply collectInserted_stored.
  - unfold updateOne. destruct query as [query|]; [| done].
    destruct update as [update|]; [| done].
    destruct (searchDocuments query (Collection.documents db))
      as [|position rest]; [done |].
    destruct (updateDocument (documentAt (Collection.documents db) position)
                update) as [[updated|]|e] eqn:Hupdate; [| | done].
    + destruct (validate db updated); [| done]. cbn [fst].
      apply (wellStored_autosaved (withDocuments db _)).
      unfold wellStored. cbn [Collection.documents withDocuments].
      apply Forall_insert; [done |]. by eapply updateDocument_stored.
    + cbn [fst]. unfold wellStored. cbn [Collection.documents withDocuments].
      by apply delete_stored.
  - destruct query as [query|]; [| done].
    destruct update as [update|]; [| done].
    destruct (updateMany db (QueryOf query) (UpdateOf update))
      as [db' [result|e]] eqn:Hmany.
    + destruct (updateMany_documents _ _ _ _ _ Hmany) as [Hdocuments _].
      cbn [fst]. unfold wellStored. rewrite Hdocuments.
      apply omap_stored; [done |]. intros d x Hx Hd.
      destruct (selects query d); [| by injection Hx as <-].
      unfold updatedOf in Hx.
      destruct (updateDocument d update) as [outcome|] eqn:Hupdate; [| done].
      subst outcome. by eapply updateDocument_stored.
    + assert (db' = db) as ->; [| done].
      revert Hmany. unfold updateMany.
      destruct (searchDocuments query (Collection.documents db)); [done |].
      destruct (updateEach db update _ _ false []) as [[[? ?] ?]|]; [done |].
      by intros [= <-].
  - destruct query as [query|]; [| done].
    unfold deleteOne.
    destruct (searchDocuments query (Collection.documents db))
      as [|position rest]; [done |].
    cbn [fst]. apply (wellStored_autosaved (withDocuments db _)).
    unfold wellStored. cbn [Collection.documents withDocuments].
    by apply delete_stored.
  - destruct query as [query|]; [| done].
    unfold wellStored. rewrite deleteMany_documents. by apply filter_stored.
  - apply (wellStored_autosaved (withDocuments db [])). constructor.
  - unfold load. destruct (path (config db)) as [file|]; [| done].
    destruct (String.eqb file ""); [done |].
    destruct (Reader_read file) as [content|]; [| done].
    destruct (parseDatabaseStorage JSON_parse content) as [parsed|] eqn:Hparse;
      [| done].
    destruct (validateAll db parsed); [| done]. cbn [fst].
    by eapply parseDatabaseStorage_stored.
Qed.

(** X14. A method that throws because of its arguments has changed
    nothing: when [insertOne], [insertMany], [updateOne], [updateMany],
    [deleteOne] or [deleteMany] throws for a wrong argument, an exception
    of the update or a document the validator rejects, at whatever point
    of an array or of a loop, the documents in memory and the writer are
    as they were before the call. (A failure of the write itself is not
    part of the model of [save].) *)
Theorem failed_method_changes_nothing
    (db : Database) (document documents : value)
    (query : QueryArgument) (update : UpdateArgument) (e : error) :
  ((insertOne db document).2 = Throw e → (insertOne db document).1 = db) ∧
  ((insertMany db documents).2 = Throw e → (insertMany db documents).1 = db) ∧
  ((updateOne db query update).2 = Throw e →
   (updateOne db query update).1 = db) ∧
  ((updateMany db query update).2 = Throw e →
   (updateMany db query update).1 = db) ∧
  ((deleteOne db query).2 = Throw e → (deleteOne db query).1 = db) ∧
  ((deleteMany db query).2 = Throw e → (deleteMany db query).1 = db).
Proof.
  repeat apply conj.
  - unfold insertOne. destruct document; try done.
    destruct (isObjectEmpty (prepareObject fields)); [done |].
    by destruct (validate db (prepareObject fields)).
  - unfold insertMany. destruct documents; try done.
    by destruct (collectInserted db items).
  - unfold updateOne. destruct query as [query|]; [| done].
    destruct update as [update|]; [| done].
    destruct (searchDocuments query (Collection.documents db))
      as [|position rest]; [done |].
    destruct (updateDocument _ update) as [[updated|]|]; [| done | done].
    by destruct (validate db updated).
  - unfold updateMany. destruct query as [query|]; [| done].
    destruct update as [update|]; [| done].
    destruct (searchDocuments query (Collection.documents db)); [done |].
    by destruct (updateEach db update _ _ false []) as [[[? ?] ?]|].
  - unfold deleteOne. destruct query as [query|]; [| done].
    by destruct (searchDocuments query (Collection.documents db)).
  - unfold deleteMany. destruct query as [query|]; [| done].
    destruct (searchDocuments query (Collection.documents db)); [done |].
    by destruct (deleteEach _ _ []).
Qed.

Lemma inStep_autosaved db :
  autosave (config db) = true → optimize (config db) = true →
  inStep JSON_stringify (autosaved db).
Proof.
  intros Hauto Hoptimize. unfold autosaved, save, inStep.
  rewrite Hauto, Hoptimize. destruct (writer db) as [w|] eqn:Hw;
    cbn [writer withWriter]; [| by rewrite Hw].
  cbn [config documents]. unfold Coalescer.latestOf, Coalescer.add.
  by destruct (Coalescer.writing w).
Qed.

(** X15. With [autosave] and [optimize] on, the writer follows the
    collection: if before a call the snapshot the writer is bound to leave
    in the file is the JSON text of the documents in memory, the same
    holds after [insertOne], [insertMany], [updateMany], [deleteOne],
    [deleteMany] and [drop], whether they return or throw, and after
    [updateOne] unless it returned the empty object of a deletion. *)
Theorem autosave_keeps_writer_in_step
    (db : Database) (document documents : value)
    (query : QueryArgument) (update : UpdateArgument) :
  autosave (config db) = true → optimize (config db) = true →
  inStep JSON_stringify db →
  inStep JSON_stringify (insertOne db document).1 ∧
  inStep JSON_stringify (insertMany db documents).1 ∧
  inStep JSON_stringify (updateMany db query update).1 ∧
  inStep JSON_stringify (deleteOne db query).1 ∧
  inStep JSON_stringify (deleteMany db query).1 ∧
  inStep JSON_stringify (drop db) ∧
  ((updateOne db query update).2 ≠ Return (Some []) →
   inStep JSON_stringify (updateOne db query update).1).
Proof.
  intros Hauto Hoptimize Hdb.
  assert (Hsaved : ∀ l, inStep JSON_stringify (autosaved (withDocuments db l)))
    by (intros l; by apply inStep_autosaved).
  repeat apply conj.
  - unfold insertOne. destruct document; try done.
    destruct (isObjectEmpty (prepareObject fields)); [done |].
    destruct (validate db (prepareObject fields)); [| done]. apply Hsaved.
  - unfold insertMany. destruct documents; try done.
    destruct (collectInserted db items); [| done]. apply Hsaved.
  - unfold updateMany. destruct query as [query|]; [| done].
    destruct update as [update|]; [| done].
    destruct (searchDocuments query (Collection.documents db)); [done |].
    destruct (updateEach db update _ _ false []) as [[[? ?] ?]|]; [| done].
    apply Hsaved.
  - unfold deleteOne. destruct query as [query|]; [| done].
    destruct (searchDocuments query (Collection.documents db)); [done |].
    apply Hsaved.
  - unfold deleteMany. destruct query as [query|]; [| done].
    destruct (searchDocuments query (Collection.documents db)); [done |].
    destruct (deleteEach _ _ []). apply Hsaved.
  - apply Hsaved.
  - unfold updateOne. destruct query as [query|]; [| done].
    destruct update as [update|]; [| done].
    destruct (searchDocuments query (Collection.documents db))
      as [|position rest]; [done |].
    destruct (updateDocument _ update) as [[updated|]|]; [| done | done].
    destruct (validate db updated); [| done]. intros _. apply Hsaved.
Qed.

Lemma collectInserted_config db1 db2 items :
  config db1 = config db2 →
  collectInserted db1 items = collectInserted db2 items.
Proof.
  intros Hconfig. induction items as [|item rest IH]; [done |].
  cbn [collectInserted]. unfold validate. by rewrite Hconfig, IH.
Qed.

Lemma insertEach_documents db items inserted :
  collectInserted db items = Return inserted →
  documents (insertEach db items) = documents db ++ inserted.
Proof.
  revert db inserted. induction items as [|item rest IH]; intros db inserted.
  - intros [= <-]. cbn. by rewrite app_nil_r.
  - cbn [collectInserted insertEach fold_left].
    fold (insertEach (insertOne db item).1 rest).
    unfold insertOne. destruct item; try done.
    destruct (isObjectEmpty (prepareObject fields)); [apply IH |].
    destruct (validate db (prepareObject fields)); [| done].
    destruct (collectInserted db rest) as [inserted'|] eqn:Hrest; [| done].
    intros [= <-]. cbn [fst].
    change (if autosave (config ?d) then save ?d else ?d) with (autosaved d).
    rewrite (IH _ inserted').
    + rewrite documents_autosaved. cbn [documents withDocuments].
      by rewrite <- app_assoc.
    + rewrite <- Hrest. apply collectInserted_config.
      by rewrite (config_autosaved (withDocuments db _)).
Qed.

(** X16. When [insertMany] returns, the collection holds what inserting
    the elements of the array one after the other with [insertOne] would
    leave in it: the documents it held, followed by the documents
    returned. *)
Theorem insert_many_as_repeated_insert_one
    (db db' : Database) (items : list value) (inserted : list Document) :
  insertMany db (VArr items) = (db', Return inserted) →
  documents db' = documents (insertEach db items) ∧
  documents db' = documents db ++ inserted.
Proof.
  unfold insertMany.
  destruct (collectInserted db items) as [collected|] eqn:Hitems; [| done].
  change (if autosave (config ?d) then save ?d else ?d) with (autosaved d).
  intros [= <- <-].
  rewrite (documents_autosaved (withDocuments db _)).
  cbn [documents withDocuments].
  rewrite (insertEach_documents _ _ _ Hitems). split; [done |].
  f_equal. destruct (immutable (config (autosaved _))); [| done].
  clear. induction collected as [|d l IH]; [done |].
  cbn. by rewrite deepCloneDocument_same, <- IH.
Qed.

Lemma validateAll_config db1 db2 l :
  config db1 = config db2 → validateAll db1 l = validateAll db2 l.
Proof.
  intros Hconfig. induction l as [|d l IH]; [done |].
  cbn [validateAll]. unfold validate. by rewrite Hconfig, IH.
Qed.

Lemma prepared_same (l : list Document) :
  Forall stored l →
  List.filter (λ d, negb (isObjectEmpty d)) (prepareObject <$> l) = l.
Proof.
  intros Hl. induction Hl as [|d l [Hne Hd] _ IH]; [done |].
  rewrite fmap_cons. cbn [List.filter]. rewrite Hd.
  destruct d; [done |]. cbn [isObjectEmpty negb]. by rewrite IH.
Qed.

(** X17. What was saved is what is loaded. Take a well stored collection
    with a storage file and an idle writer, and suppose the host's
    [JSON.parse] reads back the text [JSON.stringify] gives for these
    documents, and the validator accepts them. After [save], once the
    write has completed, [load] on an instance of this configuration sets
    its documents to exactly those that were saved: normalisation on
    loading drops and alters nothing. *)
Theorem saved_documents_load_back
    (db : Database) (w : Coalescer.state) (file content : string)
    (other : list Document) :
  wellStored db →
  path (config db) = Some file → file ≠ "" →
  writer db = Some w →
  Coalescer.writing w = None → Coalescer.pending w = None →
  settledFile (save db) = Some content →
  Reader_read file = Return content →
  trim content ≠ "" →
  JSON_parse (trim content) = Some (VArr (VObj <$> documents db)) →
  validateAll db (documents db) = Return () →
  content = JSON_stringify (pretty (config db)) (documents db) ∧
  load (withDocuments (save db) other) = (save db, Return ()).
Proof.
  intros Hdb Hpath Hfile Hw Hwriting Hpending Hsettled Hread Hfull Hjson Hvalid.
  assert (Hcontent :
    content = JSON_stringify (pretty (config db)) (documents db)).
  { revert Hsettled. unfold settledFile, save. rewrite Hw.
    destruct w as [held writing pending completed]. cbn in Hwriting, Hpending.
    subst writing pending.
    destruct (optimize (config db)); cbn; by intros [= <-]. }
  split; [exact Hcontent |].
  assert (Hconfig : config (withDocuments (save db) other) = config db).
  { unfold save. rewrite Hw. by destruct (optimize (config db)). }
  unfold load. rewrite Hconfig, Hpath.
  destruct (String.eqb_spec file ""); [done |]. rewrite Hread.
  destruct (parseDatabaseStorage JSON_parse content) as [parsed|] eqn:Hparse.
  - destruct (parseDatabaseStorage_objects _ _ _ Hfull Hparse)
      as (objects & Hobjects & ->).
    rewrite Hjson in Hobjects. injection Hobjects as Hobjects.
    assert (objects = documents db) as ->.
    { clear -Hobjects. revert objects Hobjects.
      induction (documents db) as [|d l IH]; intros [|o objects]; try done.
      rewrite !fmap_cons. intros [= -> Hrest]. f_equal. by apply IH. }
    rewrite (prepared_same _ Hdb).
    rewrite (validateAll_config _ db) by exact Hconfig. rewrite Hvalid.
    f_equal. unfold save. rewrite Hw. by destruct (optimize (config db)).
  - exfalso. revert Hparse. unfold parseDatabaseStorage.
    destruct (String.eqb_spec (trim content) ""); [done |]. rewrite Hjson.
    by rewrite parseElements_objects.
Qed.

Lemma updateEach_deleting db query update (documents : list Document)
    deleted0 updated0 :
  Forall (λ d, selects query d = true → updateDocument d update = Return None)
    documents →
  ∃ temporary deleted,
    updateEach db update (searchDocuments query documents) (Some <$> documents)
      deleted0 updated0 = Return (temporary, deleted, updated0) ∧
    cleanArray temporary =
      List.filter (λ d, negb (selects query d)) documents ∧
    (deleted = false → temporary = Some <$> cleanArray temporary).
Proof.
  intros Hall. revert deleted0.
  induction Hall as [|d rest Hd _ IH]; intros deleted0.
  - rewrite searchDocuments_filter. cbn. eauto.
  - rewrite searchDocuments_cons, fmap_cons. cbn [List.filter].
    destruct (selects query d) eqn:Hsel; cbn [app negb].
    + cbn [updateEach].
      change (slotAt (Some d :: (Some <$> rest)) 0) with d.
      rewrite (Hd eq_refl).
      change (<[0%nat:=None]> (Some d :: (Some <$> rest)))
        with (None :: (Some <$> rest)).
      rewrite updateEach_shift.
      destruct (IH true) as (temporary & deleted & Hloop & Hkept & Hsolid).
      pose proof (updateEach_found _ _ _ _ _ _ _ _ _ Hloop) as (_ & _ & Hflag).
      rewrite Hloop. exists (None :: temporary), deleted.
      split; [done |]. split; [done |].
      intros Hdel. by destruct (Hflag Hdel).
    + rewrite updateEach_shift.
      destruct (IH deleted0) as (temporary & deleted & Hloop & Hkept & Hsolid).
      rewrite Hloop. exists (Some d :: temporary), deleted.
      split; [done |]. cbn [cleanArray]. rewrite Hkept. split; [done |].
      intros Hdel. rewrite fmap_cons, <- Hkept. f_equal. by apply Hsolid.
Qed.

(** X18. An update that gives [null] for every document the query selects
    deletes: [updateMany] then leaves in the collection exactly what
    [deleteMany] leaves for the same query and returns an empty array, and
    [updateOne] leaves exactly what [deleteOne] leaves. *)
Theorem update_to_null_deletes
    (db : Database) (query : Query) (update : Update) :
  Forall (λ d, selects query d = true → updateDocument d update = Return None)
    (documents db) →
  documents (updateMany db (QueryOf query) (UpdateOf update)).1 =
    documents (deleteMany db (QueryOf query)).1 ∧
  (updateMany db (QueryOf query) (UpdateOf update)).2 = Return [] ∧
  documents (updateOne db (QueryOf query) (UpdateOf update)).1 =
    documents (deleteOne db (QueryOf query)).1.
Proof.
  intros Hall. rewrite deleteMany_documents.
  assert (Hmany :
    documents (updateMany db (QueryOf query) (UpdateOf update)).1 =
      List.filter (λ d, negb (selects query d)) (documents db) ∧
    (updateMany db (QueryOf query) (UpdateOf update)).2 = Return []).
  { unfold updateMany.
    destruct (searchDocuments query (documents db)) as [|position rest] eqn:Hfound.
    - pose proof (documentAt_found query (documents db)) as Hsel.
      rewrite Hfound in Hsel. cbn in Hsel. cbn [fst snd]. split; [| done].
      symmetry. by apply filter_none.
    - rewrite <- Hfound.
      destruct (updateEach_deleting db query update (documents db) false []
                  Hall) as (temporary & deleted & -> & Hkept & Hsolid).
      cbn [fst snd]. rewrite handOutAll_same, documents_autosaved.
      cbn [documents withDocuments]. split; [| done].
      destruct deleted; [done |]. rewrite (Hsolid eq_refl), elements_solid.
      exact Hkept. }
  destruct Hmany as [Hdocuments Hresult].
  split; [done |]. split; [done |].
  unfold updateOne, deleteOne.
  destruct (searchDocuments query (documents db)) as [|position rest] eqn:Hfound;
    [done |].
  assert (Hin : In position (searchDocuments query (documents db)))
    by (rewrite Hfound; by left).
  apply searchDocuments_selects in Hin as (d & Hd & Hsel).
  assert (documentAt (documents db) position = d) as ->
    by (unfold documentAt; by rewrite Hd).
  rewrite Forall_forall in Hall.
  rewrite (Hall d (list_elem_of_lookup_2 _ _ _ Hd) Hsel).
  cbn [fst]. by rewrite documents_autosaved.
Qed.


End operations.

Lemma storage_parse_failure_witness :
  let content := String.append byteOrderMark (String.append " [1] " noBreakSpace) in
  let blank := String.append noBreakSpace (String.append "  " byteOrderMark) in
  let read : string → outcome string := λ _, Return content in
  load exampleParse read exampleDatabase =
    (exampleDatabase,
     Throw (TypeError "Database storage should contain only objects")) ∧
  parseDatabaseStorage exampleParse blank = Return [].
Proof.
  intros content blank read.
  destruct (storage_parse_failure exampleParse read exampleDatabase content)
    as (_ & Hload & _ & _).
  destruct (storage_parse_failure exampleParse read exampleDatabase blank)
    as (_ & _ & _ & Hspace).
  split; [| by apply Hspace].
  by apply (Hload "db.json").
Defined.

Lemma insert_empty_document_witness :
  let stringify : bool → list Document → string := λ _ _, "[...]" in
  insertOne stringify exampleDatabase (VObj [("a", VUndefined)]) =
    (exampleDatabase, Return []) ∧
  (insertMany stringify exampleDatabase
     (VArr [VObj [("b", VNum 2)]; VObj [("a", VUndefined)]])).1 =
  (insertMany stringify exampleDatabase (VArr [VObj [("b", VNum 2)]])).1.
Proof.
  intros stringify.
  destruct (insert_empty_document stringify exampleDatabase
              [("a", VUndefined)] [VObj [("b", VNum 2)]] [] eq_refl)
    as [Hone Hmany].
  split; [exact Hone |]. cbn [app] in Hmany. by rewrite Hmany.
Defined.

Lemma delete_one_removes_first_match_witness :
  let stringify : bool → list Document → string := λ _ _, "[...]" in
  let db := withDocuments exampleDatabase
              [ [("a", VNum 1)]; [("a", VNum 2)]; [("a", VNum 2); ("b", VNull)] ] in
  let query := QueryFields [("a", QValue (VNum 2))] in
  (deleteOne stringify db (QueryOf query)).2 = Return (Some [("a", VNum 2)]) ∧
  documents (deleteOne stringify db (QueryOf query)).1 =
    [ [("a", VNum 1)]; [("a", VNum 2); ("b", VNull)] ].
Proof.
  intros stringify db query.
  refine (proj2 (delete_one_removes_first_match stringify db query
            [ [("a", VNum 1)] ] [("a", VNum 2)]
            [ [("a", VNum 2); ("b", VNull)] ]) eq_refl _ eq_refl).
  repeat constructor.
Defined.

Lemma update_one_acts_on_first_match_witness :
  let stringify : bool → list Document → string := λ _ _, "[...]" in
  let db := withDocuments exampleDatabase
              [ [("a", VNum 1)]; [("a", VNum 2)]; [("a", VNum 2); ("b", VNull)] ] in
  let query := QueryFields [("a", QValue (VNum 2))] in
  let result :=
    updateOne stringify db (QueryOf query)
      (UpdateOf (UpdateFields [("a", UValue VUndefined)])) in
  result.2 = Return (Some []) ∧
  documents result.1 = [ [("a", VNum 1)]; [("a", VNum 2); ("b", VNull)] ] ∧
  writer result.1 = writer db.
Proof.
  intros stringify db query.
  refine (update_one_acts_on_first_match stringify db query
            (UpdateFields [("a", UValue VUndefined)])
            [ [("a", VNum 1)] ] [("a", VNum 2)]
            [ [("a", VNum 2); ("b", VNull)] ] eq_refl _ eq_refl).
  repeat constructor.
Defined.

Lemma update_many_updates_each_selected_witness :
  let stringify : bool → list Document → string := λ _ _, "[...]" in
  let db := withDocuments exampleDatabase
              [ [("a", VNum 1)]; [("a", VNum 2)]; [("a", VNum 2); ("b", VNull)] ] in
  let query := QueryFields [("a", QValue (VNum 2))] in
  let update := UpdateFields [("a", UValue VUndefined)] in
  documents (updateMany stringify db (QueryOf query) (UpdateOf update)).1 =
    [ [("a", VNum 1)]; [("b", VNull)] ] ∧
  (updateMany stringify db (QueryOf query) (UpdateOf update)).2 =
    Return [ [("b", VNull)] ].
Proof.
  intros stringify db query update.
  destruct (update_many_updates_each_selected stringify db
              (updateMany stringify db (QueryOf query) (UpdateOf update)).1
              query update [ [("b", VNull)] ] eq_refl)
    as (_ & Hdocuments & _).
  split; [exact Hdocuments | reflexivity].
Defined.

Lemma exampleDatabase_stored : wellStored exampleDatabase.
Proof. repeat constructor. by intros [=]. Qed.

Lemma methods_keep_documents_stored_witness :
  let stringify : bool → list Document → string := λ _ _, "[...]" in
  let read : string → outcome string := λ _, Return " [{}] " in
  wellStored
    (updateOne stringify exampleDatabase (QueryOf QueryUndefined)
       (UpdateOf (UpdateFields [("b", UValue (VObj [("c", VUndefined)]))]))).1 ∧
  wellStored (load exampleParse read exampleDatabase).1.
Proof.
  intros stringify read.
  destruct (methods_keep_documents_stored exampleParse stringify read
              exampleDatabase VNull VNull (QueryOf QueryUndefined)
              (UpdateOf (UpdateFields [("b", UValue (VObj [("c", VUndefined)]))]))
              exampleDatabase_stored)
    as (_ & _ & Hupdate & _ & _ & _ & _ & Hload).
  split; [exact Hupdate | exact Hload].
Defined.

Lemma failed_method_changes_nothing_witness :
  let stringify : bool → list Document → string := λ _ _, "[...]" in
  let db :=
    {| documents := [ [("a", VNum 1)] ];
       writer := writer exampleDatabase;
       config := {| path := Some "db.json"; pretty := true; autoload := true;
                    autosave := true; optimize := true; immutable := true;
                    validator :=
                      Some (λ d, if hasField d "a" then Return ()
                                 else Throw (UserError "a is required")) |} |} in
  let items := VArr [VObj [("a", VNum 2)]; VObj [("b", VNum 3)]] in
  insertMany stringify db items = (db, Throw (UserError "a is required")).
Proof.
  intros stringify db items.
  destruct (failed_method_changes_nothing stringify db VNull items
              QueryOther UpdateOther (UserError "a is required"))
    as (_ & Hmany & _).
  rewrite <- (Hmany eq_refl) at 2. reflexivity.
Defined.

Lemma autosave_keeps_writer_in_step_witness :
  let stringify : bool → list Document → string := λ _ _, "[]" in
  inStep stringify exampleDatabase ∧
  inStep stringify
    (deleteOne stringify exampleDatabase (QueryOf QueryUndefined)).1.
Proof.
  intros stringify.
  destruct (autosave_keeps_writer_in_step stringify exampleDatabase VNull VNull
              (QueryOf QueryUndefined) UpdateOther eq_refl eq_refl eq_refl)
    as (_ & _ & _ & Hdelete & _).
  split; [reflexivity | exact Hdelete].
Defined.

Lemma insert_many_as_repeated_insert_one_witness :
  let stringify : bool → list Document → string := λ _ _, "[...]" in
  let items := [VObj [("b", VNum 2)]; VObj []; VObj [("c", VUndefined)]] in
  documents (insertMany stringify exampleDatabase (VArr items)).1 =
  documents (insertEach stringify exampleDatabase items).
Proof.
  intros stringify items.
  exact (proj1 (insert_many_as_repeated_insert_one stringify exampleDatabase
                  (insertMany stringify exampleDatabase (VArr items)).1
                  items [ [("b", VNum 2)] ] eq_refl)).
Defined.

Lemma saved_documents_load_back_witness :
  let stringify : bool → list Document → string := λ _ _, "[{}]" in
  let parse : string → option value := λ text,
    if String.eqb text "[{}]" then Some (VArr [VObj [("a", VNum 1)]])
    else None in
  let read : string → outcome string := λ _, Return "[{}]" in
  load parse read (withDocuments (save stringify exampleDatabase) []) =
  (save stringify exampleDatabase, Return ()).
Proof.
  intros stringify parse read.
  refine (proj2 (saved_documents_load_back parse stringify read exampleDatabase
            {| Coalescer.file := "[]"; Coalescer.writing := None;
               Coalescer.pending := None; Coalescer.completed := 0 |}
            "db.json" "[{}]" [] exampleDatabase_stored eq_refl _ eq_refl
            eq_refl eq_refl eq_refl eq_refl _ eq_refl eq_refl)); by intros [=].
Defined.

Lemma update_to_null_deletes_witness :
  let stringify : bool → list Document → string := λ _ _, "[...]" in
  let db := withDocuments exampleDatabase
              [ [("a", VNum 1)]; [("a", VNum 2)]; [("a", VNum 1); ("b", VNull)] ] in
  let query := QueryFields [("a", QValue (VNum 1))] in
  let update := UpdateFunction (λ _, VNull) in
  documents (updateMany stringify db (QueryOf query) (UpdateOf update)).1 =
    documents (deleteMany stringify db (QueryOf query)).1 ∧
  documents (deleteMany stringify db (QueryOf query)).1 = [ [("a", VNum 2)] ].
Proof.
  intros stringify db query update.
  destruct (update_to_null_deletes stringify db query update) as (Hmany & _ & _).
  - by repeat constructor.
  - split; [exact Hmany | reflexivity].
Defined.


End Collection.
